(** * Raven network engine utilities: the diff-and-converge reconciler

    A shallow embedding of [pkg/networkengine/util/utils.go] and the
    properties of its key functions, listers, converge operations
    ([ApplyRules], [ApplyRoutes], [ApplyFDBs]) and teardown operations. *)

From Stdlib Require Import ZArith NArith List Bool Lia.
From Stdlib Require Import Strings.String Strings.Ascii Strings.Byte.
From stdpp Require Import base decidable option list gmap fin_maps strings pretty.

Local Open Scope string_scope.
Local Open Scope Z_scope.

(** ** Go values used by the source: byte slices, [net.IP], [net.IPNet],
       [net.HardwareAddr] *)

Module GoNet.

Abbreviation byte := Byte.byte.

#[global] Instance byte_eq_dec : EqDecision byte := Byte.byte_eq_dec.

(** [net.IP], [net.IPMask] and [net.HardwareAddr] are byte slices; a nil
    slice and an empty one are the same list here, as they are for
    [len], [bytes.Equal] and [String]. *)
Definition IP := list byte.
Definition IPMask := list byte.
Definition HardwareAddr := list byte.

Record IPNet := mkIPNet { IPNet_IP : IP; IPNet_Mask : IPMask }.

#[global] Instance IPNet_eq_dec : EqDecision IPNet.
Proof. solve_decision. Defined.

Definition IPv4len : nat := 4.
Definition IPv6len : nat := 16.

(** ["0123456789abcdef"[n]] *)
Definition hexDigit (n : N) : ascii :=
  match n with
  | 0 => "0" | 1 => "1" | 2 => "2" | 3 => "3" | 4 => "4" | 5 => "5"
  | 6 => "6" | 7 => "7" | 8 => "8" | 9 => "9" | 10 => "a" | 11 => "b"
  | 12 => "c" | 13 => "d" | 14 => "e" | _ => "f"
  end%N%char.

(** The two hexadecimal digits of a byte: [hexDigit[b>>4]], [hexDigit[b&0xF]]. *)
Definition hexByte (b : byte) : string :=
  let n := Byte.to_N b in
  String (hexDigit (N.shiftr n 4)) (String (hexDigit (N.land n 15)) EmptyString).

(** [hexString]: the bytes in hexadecimal, nothing in between. *)
Fixpoint hexString (bs : list byte) : string :=
  match bs with
  | [] => ""
  | b :: bs' => hexByte b ++ hexString bs'
  end.

(** [HardwareAddr.String]: the bytes in hexadecimal, separated by colons;
    the empty string for an empty address. *)
Fixpoint HardwareAddr_String (a : HardwareAddr) : string :=
  match a with
  | [] => ""
  | [b] => hexByte b
  | b :: a' => hexByte b ++ ":" ++ HardwareAddr_String a'
  end.

Definition v4InV6Prefix : list byte :=
  [x00; x00; x00; x00; x00; x00; x00; x00; x00; x00; xff; xff].

(** [IP.To4]: the 4-byte form of an IPv4 address, [None] (nil) when the
    address is not an IPv4 address. *)
Definition To4 (ip : IP) : option IP :=
  if decide (length ip = IPv4len) then Some ip
  else if decide (length ip = IPv6len ∧ take 12 ip = v4InV6Prefix)
       then Some (drop 12 ip)
       else None.

(** [IP.Equal]: same address, an IPv4 address and its IPv6 form being
    equal. *)
Definition IP_Equal (ip x : IP) : bool :=
  if decide (length ip = length x) then bool_decide (ip = x)
  else if decide (length ip = IPv4len ∧ length x = IPv6len)
       then bool_decide (take 12 x = v4InV6Prefix) && bool_decide (ip = drop 12 x)
  else if decide (length ip = IPv6len ∧ length x = IPv4len)
       then bool_decide (take 12 ip = v4InV6Prefix) && bool_decide (drop 12 ip = x)
  else false.

(** [bytes.Equal] *)
Definition bytes_Equal (a b : list byte) : bool := bool_decide (a = b).

(** Dotted decimal of a 4-byte address. *)
Definition string4 (p4 : list byte) : string :=
  match p4 with
  | [a; b; c; d] =>
      pretty (Byte.to_N a) ++ "." ++ pretty (Byte.to_N b) ++ "."
      ++ pretty (Byte.to_N c) ++ "." ++ pretty (Byte.to_N d)
  | _ => ""
  end.

(** The eight 16-bit fields of a 16-byte address. *)
Fixpoint v6u16 (ip : list byte) : list N :=
  match ip with
  | hi :: lo :: rest => (Byte.to_N hi * 256 + Byte.to_N lo)%N :: v6u16 rest
  | _ => []
  end.

(** Length of the run of zero fields at the head of [fs]. *)
Fixpoint zeroRun (fs : list N) : nat :=
  match fs with
  | 0%N :: fs' => S (zeroRun fs')
  | _ => 0
  end.

(** The first longest run of at least two zero fields, as (start, end),
    scanning the start positions [i], [i+1], ... of [fs]. *)
Fixpoint longestZeroRun (i : nat) (fs : list N) (best : option (nat * nat))
  : option (nat * nat) :=
  match fs with
  | [] => best
  | _ :: fs' =>
      let l := zeroRun fs in
      let better :=
        match best with
        | None => true
        | Some (s, e) => Nat.ltb (e - s) l
        end in
      longestZeroRun (S i) fs'
        (if Nat.leb 2 l && better then Some (i, (i + l)%nat) else best)
  end.

(** A 16-bit field in hexadecimal without leading zeros. *)
Definition appendHex (x : N) : string :=
  if decide (x < 16)%N then String (hexDigit x) ""
  else if decide (x < 256)%N then
    String (hexDigit (N.shiftr x 4)) (String (hexDigit (N.land x 15)) "")
  else if decide (x < 4096)%N then
    String (hexDigit (N.shiftr x 8))
      (String (hexDigit (N.land (N.shiftr x 4) 15)) (String (hexDigit (N.land x 15)) ""))
  else
    String (hexDigit (N.shiftr x 12))
      (String (hexDigit (N.land (N.shiftr x 8) 15))
         (String (hexDigit (N.land (N.shiftr x 4) 15)) (String (hexDigit (N.land x 15)) ""))).

(** Fields [i], [i+1], ... of an IPv6 address, the zero run [zr] written
    as a double colon. *)
Fixpoint string6_from (fuel i : nat) (fs : list N) (zr : option (nat * nat)) : string :=
  match fuel with
  | O => ""
  | S fuel' =>
      match fs !! i with
      | None => ""
      | Some x =>
          match zr with
          | Some (s, e) =>
              if decide (i = s) then
                "::" ++ match fs !! e with
                        | None => ""
                        | Some y => appendHex y ++ string6_from fuel' (S e) fs zr
                        end
              else (if decide (i = O) then "" else ":")
                   ++ appendHex x ++ string6_from fuel' (S i) fs zr
          | None =>
              (if decide (i = O) then "" else ":")
              ++ appendHex x ++ string6_from fuel' (S i) fs zr
          end
      end
  end.

Definition string6 (ip : list byte) : string :=
  let fs := v6u16 ip in
  string6_from 9 0 fs (longestZeroRun 0 fs None).

(** [IP.String] *)
Definition IP_String (ip : IP) : string :=
  if decide (length ip = O) then "<nil>"
  else if decide (length ip ≠ IPv4len ∧ length ip ≠ IPv6len) then "?" ++ hexString ip
  else match To4 ip with
       | Some p4 => string4 p4
       | None => string6 ip
       end.

(** [IPMask.String] *)
Definition IPMask_String (m : IPMask) : string :=
  if decide (length m = O) then "<nil>" else hexString m.

(** Number of leading one bits of a byte, with what is left after them
    shifted out: the inner loop of [simpleMaskLength]. *)
Fixpoint leadingOnes (fuel : nat) (v : N) : nat * N :=
  match fuel with
  | O => (O, v)
  | S fuel' =>
      if N.testbit v 7
      then let '(n, r) := leadingOnes fuel' (N.land (N.shiftl v 1) 255) in (S n, r)
      else (O, v)
  end.

(** [simpleMaskLength]: the number of leading ones of a mask made of
    ones followed by zeros, [None] (-1) for any other mask. *)
Fixpoint simpleMaskLength (mask : IPMask) : option nat :=
  match mask with
  | [] => Some O
  | v :: rest =>
      if decide (v = xff) then (λ n, 8 + n)%nat <$> simpleMaskLength rest
      else
        let '(n, r) := leadingOnes 8 (Byte.to_N v) in
        if decide (r ≠ 0%N) then None
        else if forallb (λ b, bool_decide (b = x00)) rest then Some n else None
  end.

(** [networkNumberAndMask] *)
Definition networkNumberAndMask (n : IPNet) : option (IP * IPMask) :=
  let ip4 := To4 (IPNet_IP n) in
  match (match ip4 with
         | Some ip => Some ip
         | None => if decide (length (IPNet_IP n) = IPv6len)
                   then Some (IPNet_IP n) else None
         end) with
  | None => None
  | Some ip =>
      if decide (length (IPNet_Mask n) = IPv4len) then
        if decide (length ip = IPv4len) then Some (ip, IPNet_Mask n) else None
      else if decide (length (IPNet_Mask n) = IPv6len) then
        if decide (length ip = IPv4len) then Some (ip, drop 12 (IPNet_Mask n))
        else Some (ip, IPNet_Mask n)
      else None
  end.

(** [IPNet.String], on a pointer receiver that may be nil. *)
Definition IPNet_String (n : option IPNet) : string :=
  match n with
  | None => "<nil>"
  | Some n =>
      match networkNumberAndMask n with
      | None => "<nil>"
      | Some (nn, m) =>
          match simpleMaskLength m with
          | None => IP_String nn ++ "/" ++ IPMask_String m
          | Some l => IP_String nn ++ "/" ++ pretty (N.of_nat l)
          end
      end
  end.

(** [net.CIDRMask(ones, bits)]: [ones] one bits followed by zeros, nil
    for an invalid pair. *)
Fixpoint maskBytes (l n : nat) : list byte :=
  match l with
  | O => []
  | S l' =>
      if Nat.leb 8 n then xff :: maskBytes l' (n - 8)
      else default x00 (Byte.of_N (255 - N.shiftr 255 (N.of_nat n))) :: maskBytes l' 0
  end.

Definition CIDRMask (ones bits : nat) : IPMask :=
  if decide (bits ≠ 8 * IPv4len ∧ bits ≠ 8 * IPv6len)%nat then []
  else if decide (bits < ones)%nat then []
  else maskBytes (bits / 8) ones.

End GoNet.
Import GoNet.

(** ** The netlink records the source handles

    Only the fields the source reads or writes; Go's [int] is an
    unbounded [Z] here, no arithmetic is done on these fields. A pointer
    field that may be nil is an [option]. *)

Module netlink.

Definition FAMILY_V4 : Z := 2.

Record Rule := mkRule {
  Rule_Priority : Z;
  Rule_Table : Z;
  Rule_Family : Z;
  Rule_Src : option IPNet
}.

Record Route := mkRoute {
  Route_Dst : option IPNet;
  Route_Gw : IP;
  Route_Src : IP;
  Route_LinkIndex : Z;
  Route_Table : Z
}.

Record Neigh := mkNeigh {
  Neigh_LinkIndex : Z;
  Neigh_Family : Z;
  Neigh_IP : IP;
  Neigh_HardwareAddr : HardwareAddr
}.

(** [netlink.Link], of which the source reads [Attrs().Index] only. *)
Record Link := mkLink { Link_Index : Z }.

#[global] Instance Rule_eq_dec : EqDecision Rule.
Proof. solve_decision. Defined.
#[global] Instance Route_eq_dec : EqDecision Route.
Proof. solve_decision. Defined.
#[global] Instance Neigh_eq_dec : EqDecision Neigh.
Proof. solve_decision. Defined.

End netlink.
Import netlink.

Module syscall.
Definition AF_BRIDGE : Z := 7.
End syscall.

(** ** Errors and [errorlist.List] *)

(** A Go [error] is its message; a nil error is [None]. *)
Definition error := string.

Module errorlist.

Definition List := list error.

(** [List.Append]: nil is not appended. (An error that is itself a
    [List] is spliced in element by element; the errors appended by the
    source are single errors.) *)
Definition Append (el : List) (err : option error) : List :=
  match err with
  | None => el
  | Some e => (el ++ [e])%list
  end.

(** [List.AsError]: nil when the list is empty, the list otherwise. *)
Definition AsError (el : List) : option List :=
  match el with
  | [] => None
  | _ => Some el
  end.

End errorlist.

(** [fmt.Errorf(prefix + ": %s", err)] *)
Definition Errorf (pfx : string) (err : error) : error := pfx ++ ": " ++ err.

(** ** The transport: [pkg/networkengine/util/netlink] and the kernel
       behind it *)

(** A request sent to the kernel. *)
Inductive Request :=
| ReqRuleList (family table : Z)
| ReqRuleAdd (r : Rule)
| ReqRuleDel (r : Rule)
| ReqRouteList (family table : Z)
| ReqRouteAdd (r : Route)
| ReqRouteReplace (r : Route)
| ReqRouteDel (r : Route)
| ReqNeighList (linkIndex family : Z)
| ReqNeighAppend (n : Neigh)
| ReqNeighDel (n : Neigh).

(** One entry of the request log: the request, the error it came back
    with, and the key of the map entry whose loop iteration sent it
    ([None] for a request sent outside a loop over a map). *)
Record Event := mkEvent {
  ev_key : option string;
  ev_req : Request;
  ev_err : option error
}.

(** The kernel as the transport shows it: the installed policy rules,
    the IPv4 routes, the neighbour entries, the log of all requests sent
    so far (oldest first), and which requests it rejects, as a function
    of the requests sent before. *)
Record Netlink := mkNetlink {
  nl_rules : list Rule;
  nl_routes : list Route;
  nl_neighs : list Neigh;
  nl_log : list Event;
  nl_fault : list Event → Request → option error
}.

(** [RouteKey] of [utils.go]: "%s-%d" of the destination prefix and the
    table. (It stands here because the identity of a route in the
    transport below is stated with it.) *)
Definition RouteKey (route : Route) : string :=
  IPNet_String (Route_Dst route) ++ "-" ++ pretty (Route_Table route).

Module netlinkutil.

(** Modelled from the spec: the transport package
    [pkg/networkengine/util/netlink], a thin layer over the kernel's
    netlink interface. What an accepted request does to the kernel: add and append install
    the object, delete removes it, replace is an upsert by the route's
    identity key (destination prefix and table), listing changes
    nothing. A rejected request changes nothing. *)
Definition accepted (c : Request) (nl : Netlink) : Netlink :=
  match c with
  | ReqRuleAdd r =>
      mkNetlink (nl_rules nl ++ [r]) (nl_routes nl) (nl_neighs nl) (nl_log nl) (nl_fault nl)
  | ReqRuleDel r =>
      mkNetlink (filter (λ x, x ≠ r) (nl_rules nl)) (nl_routes nl) (nl_neighs nl)
        (nl_log nl) (nl_fault nl)
  | ReqRouteAdd r =>
      mkNetlink (nl_rules nl) (nl_routes nl ++ [r]) (nl_neighs nl) (nl_log nl) (nl_fault nl)
  | ReqRouteReplace r =>
      mkNetlink (nl_rules nl)
        (filter (λ x, RouteKey x ≠ RouteKey r) (nl_routes nl) ++ [r])
        (nl_neighs nl) (nl_log nl) (nl_fault nl)
  | ReqRouteDel r =>
      mkNetlink (nl_rules nl) (filter (λ x, x ≠ r) (nl_routes nl)) (nl_neighs nl)
        (nl_log nl) (nl_fault nl)
  | ReqNeighAppend n =>
      mkNetlink (nl_rules nl) (nl_routes nl) (nl_neighs nl ++ [n]) (nl_log nl) (nl_fault nl)
  | ReqNeighDel n =>
      mkNetlink (nl_rules nl) (nl_routes nl) (filter (λ x, x ≠ n) (nl_neighs nl))
        (nl_log nl) (nl_fault nl)
  | ReqRuleList _ _ | ReqRouteList _ _ | ReqNeighList _ _ => nl
  end.

(** Modelled from the spec: sending one request. The kernel accepts or
    rejects it; either way the request is logged with its outcome. *)
Definition send (key : option string) (c : Request) (nl : Netlink)
  : Netlink * option error :=
  let err := nl_fault nl (nl_log nl) c in
  let nl' := match err with None => accepted c nl | Some _ => nl end in
  (mkNetlink (nl_rules nl') (nl_routes nl') (nl_neighs nl')
     (nl_log nl ++ [mkEvent key c err]) (nl_fault nl'),
   err).

Definition RuleAdd (key : option string) (r : Rule) := send key (ReqRuleAdd r).
Definition RuleDel (key : option string) (r : Rule) := send key (ReqRuleDel r).
Definition RouteAdd (key : option string) (r : Route) := send key (ReqRouteAdd r).
Definition RouteReplace (key : option string) (r : Route) := send key (ReqRouteReplace r).
Definition RouteDel (key : option string) (r : Route) := send key (ReqRouteDel r).
Definition NeighAppend (key : option string) (n : Neigh) := send key (ReqNeighAppend n).
Definition NeighDel (key : option string) (n : Neigh) := send key (ReqNeighDel n).

(** Modelled from the spec: [list(filter: table) -> [Rule]], the rules of
    one address family and table, in kernel order; nothing on failure. *)
Definition RuleListFiltered (family table : Z) (nl : Netlink)
  : Netlink * list Rule * option error :=
  let '(nl', err) := send None (ReqRuleList family table) nl in
  match err with
  | Some e => (nl', [], Some e)
  | None =>
      (nl', filter (λ r, Rule_Family r = family ∧ Rule_Table r = table) (nl_rules nl), None)
  end.

(** Modelled from the spec: [list(filter: table) -> [Route]]; the kernel
    state holds the IPv4 routes, so another family lists nothing. *)
Definition RouteListFiltered (family table : Z) (nl : Netlink)
  : Netlink * list Route * option error :=
  let '(nl', err) := send None (ReqRouteList family table) nl in
  match err with
  | Some e => (nl', [], Some e)
  | None =>
      (nl',
       if decide (family = FAMILY_V4)
       then filter (λ r, Route_Table r = table) (nl_routes nl)
       else [],
       None)
  end.

(** Modelled from the spec: [list(link, family) -> [Neigh]]. *)
Definition NeighList (linkIndex family : Z) (nl : Netlink)
  : Netlink * list Neigh * option error :=
  let '(nl', err) := send None (ReqNeighList linkIndex family) nl in
  match err with
  | Some e => (nl', [], Some e)
  | None =>
      (nl', filter (λ n, Neigh_LinkIndex n = linkIndex ∧ Neigh_Family n = family)
              (nl_neighs nl), None)
  end.

End netlinkutil.

(** ** Go maps: the heap of map objects and the order of [range] *)

(** A Go map is a reference: the converge operations get two references
    and delete from the object behind the first. [heap V] holds the map
    objects, a reference is a location; a location that holds nothing
    reads as the empty map. *)
Abbreviation loc := positive.
Abbreviation heap V := (gmap loc (gmap string V)).

(** [range m] visits every entry of [m] once, in an order the language
    leaves open: any function that lists the entries of a map. *)
Record RangeOrder := mkRangeOrder {
  range : ∀ V, gmap string V → list (string * V);
  range_perm : ∀ V (m : gmap string V), range V m ≡ₚ map_to_list m
}.
Arguments range _ {V} _.

Definition map_to_list_order : RangeOrder :=
  mkRangeOrder (λ V, map_to_list) (λ V m, reflexivity _).

(** ** The source: [utils.go] *)

Definition AllZeroMAC : HardwareAddr := [x00; x00; x00; x00; x00; x00].

Definition NewRavenRule (rulePriority routeTableID : Z) : Rule :=
  mkRule rulePriority routeTableID FAMILY_V4 None.

Definition RuleKey (rule : Rule) : string :=
  let src := "0.0.0.0/0" in
  let srcIPNet := Rule_Src rule in
  match srcIPNet with
  | Some n => IPNet_String (Some n)
  | None => src
  end.

Definition ListRulesOnNode (routeTableID : Z) (nl : Netlink)
  : Netlink * option (gmap string Rule) * option error :=
  let '(nl, rules, err) := netlinkutil.RuleListFiltered FAMILY_V4 routeTableID nl in
  match err with
  | Some e => (nl, None, Some e)
  | None => (nl, Some (foldl (λ rulesOnNode v, <[RuleKey v := v]> rulesOnNode) ∅ rules), None)
  end.

Definition ListRoutesOnNode (routeTableID : Z) (nl : Netlink)
  : Netlink * option (gmap string Route) * option error :=
  let '(nl, routes, err) := netlinkutil.RouteListFiltered FAMILY_V4 routeTableID nl in
  match err with
  | Some e => (nl, None, Some e)
  | None => (nl, Some (foldl (λ ro v, <[RouteKey v := v]> ro) ∅ routes), None)
  end.

Definition ListFDBsOnNode (link : Link) (nl : Netlink)
  : Netlink * option (gmap string Neigh) * option error :=
  let '(nl, neighs, err) := netlinkutil.NeighList (Link_Index link) syscall.AF_BRIDGE nl in
  match err with
  | Some e => (nl, None, Some e)
  | None =>
      (nl,
       Some (foldl (λ fdbsOnNode v,
                      if decide (HardwareAddr_String (Neigh_HardwareAddr v)
                                 = HardwareAddr_String AllZeroMAC)
                      then <[IP_String (Neigh_IP v) := v]> fdbsOnNode
                      else fdbsOnNode) ∅ neighs),
       None)
  end.

(** [routeEqual] dereferences both destination pointers: [None] is the
    panic on a nil one. *)
Definition routeEqual (x y : Route) : option bool :=
  match Route_Dst x, Route_Dst y with
  | Some xDst, Some yDst =>
      Some (if IP_Equal (IPNet_IP xDst) (IPNet_IP yDst)
               && IP_Equal (Route_Gw x) (Route_Gw y)
               && bytes_Equal (IPNet_Mask xDst) (IPNet_Mask yDst)
               && bool_decide (Route_LinkIndex x = Route_LinkIndex y)
            then true else false)
  | _, _ => None
  end.

(** The loop over [desired] of [ApplyRules], [es] being the entries of
    [desired] in the order of the loop. The loop body deletes from
    [current] only the key it is visiting, so even when both references
    are the same map every entry of the snapshot [es] is visited.
    Logging ([klog]) has no part in the results and is left out, here
    and below. *)
Fixpoint ApplyRules_desired (es : list (string * Rule)) (current : loc)
    (h : heap Rule) (nl : Netlink) (errList : errorlist.List)
  : heap Rule * Netlink * errorlist.List :=
  match es with
  | [] => (h, nl, errList)
  | (k, v) :: es' =>
      match (h !!! current) !! k with
      | None =>
          let '(nl, err) := netlinkutil.RuleAdd (Some k) v nl in
          ApplyRules_desired es' current h nl (errorlist.Append errList err)
      | Some _ =>
          ApplyRules_desired es' current
            (<[current := delete k (h !!! current)]> h) nl errList
      end
  end.

(** The loop that removes the unwanted rules. *)
Fixpoint ApplyRules_unwanted (es : list (string * Rule)) (nl : Netlink)
    (errList : errorlist.List) : Netlink * errorlist.List :=
  match es with
  | [] => (nl, errList)
  | (k, v) :: es' =>
      let '(nl, err) := netlinkutil.RuleDel (Some k) v nl in
      ApplyRules_unwanted es' nl (errorlist.Append errList err)
  end.

Definition ApplyRules (o : RangeOrder) (current desired : loc)
    (h : heap Rule) (nl : Netlink)
  : heap Rule * Netlink * option errorlist.List :=
  let errList := [] in
  let '(h, nl, errList) :=
    ApplyRules_desired (range o (h !!! desired)) current h nl errList in
  let '(nl, errList) := ApplyRules_unwanted (range o (h !!! current)) nl errList in
  (h, nl, errorlist.AsError errList).

(** How a call of [ApplyRoutes] ends: it returns, or [routeEqual] panics
    on a nil destination; the map objects and the kernel are then as the
    sweep left them. *)
Inductive outcome (A : Type) :=
| Returned (a : A)
| Panicked (h : heap Route) (nl : Netlink).
Arguments Returned {A} a.
Arguments Panicked {A} h nl.

(** The loop over [desired] of [ApplyRoutes]. *)
Fixpoint ApplyRoutes_desired (es : list (string * Route)) (current : loc)
    (h : heap Route) (nl : Netlink) (errList : errorlist.List)
  : outcome (heap Route * Netlink * errorlist.List) :=
  match es with
  | [] => Returned (h, nl, errList)
  | (k, v) :: es' =>
      match (h !!! current) !! k with
      | None =>
          let '(nl, err) := netlinkutil.RouteAdd (Some k) v nl in
          ApplyRoutes_desired es' current h nl (errorlist.Append errList err)
      | Some ro =>
          let h := <[current := delete k (h !!! current)]> h in
          match routeEqual ro v with
          | None => Panicked h nl
          | Some true => ApplyRoutes_desired es' current h nl errList
          | Some false =>
              let '(nl, err) := netlinkutil.RouteReplace (Some k) v nl in
              ApplyRoutes_desired es' current h nl (errorlist.Append errList err)
          end
      end
  end.

Fixpoint ApplyRoutes_unwanted (es : list (string * Route)) (nl : Netlink)
    (errList : errorlist.List) : Netlink * errorlist.List :=
  match es with
  | [] => (nl, errList)
  | (k, v) :: es' =>
      let '(nl, err) := netlinkutil.RouteDel (Some k) v nl in
      ApplyRoutes_unwanted es' nl (errorlist.Append errList err)
  end.

Definition ApplyRoutes (o : RangeOrder) (current desired : loc)
    (h : heap Route) (nl : Netlink)
  : outcome (heap Route * Netlink * option errorlist.List) :=
  let errList := [] in
  match ApplyRoutes_desired (range o (h !!! desired)) current h nl errList with
  | Panicked h nl => Panicked h nl
  | Returned (h, nl, errList) =>
      let '(nl, errList) := ApplyRoutes_unwanted (range o (h !!! current)) nl errList in
      Returned (h, nl, errorlist.AsError errList)
  end.

Fixpoint ApplyFDBs_desired (es : list (string * Neigh)) (current : loc)
    (h : heap Neigh) (nl : Netlink) (errList : errorlist.List)
  : heap Neigh * Netlink * errorlist.List :=
  match es with
  | [] => (h, nl, errList)
  | (k, v) :: es' =>
      match (h !!! current) !! k with
      | None =>
          let '(nl, err) := netlinkutil.NeighAppend (Some k) v nl in
          ApplyFDBs_desired es' current h nl (errorlist.Append errList err)
      | Some _ =>
          ApplyFDBs_desired es' current
            (<[current := delete k (h !!! current)]> h) nl errList
      end
  end.

Fixpoint ApplyFDBs_unwanted (es : list (string * Neigh)) (nl : Netlink)
    (errList : errorlist.List) : Netlink * errorlist.List :=
  match es with
  | [] => (nl, errList)
  | (k, v) :: es' =>
      let '(nl, err) := netlinkutil.NeighDel (Some k) v nl in
      ApplyFDBs_unwanted es' nl (errorlist.Append errList err)
  end.

Definition ApplyFDBs (o : RangeOrder) (current desired : loc)
    (h : heap Neigh) (nl : Netlink)
  : heap Neigh * Netlink * option errorlist.List :=
  let errList := [] in
  let '(h, nl, errList) :=
    ApplyFDBs_desired (range o (h !!! desired)) current h nl errList in
  let '(nl, errList) := ApplyFDBs_unwanted (range o (h !!! current)) nl errList in
  (h, nl, errorlist.AsError errList).

(** The deleting loop of [CleanRoutesOnNode]. *)
Fixpoint CleanRoutes_loop (es : list (string * Route)) (nl : Netlink)
    (errList : errorlist.List) : Netlink * errorlist.List :=
  match es with
  | [] => (nl, errList)
  | (k, v) :: es' =>
      let '(nl, err) := netlinkutil.RouteDel (Some k) v nl in
      let errList :=
        match err with
        | Some e => errorlist.Append errList (Some (Errorf "error deleting routes" e))
        | None => errList
        end in
      CleanRoutes_loop es' nl errList
  end.

(** A failed listing leaves [routes] nil, and a loop over a nil map has
    no iteration. *)
Definition CleanRoutesOnNode (o : RangeOrder) (routeTableID : Z) (nl : Netlink)
  : Netlink * option errorlist.List :=
  let errList := [] in
  let '(nl, routes, err) := ListRoutesOnNode routeTableID nl in
  let errList :=
    match err with
    | Some e => errorlist.Append errList (Some (Errorf "error listing routes" e))
    | None => errList
    end in
  let '(nl, errList) := CleanRoutes_loop (range o (default ∅ routes)) nl errList in
  (nl, errorlist.AsError errList).

Fixpoint CleanRules_loop (es : list (string * Rule)) (nl : Netlink)
    (errList : errorlist.List) : Netlink * errorlist.List :=
  match es with
  | [] => (nl, errList)
  | (k, v) :: es' =>
      let '(nl, err) := netlinkutil.RuleDel (Some k) v nl in
      let errList :=
        match err with
        | Some e => errorlist.Append errList (Some (Errorf "error deleting rules" e))
        | None => errList
        end in
      CleanRules_loop es' nl errList
  end.

Definition CleanRulesOnNode (o : RangeOrder) (routeTableID : Z) (nl : Netlink)
  : Netlink * option errorlist.List :=
  let errList := [] in
  let '(nl, rules, err) := ListRulesOnNode routeTableID nl in
  let errList :=
    match err with
    | Some e => errorlist.Append errList (Some (Errorf "error listing rules" e))
    | None => errList
    end in
  let '(nl, errList) := CleanRules_loop (range o (default ∅ rules)) nl errList in
  (nl, errorlist.AsError errList).

(** * Properties *)

(** ** The text forms of addresses and prefixes, on examples *)

Example IP_String_v4 : IP_String [x0a; x01; x00; x02] = "10.1.0.2".
Proof. vm_compute. reflexivity. Qed.
Example IP_String_v4in6 :
  IP_String (v4InV6Prefix ++ [xc0; xa8; x00; x01])%list = "192.168.0.1".
Proof. vm_compute. reflexivity. Qed.
Example IP_String_v6 :
  IP_String [x20; x01; x0d; xb8; x00; x00; x00; x00; x00; x00; x00; x00; x00; x00; x00; x01]
  = "2001:db8::1".
Proof. vm_compute. reflexivity. Qed.
Example IP_String_v6_any : IP_String (replicate 16 x00) = "::".
Proof. vm_compute. reflexivity. Qed.
Example IP_String_v6_mid :
  IP_String [xfe; x80; x00; x00; x00; x00; x00; x00; x00; x01; x00; x00; x00; x00; xab; xcd]
  = "fe80::1:0:0:abcd".
Proof. vm_compute. reflexivity. Qed.
Example IP_Equal_v4_v6 :
  IP_Equal [x0a; x00; x00; x01] (v4InV6Prefix ++ [x0a; x00; x00; x01])%list = true
  ∧ IP_Equal [x0a; x00; x00; x01] [x0a; x00; x00; x02] = false
  ∧ IP_Equal [] [] = true.
Proof. vm_compute. repeat split; reflexivity. Qed.
Example IPNet_String_cidr :
  IPNet_String (Some (mkIPNet [x0a; x01; x00; x00] [xff; xff; x00; x00])) = "10.1.0.0/16".
Proof. vm_compute. reflexivity. Qed.
Example IPNet_String_odd :
  IPNet_String (Some (mkIPNet [x0a; x01; x00; x00] [xff; x00; xff; x00])) = "10.1.0.0/ff00ff00".
Proof. vm_compute. reflexivity. Qed.
Example HardwareAddr_String_ex :
  HardwareAddr_String [x00; x1a; x2b; x3c; x4d; x5e] = "00:1a:2b:3c:4d:5e".
Proof. vm_compute. reflexivity. Qed.

(** ** Sweeps: a sequence of requests sent one after the other *)

(** What a call sent: the log entries added between [nl] and [nl']. *)
Definition issued (nl nl' : Netlink) : list Event :=
  drop (length (nl_log nl)) (nl_log nl').

(** The requests of a list of events with the keys they were sent for,
    and the errors that came back. *)
Definition sent (evs : list Event) : list (option string * Request) :=
  (λ e, (ev_key e, ev_req e)) <$> evs.
Definition failures (evs : list Event) : list error := omap ev_err evs.

(** The kernel objects after the accepted ones among [evs]. *)
Definition settle (evs : list Event) (nl : Netlink) : Netlink :=
  foldl (λ nl e, match ev_err e with
                 | None => netlinkutil.accepted (ev_req e) nl
                 | Some _ => nl
                 end) nl evs.

(** Sending the requests [cs] in order, whatever comes back, collecting
    the errors. *)
Fixpoint run (cs : list (string * Request)) (nl : Netlink)
    (errList : errorlist.List) : Netlink * errorlist.List :=
  match cs with
  | [] => (nl, errList)
  | (k, c) :: cs' =>
      let '(nl', err) := netlinkutil.send (Some k) c nl in
      run cs' nl' (errorlist.Append errList err)
  end.

Definition keyed (cs : list (string * Request)) : list (option string * Request) :=
  (λ kc, (Some kc.1, kc.2)) <$> cs.

Lemma issued_app nl nl' evs :
  nl_log nl' = (nl_log nl ++ evs)%list → issued nl nl' = evs.
Proof. intros E. unfold issued. rewrite E. by rewrite drop_app_length. Qed.

Lemma accepted_log c nl : nl_log (netlinkutil.accepted c nl) = nl_log nl.
Proof. by destruct c. Qed.

Lemma accepted_fault c nl : nl_fault (netlinkutil.accepted c nl) = nl_fault nl.
Proof. by destruct c. Qed.

Lemma send_log key c nl :
  nl_log (netlinkutil.send key c nl).1
  = (nl_log nl ++ [mkEvent key c (netlinkutil.send key c nl).2])%list.
Proof. done. Qed.

Lemma send_fault key c nl : nl_fault (netlinkutil.send key c nl).1 = nl_fault nl.
Proof.
  unfold netlinkutil.send; simpl.
  destruct (nl_fault nl (nl_log nl) c); [done | apply accepted_fault].
Qed.

Lemma settle_app evs1 evs2 nl :
  settle (evs1 ++ evs2) nl = settle evs2 (settle evs1 nl).
Proof. apply foldl_app. Qed.

(** The kernel objects of two states agree. *)
Definition same_objects (a b : Netlink) : Prop :=
  nl_rules a = nl_rules b ∧ nl_routes a = nl_routes b ∧ nl_neighs a = nl_neighs b.

Lemma same_objects_trans a b c :
  same_objects a b → same_objects b c → same_objects a c.
Proof. intros (?&?&?) (?&?&?). repeat split; congruence. Qed.

Lemma accepted_same_objects c a b :
  same_objects a b → same_objects (netlinkutil.accepted c a) (netlinkutil.accepted c b).
Proof. intros (?&?&?). destruct c; repeat split; simpl; congruence. Qed.

Lemma settle_same_objects evs a b :
  same_objects a b → same_objects (settle evs a) (settle evs b).
Proof.
  revert a b. induction evs as [|e evs IH]; intros a b H; [done|].
  simpl. apply IH. destruct (ev_err e); [done | by apply accepted_same_objects].
Qed.

Lemma send_same_objects key c nl :
  same_objects (netlinkutil.send key c nl).1
    (settle [mkEvent key c (netlinkutil.send key c nl).2] nl).
Proof.
  unfold netlinkutil.send; simpl.
  by destruct (nl_fault nl (nl_log nl) c).
Qed.

(** A sweep logs one event per request, in order, with the key it was
    sent for; it returns the errors of the rejected ones, in order; the
    kernel holds the effect of the accepted ones. *)
Lemma run_spec cs nl errList :
  ∃ evs,
    nl_log (run cs nl errList).1 = (nl_log nl ++ evs)%list
    ∧ sent evs = keyed cs
    ∧ (run cs nl errList).2 = (errList ++ failures evs)%list
    ∧ nl_fault (run cs nl errList).1 = nl_fault nl
    ∧ same_objects (run cs nl errList).1 (settle evs nl).
Proof.
  revert nl errList. induction cs as [|[k c] cs IH]; intros nl errList.
  - exists []. simpl. by rewrite !app_nil_r.
  - cbn [run]. destruct (netlinkutil.send (Some k) c nl) as [nl1 err] eqn:E.
    destruct (IH nl1 (errorlist.Append errList err)) as (evs & Hlog & Hsent & Herr & Hf & Hobj).
    assert (nl1 = (netlinkutil.send (Some k) c nl).1) as Hnl1 by by rewrite E.
    assert (err = (netlinkutil.send (Some k) c nl).2) as Herr1 by by rewrite E.
    exists (mkEvent (Some k) c err :: evs).
    refine (conj _ (conj _ (conj _ (conj _ _)))).
    + rewrite Hlog, Hnl1, send_log, <- Herr1. by rewrite <- app_assoc.
    + simpl. by rewrite Hsent.
    + rewrite Herr. unfold failures. simpl.
      destruct err; simpl; [by rewrite <- app_assoc | done].
    + by rewrite Hf, Hnl1, send_fault.
    + eapply same_objects_trans; [exact Hobj|].
      change (mkEvent (Some k) c err :: evs) with ([mkEvent (Some k) c err] ++ evs)%list.
      rewrite settle_app. apply settle_same_objects.
      rewrite Hnl1, Herr1. apply send_same_objects.
Qed.

Lemma run_app cs1 cs2 nl errList :
  run (cs1 ++ cs2) nl errList
  = run cs2 (run cs1 nl errList).1 (run cs1 nl errList).2.
Proof.
  revert nl errList. induction cs1 as [|[k c] cs1 IH]; intros nl errList; [done|].
  cbn [run app]. destruct (netlinkutil.send (Some k) c nl) as [nl1 err]. apply IH.
Qed.

Lemma AsError_None el : errorlist.AsError el = None ↔ el = [].
Proof. by destruct el. Qed.


Lemma failures_nil evs : failures evs = [] ↔ Forall (λ e, ev_err e = None) evs.
Proof.
  unfold failures. induction evs as [|e evs IH]; simpl.
  - split; [constructor | done].
  - destruct (ev_err e) eqn:E; simpl.
    + split; [done | intros H; inversion H; congruence].
    + rewrite IH. split; [by constructor | by inversion 1].
Qed.

(** ** The shape of a converge call

    What the loop over [desired] sends depends only on the map [current]
    had when the call started, since the loop deletes from it the key it
    is visiting and no other. *)

(** The map object behind [current] after the keys [ks] were visited. *)
Fixpoint drop_matched {V} (ks : list string) (current : loc) (h : heap V) : heap V :=
  match ks with
  | [] => h
  | k :: ks' =>
      match (h !!! current) !! k with
      | None => drop_matched ks' current h
      | Some _ => drop_matched ks' current (<[current := delete k (h !!! current)]> h)
      end
  end.

Lemma drop_matched_current {V} ks current (h : heap V) :
  drop_matched ks current h !!! current
  = foldl (λ m k, delete k m) (h !!! current) ks.
Proof.
  revert h. induction ks as [|k ks IH]; intros h; [done|].
  simpl. destruct ((h !!! current) !! k) eqn:E.
  - by rewrite IH, lookup_total_insert_eq.
  - by rewrite IH, (delete_id _ _ E).
Qed.

Lemma drop_matched_other {V} ks current l (h : heap V) :
  l ≠ current → drop_matched ks current h !! l = h !! l.
Proof.
  intros Hne. revert h. induction ks as [|k ks IH]; intros h; [done|].
  simpl. destruct ((h !!! current) !! k).
  - by rewrite IH, lookup_insert_ne.
  - apply IH.
Qed.

Lemma lookup_foldl_delete {V} (m : gmap string V) ks j :
  foldl (λ m k, delete k m) m ks !! j = if decide (j ∈ ks) then None else m !! j.
Proof.
  revert m. induction ks as [|k ks IH]; intros m; cbn [foldl].
  - destruct (decide (j ∈ [])) as [H|_]; [by apply elem_of_nil in H | done].
  - rewrite IH.
    destruct (decide (j ∈ ks)) as [Hin|Hnin];
      destruct (decide (j ∈ k :: ks)) as [Hin'|Hnin']; try done.
    + exfalso. apply Hnin'. by right.
    + apply elem_of_cons in Hin' as [->|?]; [apply lookup_delete_eq | done].
    + apply lookup_delete_ne. intros ->. apply Hnin'. by left.
Qed.

Lemma elem_of_range_keys (o : RangeOrder) {V} (m : gmap string V) k :
  k ∈ (range o m).*1 ↔ is_Some (m !! k).
Proof.
  rewrite (range_perm o). rewrite list_elem_of_fmap. split.
  - intros ([k' v] & -> & Hin). apply elem_of_map_to_list in Hin. by exists v.
  - intros [v Hv]. exists (k, v). split; [done | by apply elem_of_map_to_list].
Qed.

Lemma elem_of_range (o : RangeOrder) {V} (m : gmap string V) k v :
  (k, v) ∈ range o m ↔ m !! k = Some v.
Proof. rewrite (range_perm o). apply elem_of_map_to_list. Qed.

Lemma NoDup_range_keys (o : RangeOrder) {V} (m : gmap string V) :
  NoDup (range o m).*1.
Proof. rewrite (range_perm o). apply NoDup_fst_map_to_list. Qed.

(** After the loop over [desired], [current] holds its entries whose key
    is not in [desired]. *)
Lemma foldl_delete_range (o : RangeOrder) {V} (C D : gmap string V) :
  foldl (λ m k, delete k m) C (range o D).*1 = C ∖ D.
Proof.
  apply map_eq. intros j. rewrite lookup_foldl_delete, lookup_difference.
  case_decide as Hin; rewrite elem_of_range_keys in Hin.
  - destruct Hin as [v ->]. done.
  - destruct (D !! j) eqn:E; [|done]. exfalso. apply Hin. by eexists.
Qed.

Section Converge.
Context {V : Type}.
(** What is sent for a desired entry with no current one, for a
    desired entry with a current one ([None]: the comparison panics),
    and for a current entry that is left over. *)
Variable add : V → Request.
Variable upd : V → V → option (list Request).
Variable del : V → Request.

(** The requests of the loop over [desired], up to the entry at which
    it panics, and whether it ran to its end. *)
Fixpoint plan_desired (C : gmap string V) (es : list (string * V))
  : list (string * Request) * bool :=
  match es with
  | [] => ([], true)
  | (k, v) :: es' =>
      match C !! k with
      | None => ((k, add v) :: (plan_desired C es').1, (plan_desired C es').2)
      | Some ro =>
          match upd ro v with
          | None => ([], false)
          | Some cs => ((pair k <$> cs) ++ (plan_desired C es').1, (plan_desired C es').2)
          end
      end
  end%list.

Definition plan_unwanted (es : list (string * V)) : list (string * Request) :=
  (λ kv, (kv.1, del kv.2)) <$> es.

Lemma plan_desired_delete C es k :
  k ∉ es.*1 → plan_desired (delete k C) es = plan_desired C es.
Proof.
  induction es as [|[k' v] es IH]; intros Hk; [done|].
  rewrite fmap_cons, not_elem_of_cons in Hk. destruct Hk as [Hne Hk]. simpl in Hne.
  simpl. rewrite lookup_delete_ne by done. by rewrite IH.
Qed.

(** The loop runs to its end exactly when no visited pair panics. *)
Lemma plan_desired_complete C es :
  (plan_desired C es).2 = true
  ↔ ∀ k v ro, (k, v) ∈ es → C !! k = Some ro → is_Some (upd ro v).
Proof.
  induction es as [|[k v] es IH]; simpl.
  - split; [intros _ ? ? ? H; by apply elem_of_nil in H | done].
  - destruct (C !! k) as [ro|] eqn:E.
    + destruct (upd ro v) as [cs|] eqn:U; simpl.
      * rewrite IH. split.
        -- intros H k' v' ro' Hin Hl. apply elem_of_cons in Hin as [[= -> ->]|Hin].
           ++ rewrite E in Hl. injection Hl as <-. by rewrite U.
           ++ by eapply H.
        -- intros H k' v' ro' Hin. apply H. by apply list_elem_of_further.
      * split; [done|]. intros H.
        destruct (H k v ro) as [x Hx]; [apply list_elem_of_here | done | congruence].
    + simpl. rewrite IH. split.
      * intros H k' v' ro' Hin Hl. apply elem_of_cons in Hin as [[= -> ->]|Hin].
        -- congruence.
        -- by eapply H.
      * intros H k' v' ro' Hin. apply H. by apply list_elem_of_further.
Qed.

(** When the loop runs to its end, a request is sent for key [k]
    exactly as the entry of [k] asks. *)
Lemma elem_of_plan_desired C es k c :
  (plan_desired C es).2 = true →
  (k, c) ∈ (plan_desired C es).1
  ↔ ∃ v, (k, v) ∈ es
         ∧ match C !! k with
           | None => c = add v
           | Some ro => ∃ cs, upd ro v = Some cs ∧ c ∈ cs
           end.
Proof.
  induction es as [|[k' v'] es IH]; simpl.
  - intros _. split; [by intros ?%elem_of_nil | by intros (? & ?%elem_of_nil & _)].
  - destruct (C !! k') as [ro|] eqn:E.
    + destruct (upd ro v') as [cs|] eqn:U; simpl; [|done].
      intros Hok. rewrite elem_of_app, (IH Hok), list_elem_of_fmap. split.
      * intros [(c' & [= -> ->] & Hc)|(v & Hin & Hv)].
        -- exists v'. split; [apply list_elem_of_here|]. rewrite E. eauto.
        -- exists v. split; [by apply list_elem_of_further | done].
      * intros (v & Hin & Hv). apply elem_of_cons in Hin as [[= -> ->]|Hin].
        -- left. rewrite E in Hv. destruct Hv as (cs' & Hcs & Hc).
           exists c. split; [done | congruence].
        -- right. eauto.
    + simpl. intros Hok. rewrite elem_of_cons, (IH Hok). split.
      * intros [[= -> ->]|(v & Hin & Hv)].
        -- exists v'. split; [apply list_elem_of_here | by rewrite E].
        -- exists v. split; [by apply list_elem_of_further | done].
      * intros (v & Hin & Hv). apply elem_of_cons in Hin as [[= -> ->]|Hin].
        -- left. rewrite E in Hv. by subst.
        -- right. eauto.
Qed.

Lemma elem_of_plan_unwanted es k c :
  (k, c) ∈ plan_unwanted es ↔ ∃ v, (k, v) ∈ es ∧ c = del v.
Proof.
  unfold plan_unwanted. rewrite list_elem_of_fmap. split.
  - intros ([k' v] & [= -> ->] & Hin). eauto.
  - intros (v & Hin & ->). by exists (k, v).
Qed.
End Converge.

(** ** The three converge operations as sweeps *)

Definition rule_upd (ro v : Rule) : option (list Request) := Some [].
Definition route_upd (ro v : Route) : option (list Request) :=
  match routeEqual ro v with
  | None => None
  | Some true => Some []
  | Some false => Some [ReqRouteReplace v]
  end.
Definition neigh_upd (ro v : Neigh) : option (list Request) := Some [].

(** The requests of a whole call, in the order they are sent. *)
Definition rules_plan (o : RangeOrder) (C D : gmap string Rule) : list (string * Request) :=
  ((plan_desired ReqRuleAdd rule_upd C (range o D)).1
   ++ plan_unwanted ReqRuleDel (range o (C ∖ D)))%list.
Definition routes_plan (o : RangeOrder) (C D : gmap string Route) : list (string * Request) :=
  ((plan_desired ReqRouteAdd route_upd C (range o D)).1
   ++ plan_unwanted ReqRouteDel (range o (C ∖ D)))%list.
Definition fdbs_plan (o : RangeOrder) (C D : gmap string Neigh) : list (string * Request) :=
  ((plan_desired ReqNeighAppend neigh_upd C (range o D)).1
   ++ plan_unwanted ReqNeighDel (range o (C ∖ D)))%list.

Lemma ApplyRules_desired_run es current h nl errList :
  NoDup es.*1 →
  ApplyRules_desired es current h nl errList
  = (drop_matched es.*1 current h,
     (run (plan_desired ReqRuleAdd rule_upd (h !!! current) es).1 nl errList).1,
     (run (plan_desired ReqRuleAdd rule_upd (h !!! current) es).1 nl errList).2).
Proof.
  revert h nl errList. induction es as [|[k v] es IH]; intros h nl errList Hnd; [done|].
  rewrite fmap_cons, NoDup_cons in Hnd. destruct Hnd as [Hk Hnd]. simpl in Hk.
  cbn [ApplyRules_desired plan_desired fmap list_fmap drop_matched fst].
  destruct ((h !!! current) !! k) eqn:E.
  - rewrite (IH _ _ _ Hnd), lookup_total_insert_eq, plan_desired_delete by done. done.
  - unfold netlinkutil.RuleAdd. cbn [fst snd run].
    destruct (netlinkutil.send (Some k) (ReqRuleAdd v) nl) as [nl1 err].
    by rewrite (IH _ _ _ Hnd).
Qed.

Lemma ApplyRules_unwanted_run es nl errList :
  ApplyRules_unwanted es nl errList = run (plan_unwanted ReqRuleDel es) nl errList.
Proof.
  revert nl errList. induction es as [|[k v] es IH]; intros nl errList; [done|].
  cbn [ApplyRules_unwanted plan_unwanted fmap list_fmap run fst snd]. unfold netlinkutil.RuleDel.
  destruct (netlinkutil.send (Some k) (ReqRuleDel v) nl) as [nl1 err]. apply IH.
Qed.

Lemma ApplyFDBs_desired_run es current h nl errList :
  NoDup es.*1 →
  ApplyFDBs_desired es current h nl errList
  = (drop_matched es.*1 current h,
     (run (plan_desired ReqNeighAppend neigh_upd (h !!! current) es).1 nl errList).1,
     (run (plan_desired ReqNeighAppend neigh_upd (h !!! current) es).1 nl errList).2).
Proof.
  revert h nl errList. induction es as [|[k v] es IH]; intros h nl errList Hnd; [done|].
  rewrite fmap_cons, NoDup_cons in Hnd. destruct Hnd as [Hk Hnd]. simpl in Hk.
  cbn [ApplyFDBs_desired plan_desired fmap list_fmap drop_matched fst].
  destruct ((h !!! current) !! k) eqn:E.
  - rewrite (IH _ _ _ Hnd), lookup_total_insert_eq, plan_desired_delete by done. done.
  - unfold netlinkutil.NeighAppend. cbn [fst snd run].
    destruct (netlinkutil.send (Some k) (ReqNeighAppend v) nl) as [nl1 err].
    by rewrite (IH _ _ _ Hnd).
Qed.

Lemma ApplyFDBs_unwanted_run es nl errList :
  ApplyFDBs_unwanted es nl errList = run (plan_unwanted ReqNeighDel es) nl errList.
Proof.
  revert nl errList. induction es as [|[k v] es IH]; intros nl errList; [done|].
  cbn [ApplyFDBs_unwanted plan_unwanted fmap list_fmap run fst snd]. unfold netlinkutil.NeighDel.
  destruct (netlinkutil.send (Some k) (ReqNeighDel v) nl) as [nl1 err]. apply IH.
Qed.

Lemma ApplyRoutes_desired_run es current h nl errList :
  NoDup es.*1 →
  let p := plan_desired ReqRouteAdd route_upd (h !!! current) es in
  if p.2
  then ApplyRoutes_desired es current h nl errList
       = Returned (drop_matched es.*1 current h,
                   (run p.1 nl errList).1, (run p.1 nl errList).2)
  else ∃ h', ApplyRoutes_desired es current h nl errList
             = Panicked h' (run p.1 nl errList).1.
Proof.
  revert h nl errList. induction es as [|[k v] es IH]; intros h nl errList Hnd; [done|].
  rewrite fmap_cons, NoDup_cons in Hnd. destruct Hnd as [Hk Hnd]. simpl in Hk.
  cbn [ApplyRoutes_desired plan_desired fmap list_fmap drop_matched fst].
  destruct ((h !!! current) !! k) as [ro|] eqn:E.
  - assert (route_upd ro v = match routeEqual ro v with
                            | None => None
                            | Some true => Some []
                            | Some false => Some [ReqRouteReplace v]
                            end) as U by done.
    destruct (routeEqual ro v) as [[|]|] eqn:R; rewrite U;
      cbn [fst snd fmap list_fmap app].
    + specialize (IH (<[current:=delete k (h !!! current)]> h) nl errList Hnd).
      cbn zeta in IH. rewrite lookup_total_insert_eq, plan_desired_delete in IH by done.
      exact IH.
    + unfold netlinkutil.RouteReplace. cbn [run].
      destruct (netlinkutil.send (Some k) (ReqRouteReplace v) nl) as [nl1 err].
      specialize (IH (<[current:=delete k (h !!! current)]> h) nl1
                    (errorlist.Append errList err) Hnd).
      cbn zeta in IH. rewrite lookup_total_insert_eq, plan_desired_delete in IH by done.
      exact IH.
    + cbn [run fst]. eauto.
  - unfold netlinkutil.RouteAdd. cbn [fst snd run].
    destruct (netlinkutil.send (Some k) (ReqRouteAdd v) nl) as [nl1 err].
    apply (IH h nl1 (errorlist.Append errList err) Hnd).
Qed.

Lemma ApplyRoutes_unwanted_run es nl errList :
  ApplyRoutes_unwanted es nl errList = run (plan_unwanted ReqRouteDel es) nl errList.
Proof.
  revert nl errList. induction es as [|[k v] es IH]; intros nl errList; [done|].
  cbn [ApplyRoutes_unwanted plan_unwanted fmap list_fmap run fst snd]. unfold netlinkutil.RouteDel.
  destruct (netlinkutil.send (Some k) (ReqRouteDel v) nl) as [nl1 err]. apply IH.
Qed.

(** [nl'] is [nl] after the requests [cs] were sent, [evs] being what
    the log gained. *)
Definition swept (cs : list (string * Request)) (nl nl' : Netlink) (evs : list Event) : Prop :=
  nl_log nl' = (nl_log nl ++ evs)%list
  ∧ sent evs = keyed cs
  ∧ nl_fault nl' = nl_fault nl
  ∧ same_objects nl' (settle evs nl).

Lemma run_swept cs nl :
  ∃ evs, swept cs nl (run cs nl []).1 evs ∧ (run cs nl []).2 = failures evs.
Proof.
  destruct (run_spec cs nl []) as (evs & Hl & Hs & He & Hf & Ho).
  exists evs. split; [exact (conj Hl (conj Hs (conj Hf Ho))) | exact He].
Qed.

Lemma swept_issued cs nl nl' evs : swept cs nl nl' evs → issued nl nl' = evs.
Proof. intros [H _]. by apply issued_app. Qed.

Lemma ApplyRules_sweep o current desired h nl :
  ∃ h' nl' evs,
    ApplyRules o current desired h nl = (h', nl', errorlist.AsError (failures evs))
    ∧ h' !!! current = (h !!! current) ∖ (h !!! desired)
    ∧ (∀ l, l ≠ current → h' !! l = h !! l)
    ∧ swept (rules_plan o (h !!! current) (h !!! desired)) nl nl' evs.
Proof.
  unfold ApplyRules.
  rewrite ApplyRules_desired_run by apply NoDup_range_keys.
  rewrite ApplyRules_unwanted_run, drop_matched_current, foldl_delete_range.
  set (cs1 := (plan_desired ReqRuleAdd rule_upd (h !!! current) (range o (h !!! desired))).1).
  set (cs2 := plan_unwanted ReqRuleDel (range o ((h !!! current) ∖ (h !!! desired)))).
  pose proof (run_app cs1 cs2 nl []) as Happ.
  destruct (run_swept (cs1 ++ cs2) nl) as (evs & Hsw & Herr).
  destruct (run cs2 (run cs1 nl []).1 (run cs1 nl []).2) as [nl2 el2] eqn:E2.
  rewrite Happ in Hsw, Herr. simpl in Hsw, Herr. subst el2.
  exists (drop_matched (range o (h !!! desired)).*1 current h), nl2, evs.
  split; [done|]. split; [by rewrite drop_matched_current, foldl_delete_range|].
  split; [intros l Hl; by apply drop_matched_other | exact Hsw].
Qed.

Lemma ApplyFDBs_sweep o current desired h nl :
  ∃ h' nl' evs,
    ApplyFDBs o current desired h nl = (h', nl', errorlist.AsError (failures evs))
    ∧ h' !!! current = (h !!! current) ∖ (h !!! desired)
    ∧ (∀ l, l ≠ current → h' !! l = h !! l)
    ∧ swept (fdbs_plan o (h !!! current) (h !!! desired)) nl nl' evs.
Proof.
  unfold ApplyFDBs.
  rewrite ApplyFDBs_desired_run by apply NoDup_range_keys.
  rewrite ApplyFDBs_unwanted_run, drop_matched_current, foldl_delete_range.
  set (cs1 := (plan_desired ReqNeighAppend neigh_upd (h !!! current)
                 (range o (h !!! desired))).1).
  set (cs2 := plan_unwanted ReqNeighDel (range o ((h !!! current) ∖ (h !!! desired)))).
  pose proof (run_app cs1 cs2 nl []) as Happ.
  destruct (run_swept (cs1 ++ cs2) nl) as (evs & Hsw & Herr).
  destruct (run cs2 (run cs1 nl []).1 (run cs1 nl []).2) as [nl2 el2] eqn:E2.
  rewrite Happ in Hsw, Herr. simpl in Hsw, Herr. subst el2.
  exists (drop_matched (range o (h !!! desired)).*1 current h), nl2, evs.
  split; [done|]. split; [by rewrite drop_matched_current, foldl_delete_range|].
  split; [intros l Hl; by apply drop_matched_other | exact Hsw].
Qed.

(** Whether a call of [ApplyRoutes] on these maps runs to its end. *)
Definition routes_complete (o : RangeOrder) (C D : gmap string Route) : bool :=
  (plan_desired ReqRouteAdd route_upd C (range o D)).2.

Lemma ApplyRoutes_sweep o current desired h nl :
  if routes_complete o (h !!! current) (h !!! desired)
  then ∃ h' nl' evs,
      ApplyRoutes o current desired h nl
      = Returned (h', nl', errorlist.AsError (failures evs))
      ∧ h' !!! current = (h !!! current) ∖ (h !!! desired)
      ∧ (∀ l, l ≠ current → h' !! l = h !! l)
      ∧ swept (routes_plan o (h !!! current) (h !!! desired)) nl nl' evs
  else ∃ h' nl' evs,
      ApplyRoutes o current desired h nl = Panicked h' nl'
      ∧ swept (plan_desired ReqRouteAdd route_upd (h !!! current)
                 (range o (h !!! desired))).1 nl nl' evs.
Proof.
  unfold ApplyRoutes, routes_complete.
  pose proof (ApplyRoutes_desired_run (range o (h !!! desired)) current h nl []
                (NoDup_range_keys o _)) as Hrun.
  cbn zeta in Hrun.
  set (cs1 := (plan_desired ReqRouteAdd route_upd (h !!! current)
                 (range o (h !!! desired))).1) in *.
  destruct ((plan_desired ReqRouteAdd route_upd (h !!! current)
               (range o (h !!! desired))).2).
  - rewrite Hrun.
    rewrite ApplyRoutes_unwanted_run, drop_matched_current, foldl_delete_range.
    set (cs2 := plan_unwanted ReqRouteDel (range o ((h !!! current) ∖ (h !!! desired)))).
    pose proof (run_app cs1 cs2 nl []) as Happ.
    destruct (run_swept (cs1 ++ cs2) nl) as (evs & Hsw & Herr).
    destruct (run cs2 (run cs1 nl []).1 (run cs1 nl []).2) as [nl2 el2] eqn:E2.
    rewrite Happ in Hsw, Herr. simpl in Hsw, Herr. subst el2.
    exists (drop_matched (range o (h !!! desired)).*1 current h), nl2, evs.
    split; [done|]. split; [by rewrite drop_matched_current, foldl_delete_range|].
    split; [intros l Hl; by apply drop_matched_other | exact Hsw].
  - destruct Hrun as [h' Hrun]. rewrite Hrun.
    destruct (run_swept cs1 nl) as (evs & Hsw & _).
    by exists h', (run cs1 nl []).1, evs.
Qed.

(** ** Key functions *)

(** A well-formed IPv4 prefix is rendered as dotted decimal, a slash and
    the prefix length. *)
Lemma IPNet_String_v4 a b c d m l :
  length m = 4%nat → simpleMaskLength m = Some l →
  IPNet_String (Some (mkIPNet [a; b; c; d] m))
  = string4 [a; b; c; d] ++ "/" ++ pretty l.
Proof.
  intros Hm Hl. unfold IPNet_String, networkNumberAndMask. cbn [IPNet_IP IPNet_Mask].
  change (To4 [a; b; c; d]) with (Some [a; b; c; d]). cbv beta iota.
  destruct (decide (length m = IPv4len)) as [_|Hn]; [|by destruct Hn].
  destruct (decide (length [a; b; c; d] = IPv4len)) as [_|Hn]; [|by destruct Hn].
  rewrite Hl. reflexivity.
Qed.

(** C7. [RuleKey] is the source prefix rendered by [IPNet.String], or the
    literal "0.0.0.0/0" when the rule has no source prefix; priority,
    table and family play no part in it, so two rules with the same
    source prefix have the same key; and for an IPv4 prefix of any
    length from 0 to 32 the rendering is the CIDR text "a.b.c.d/len". *)
Theorem RuleKey_source_prefix :
  (∀ rule,
     RuleKey rule = match Rule_Src rule with
                    | Some src => IPNet_String (Some src)
                    | None => "0.0.0.0/0"
                    end)
  ∧ (∀ src priority1 table1 family1 priority2 table2 family2,
       RuleKey (mkRule priority1 table1 family1 src)
       = RuleKey (mkRule priority2 table2 family2 src))
  ∧ (∀ a b c d priority table family,
       Forall (λ ones,
                 RuleKey (mkRule priority table family
                            (Some (mkIPNet [a; b; c; d] (CIDRMask ones 32))))
                 = string4 [a; b; c; d] ++ "/" ++ pretty ones)
              (seq 0 33)).
Proof.
  split; [by intros [? ? ? [src|]]|]. split; [done|].
  intros a b c d priority table family.
  repeat (apply Forall_cons; split;
          [apply IPNet_String_v4; vm_compute; reflexivity|]).
  apply Forall_nil. done.
Qed.

Example RuleKey_scenario :
  RuleKey (mkRule 100 101 FAMILY_V4
             (Some (mkIPNet [x0a; x01; x00; x00] (CIDRMask 16 32))))
  = "10.1.0.0/16".
Proof. vm_compute. reflexivity. Qed.

Example RuleKey_same_prefix :
  RuleKey (mkRule 100 101 FAMILY_V4 (Some (mkIPNet [x0a; x01; x00; x00] (CIDRMask 16 32))))
  = RuleKey (mkRule 200 5 FAMILY_V4 (Some (mkIPNet [x0a; x01; x00; x00] (CIDRMask 16 32)))).
Proof. reflexivity. Qed.

(** A text without the character that [RouteKey] puts between the
    destination and the table. *)
Fixpoint dashless (s : string) : bool :=
  match s with
  | EmptyString => true
  | String c s' => negb (Ascii.eqb c "-") && dashless s'
  end.

Lemma append_cons c (s1 s2 : string) : String c s1 ++ s2 = String c (s1 ++ s2).
Proof. reflexivity. Qed.

Lemma dashless_app s1 s2 : dashless (s1 ++ s2) = dashless s1 && dashless s2.
Proof.
  induction s1 as [|c s1 IH]; [done|].
  rewrite append_cons. cbn [dashless]. by rewrite IH, andb_assoc.
Qed.

Lemma dashless_split s1 s2 a b :
  dashless s1 = true → dashless s2 = true →
  s1 ++ "-" ++ a = s2 ++ "-" ++ b → s1 = s2 ∧ a = b.
Proof.
  revert s2. induction s1 as [|c s1 IH]; intros [|c2 s2];
    rewrite ?append_cons; cbn [dashless].
  - intros _ _ Heq. change (String "-" a = String "-" b) in Heq. by injection Heq.
  - intros _ H Heq. change (String "-" a = String c2 (s2 ++ "-" ++ b)) in Heq.
    injection Heq as <- _. done.
  - intros H _ Heq. change (String c (s1 ++ "-" ++ a) = String "-" b) in Heq.
    injection Heq as -> _. done.
  - intros [_ H1]%andb_prop [_ H2]%andb_prop [= -> Heq].
    by destruct (IH s2 H1 H2 Heq) as [-> ->].
Qed.

Lemma hexDigit_dashless n : Ascii.eqb (hexDigit n) "-" = false.
Proof. unfold hexDigit. by repeat case_match. Qed.

Lemma pretty_N_char_dashless n : Ascii.eqb (pretty_N_char n) "-" = false.
Proof. unfold pretty_N_char. by repeat case_match. Qed.

Lemma pretty_N_go_dashless n s : dashless s = true → dashless (pretty_N_go n s) = true.
Proof.
  revert s. induction (N.lt_wf_0 n) as [n _ IH]. intros s Hs.
  destruct (decide (n = 0)%N) as [->|Hn]; [by rewrite pretty_N_go_0|].
  rewrite pretty_N_go_step by lia. apply IH.
  - apply N.div_lt; lia.
  - simpl. by rewrite pretty_N_char_dashless.
Qed.

Lemma pretty_N_dashless (n : N) : dashless (pretty n) = true.
Proof.
  unfold pretty, pretty_N. case_decide; [done|]. by apply pretty_N_go_dashless.
Qed.

Lemma hexString_dashless bs : dashless (hexString bs) = true.
Proof.
  induction bs as [|b bs IH]; [done|]. cbn [hexString]. rewrite dashless_app, IH.
  unfold hexByte. simpl. by rewrite !hexDigit_dashless.
Qed.

Lemma appendHex_dashless x : dashless (appendHex x) = true.
Proof. unfold appendHex. repeat case_decide; simpl; by rewrite !hexDigit_dashless. Qed.

Lemma string6_from_dashless fuel i fs zr : dashless (string6_from fuel i fs zr) = true.
Proof.
  revert i. induction fuel as [|fuel IH]; intros i; [done|]. cbn [string6_from].
  destruct (fs !! i) as [x|]; [|done].
  assert (dashless ((if decide (i = O) then "" else ":")
                    ++ appendHex x ++ string6_from fuel (S i) fs zr) = true) as Hplain.
  { rewrite !dashless_app, appendHex_dashless, IH. by case_decide. }
  destruct zr as [[s e]|]; [|done].
  destruct (decide (i = s)) as [_|_]; [|done]. rewrite dashless_app.
  destruct (fs !! e) as [y|]; [|done].
  by rewrite dashless_app, appendHex_dashless, IH.
Qed.

Lemma IP_String_dashless ip : dashless (IP_String ip) = true.
Proof.
  unfold IP_String. case_decide; [done|]. case_decide.
  { rewrite dashless_app. simpl. apply hexString_dashless. }
  destruct (To4 ip) as [p4|]; [|apply string6_from_dashless].
  unfold string4. destruct p4 as [|a [|b [|c [|d [|? ?]]]]]; try done.
  rewrite !dashless_app, !pretty_N_dashless. done.
Qed.

Lemma IPNet_String_dashless n : dashless (IPNet_String n) = true.
Proof.
  unfold IPNet_String. destruct n as [n|]; [|done].
  destruct (networkNumberAndMask n) as [[nn m]|]; [|done].
  destruct (simpleMaskLength m) as [l|].
  - rewrite !dashless_app, IP_String_dashless. simpl. apply pretty_N_dashless.
  - rewrite !dashless_app, IP_String_dashless. simpl.
    unfold IPMask_String. case_decide; [done | apply hexString_dashless].
Qed.

(** The text of a prefix has no dash, so that the key of a route can be
    read back: two routes have the same key exactly when their
    destinations have the same text and their tables are the same. *)
Lemma RouteKey_eq x y :
  RouteKey x = RouteKey y
  ↔ IPNet_String (Route_Dst x) = IPNet_String (Route_Dst y)
    ∧ Route_Table x = Route_Table y.
Proof.
  unfold RouteKey. split; [|by intros [-> ->]].
  intros [Hd Ht]%dashless_split; try apply IPNet_String_dashless.
  split; [done|]. by apply pretty_Z_inj.
Qed.

(** ** Events and the requests that caused them *)

Lemma sent_elem_of evs cs e :
  sent evs = keyed cs → e ∈ evs → ∃ k, ev_key e = Some k ∧ (k, ev_req e) ∈ cs.
Proof.
  intros Hs He.
  assert ((ev_key e, ev_req e) ∈ keyed cs) as Hin.
  { rewrite <- Hs. unfold sent. apply list_elem_of_fmap. by exists e. }
  unfold keyed in Hin. apply list_elem_of_fmap in Hin as ([k c] & [= Hk Hc] & Hin).
  simpl in *. exists k. by rewrite Hc.
Qed.

Lemma keyed_elem_of evs cs k c :
  sent evs = keyed cs → (k, c) ∈ cs → ∃ e, e ∈ evs ∧ ev_key e = Some k ∧ ev_req e = c.
Proof.
  intros Hs Hin.
  assert ((Some k, c) ∈ sent evs) as He.
  { rewrite Hs. unfold keyed. apply list_elem_of_fmap. by exists (k, c). }
  unfold sent in He. apply list_elem_of_fmap in He as (e & [= Hk Hc] & He).
  by exists e.
Qed.

(** The events sent for the key [k]. *)
Definition for_key (k : string) (evs : list Event) : list Event :=
  filter (λ e, ev_key e = Some k) evs.

Lemma sent_for_key evs cs k :
  sent evs = keyed cs →
  sent (for_key k evs) = keyed (filter (λ kc, kc.1 = k) cs).
Proof.
  revert cs. induction evs as [|e evs IH]; intros [|[k' c] cs] Hs; try done.
  injection Hs as Hk Hc Hs. unfold for_key.
  rewrite !filter_cons. simpl. rewrite Hk.
  destruct (decide (Some k' = Some k)) as [[= ->]|Hne].
  - rewrite decide_True by done. unfold sent, keyed. rewrite !fmap_cons. simpl.
    rewrite Hk, Hc. f_equal. by apply IH.
  - rewrite decide_False by congruence. by apply IH.
Qed.

(** Requests for a key that the loop over [desired] does not visit, or
    visits once. *)
Section PlanForKey.
Context {V : Type}.
Variable add : V → Request.
Variable upd : V → V → option (list Request).
Variable del : V → Request.

Lemma plan_desired_for_key_notin C es k :
  k ∉ es.*1 → filter (λ kc, kc.1 = k) (plan_desired add upd C es).1 = [].
Proof.
  induction es as [|[k' v] es IH]; intros Hk; [done|].
  rewrite fmap_cons, not_elem_of_cons in Hk. destruct Hk as [Hne Hk]. simpl in Hne.
  simpl. destruct (C !! k') as [ro|].
  - destruct (upd ro v) as [cs|]; [|done]. simpl.
    rewrite filter_app, (IH Hk), app_nil_r.
    induction cs as [|c cs IHcs]; [done|].
    rewrite fmap_cons, filter_cons_False; [done | simpl; congruence].
  - simpl. rewrite filter_cons_False by (simpl; congruence). by apply IH.
Qed.

Lemma filter_pair_key k (cs : list Request) :
  filter (λ kc : string * Request, kc.1 = k) (pair k <$> cs) = pair k <$> cs.
Proof.
  induction cs as [|c cs IH]; [done|].
  rewrite fmap_cons, filter_cons_True by done. by rewrite IH.
Qed.

Lemma plan_desired_for_key C es k v :
  NoDup es.*1 → (k, v) ∈ es → (plan_desired add upd C es).2 = true →
  filter (λ kc, kc.1 = k) (plan_desired add upd C es).1
  = match C !! k with
    | None => [(k, add v)]
    | Some ro => pair k <$> default [] (upd ro v)
    end.
Proof.
  induction es as [|[k' v'] es IH]; intros Hnd Hin Hok.
  { by apply elem_of_nil in Hin. }
  rewrite fmap_cons, NoDup_cons in Hnd. destruct Hnd as [Hk' Hnd]. simpl in Hk'.
  apply elem_of_cons in Hin as [[= -> ->]|Hin].
  - simpl in *. destruct (C !! k') as [ro|].
    + destruct (upd ro v') as [cs|]; [|done]. simpl in *.
      by rewrite filter_app, filter_pair_key, plan_desired_for_key_notin, app_nil_r.
    + simpl. rewrite filter_cons_True by done.
      by rewrite plan_desired_for_key_notin.
  - assert (k ≠ k') as Hne.
    { intros ->. apply Hk'. apply list_elem_of_fmap. by exists (k', v). }
    simpl in *. destruct (C !! k') as [ro|].
    + destruct (upd ro v') as [cs|]; [|done]. simpl in *.
      rewrite filter_app, (IH Hnd Hin Hok).
      assert (filter (λ kc : string * Request, kc.1 = k) (pair k' <$> cs) = []) as ->; [|done].
      clear -Hne. induction cs as [|c cs IHcs]; [done|].
      rewrite fmap_cons, filter_cons_False; [done | simpl; congruence].
    + simpl in *. rewrite filter_cons_False by (simpl; congruence). by apply IH.
Qed.

Lemma plan_unwanted_for_key_notin es k :
  k ∉ es.*1 → filter (λ kc, kc.1 = k) (plan_unwanted del es) = [].
Proof.
  induction es as [|[k' v] es IH]; intros Hk; [done|].
  rewrite fmap_cons, not_elem_of_cons in Hk. destruct Hk as [Hne Hk]. simpl in Hne.
  unfold plan_unwanted. rewrite fmap_cons, filter_cons_False by (simpl; congruence).
  by apply IH.
Qed.
End PlanForKey.

Lemma rules_plan_complete C es : (plan_desired ReqRuleAdd rule_upd C es).2 = true.
Proof. apply plan_desired_complete. intros. by eexists. Qed.

Lemma fdbs_plan_complete C es : (plan_desired ReqNeighAppend neigh_upd C es).2 = true.
Proof. apply plan_desired_complete. intros. by eexists. Qed.

Lemma fmap_sent_nil evs : sent evs = [] → evs = [].
Proof. by destruct evs. Qed.

(** ** Continue-on-error (C3) *)

(** C3. [ApplyRules] is a continue-on-error sweep: whatever requests the
    kernel rejects, the call sends an add for every desired rule whose
    key is not in current and a delete for every current rule whose key
    is not in desired, and it returns the errors of all rejected
    requests. *)
Theorem ApplyRules_continue_on_error o current desired h nl :
  let '(h', nl', err) := ApplyRules o current desired h nl in
  let evs := issued nl nl' in
  nl_log nl' = (nl_log nl ++ evs)%list
  ∧ (∀ k v, (h !!! desired) !! k = Some v → (h !!! current) !! k = None →
       ∃ e, e ∈ evs ∧ ev_key e = Some k ∧ ev_req e = ReqRuleAdd v)
  ∧ (∀ k v, (h !!! current) !! k = Some v → (h !!! desired) !! k = None →
       ∃ e, e ∈ evs ∧ ev_key e = Some k ∧ ev_req e = ReqRuleDel v)
  ∧ err = errorlist.AsError (failures evs).
Proof.
  destruct (ApplyRules_sweep o current desired h nl)
    as (h' & nl' & evs & -> & _ & _ & Hsw).
  rewrite (swept_issued _ _ _ _ Hsw). destruct Hsw as (Hlog & Hsent & _ & _).
  cbv zeta. split; [done|]. split; [|split; [|done]].
  - intros k v HD HC. apply (keyed_elem_of _ _ _ _ Hsent).
    unfold rules_plan. apply elem_of_app. left.
    apply elem_of_plan_desired; [apply rules_plan_complete|].
    exists v. split; [by apply elem_of_range | by rewrite HC].
  - intros k v HC HD. apply (keyed_elem_of _ _ _ _ Hsent).
    unfold rules_plan. apply elem_of_app. right.
    apply elem_of_plan_unwanted. exists v. split; [|done].
    apply elem_of_range. by apply lookup_difference_Some.
Qed.

(** A kernel that rejects every add: both adds are still sent, the
    delete after them too, and the two errors are returned. *)
Example ApplyRules_rejected_adds :
  let reject_adds := λ (_ : list Event) c,
        match c with ReqRuleAdd _ => Some "operation not permitted" | _ => None end in
  let a := mkRule 10 100 FAMILY_V4 (Some (mkIPNet [x0a; x01; x00; x00] (CIDRMask 16 32))) in
  let b := mkRule 10 100 FAMILY_V4 (Some (mkIPNet [x0a; x02; x00; x00] (CIDRMask 16 32))) in
  let c := mkRule 10 100 FAMILY_V4 (Some (mkIPNet [x0a; x03; x00; x00] (CIDRMask 16 32))) in
  let h : heap Rule :=
    {[ 1%positive := {[ RuleKey c := c ]};
       2%positive := {[ RuleKey a := a; RuleKey b := b ]} ]} in
  let '(_, nl', err) :=
    ApplyRules map_to_list_order 1%positive 2%positive h
      (mkNetlink [c] [] [] [] reject_adds) in
  length (nl_log nl') = 3%nat
  ∧ (ReqRuleAdd a) ∈ ev_req <$> nl_log nl'
  ∧ (ReqRuleAdd b) ∈ ev_req <$> nl_log nl'
  ∧ (ReqRuleDel c) ∈ ev_req <$> nl_log nl'
  ∧ nl_rules nl' = []
  ∧ err = Some ["operation not permitted"; "operation not permitted"].
Proof.
  vm_compute. split; [reflexivity|].
  split; [repeat first [apply list_elem_of_here | apply list_elem_of_further]|].
  split; [repeat first [apply list_elem_of_here | apply list_elem_of_further]|].
  split; [repeat first [apply list_elem_of_here | apply list_elem_of_further]|].
  split; reflexivity.
Qed.

(** ** No replacement of FDB entries (C8) *)

(** C8. [ApplyFDBs] sends nothing for a key that is in both current and
    desired, whatever the two entries hold (a different MAC address
    included): every request of the call is the append of a desired
    entry whose key is not in current, or the delete of a current entry
    whose key is not in desired. *)
Theorem ApplyFDBs_never_replaces o current desired h nl :
  let '(h', nl', err) := ApplyFDBs o current desired h nl in
  let evs := issued nl nl' in
  (∀ k, is_Some ((h !!! current) !! k) → is_Some ((h !!! desired) !! k) →
        for_key k evs = [])
  ∧ (∀ e, e ∈ evs →
       ∃ k v, ev_key e = Some k
              ∧ ((h !!! desired) !! k = Some v ∧ (h !!! current) !! k = None
                 ∧ ev_req e = ReqNeighAppend v
                 ∨ (h !!! current) !! k = Some v ∧ (h !!! desired) !! k = None
                   ∧ ev_req e = ReqNeighDel v)).
Proof.
  destruct (ApplyFDBs_sweep o current desired h nl)
    as (h' & nl' & evs & -> & _ & _ & Hsw).
  rewrite (swept_issued _ _ _ _ Hsw). destruct Hsw as (Hlog & Hsent & _ & _).
  cbv zeta. split.
  - intros k [ro HC] [v HD]. apply fmap_sent_nil.
    rewrite (sent_for_key _ _ k Hsent). unfold fdbs_plan.
    rewrite filter_app.
    rewrite (plan_desired_for_key _ _ _ _ k v);
      [|apply NoDup_range_keys | by apply elem_of_range | apply fdbs_plan_complete].
    rewrite HC. simpl.
    rewrite plan_unwanted_for_key_notin; [done|].
    rewrite elem_of_range_keys, lookup_difference, HD. by intros [? ?].
  - intros e He. destruct (sent_elem_of _ _ _ Hsent He) as (k & Hk & Hin).
    unfold fdbs_plan in Hin. apply elem_of_app in Hin as [Hin|Hin].
    + apply elem_of_plan_desired in Hin as (v & Hv & Hc); [|apply fdbs_plan_complete].
      apply elem_of_range in Hv. exists k, v. split; [done|].
      destruct ((h !!! current) !! k) as [ro|] eqn:HC.
      * destruct Hc as (cs & [= <-] & Hc). by apply elem_of_nil in Hc.
      * left. done.
    + apply elem_of_plan_unwanted in Hin as (v & Hv & Hc).
      apply elem_of_range, lookup_difference_Some in Hv as [HC HD].
      exists k, v. split; [done|]. right. done.
Qed.

(** ** The returned error (C4) *)



(** A call of [ApplyRoutes] runs to its end exactly when the two routes
    of every key in both maps have a destination. *)
Lemma routes_complete_iff o (C D : gmap string Route) :
  routes_complete o C D = true
  ↔ ∀ k ro v, C !! k = Some ro → D !! k = Some v →
              is_Some (Route_Dst ro) ∧ is_Some (Route_Dst v).
Proof.
  unfold routes_complete. rewrite plan_desired_complete. split.
  - intros H k ro v HC HD.
    destruct (H k v ro) as [cs Hcs]; [by apply elem_of_range | done |].
    unfold route_upd, routeEqual in Hcs.
    destruct (Route_Dst ro), (Route_Dst v); by try (destruct Hcs; discriminate).
  - intros H k v ro Hin HC. apply elem_of_range in Hin.
    destruct (H k ro v HC Hin) as [[x Hx] [y Hy]].
    unfold route_upd, routeEqual. rewrite Hx, Hy.
    by destruct (_ && _); eexists.
Qed.


(** ** Replace exactly when the routes differ (C2) *)

(** Two routes with a destination differ for [routeEqual] when they
    differ on the destination IP, the gateway IP, the destination mask
    or the link index; the source IP and the table are not looked at.
    IP addresses are compared by [IP.Equal], for which an IPv4 address
    and its 16-byte form are the same address; masks are compared byte
    by byte. *)
Definition routes_differ (x y : Route) (xDst yDst : IPNet) : Prop :=
  IP_Equal (IPNet_IP xDst) (IPNet_IP yDst) = false
  ∨ IP_Equal (Route_Gw x) (Route_Gw y) = false
  ∨ IPNet_Mask xDst ≠ IPNet_Mask yDst
  ∨ Route_LinkIndex x ≠ Route_LinkIndex y.

Lemma routeEqual_differ x y xDst yDst :
  Route_Dst x = Some xDst → Route_Dst y = Some yDst →
  routeEqual x y = Some false ∧ routes_differ x y xDst yDst
  ∨ routeEqual x y = Some true ∧ ¬ routes_differ x y xDst yDst.
Proof.
  intros Hx Hy. unfold routeEqual, routes_differ, bytes_Equal. rewrite Hx, Hy.
  destruct (IP_Equal (IPNet_IP xDst) (IPNet_IP yDst)) eqn:E1;
    [|left; split; [done | by left]].
  destruct (IP_Equal (Route_Gw x) (Route_Gw y)) eqn:E2;
    [|left; split; [done | by right; left]].
  destruct (decide (IPNet_Mask xDst = IPNet_Mask yDst)) as [E3|E3];
    [rewrite (bool_decide_eq_true_2 _ E3)
    |rewrite (bool_decide_eq_false_2 _ E3); left; split; [done | by right; right; left]].
  destruct (decide (Route_LinkIndex x = Route_LinkIndex y)) as [E4|E4];
    [rewrite (bool_decide_eq_true_2 _ E4)
    |rewrite (bool_decide_eq_false_2 _ E4); left; split; [done | by right; right; right]].
  right. split; [done|]. intros [?|[?|[?|?]]]; done.
Qed.

(** C2 as amended. When the routes of every key in both maps have a
    destination, [ApplyRoutes] returns, and for every key in both
    current and desired a replace is sent for the key if and only if the
    two routes differ on the destination IP, the gateway IP, the
    destination mask or the link index. When they differ, the replace of
    the desired route is the one request sent for the key: no add, no
    delete. When they do not, nothing is sent for the key, whatever the
    source IPs and tables are. *)
Theorem ApplyRoutes_replace_iff_differ o current desired h nl :
  (∀ k ro v, (h !!! current) !! k = Some ro → (h !!! desired) !! k = Some v →
             is_Some (Route_Dst ro) ∧ is_Some (Route_Dst v)) →
  ∃ h' nl' err,
    ApplyRoutes o current desired h nl = Returned (h', nl', err)
    ∧ ∀ k ro v, (h !!! current) !! k = Some ro → (h !!! desired) !! k = Some v →
      ∃ xDst yDst,
        Route_Dst ro = Some xDst ∧ Route_Dst v = Some yDst
        ∧ ((∃ e r, e ∈ issued nl nl' ∧ ev_key e = Some k
                   ∧ ev_req e = ReqRouteReplace r)
           ↔ routes_differ ro v xDst yDst)
        ∧ (routes_differ ro v xDst yDst →
           sent (for_key k (issued nl nl')) = [(Some k, ReqRouteReplace v)])
        ∧ (¬ routes_differ ro v xDst yDst → for_key k (issued nl nl') = []).
Proof.
  intros Hdst. pose proof (ApplyRoutes_sweep o current desired h nl) as Hsw.
  apply routes_complete_iff with (o := o) in Hdst as Hok. rewrite Hok in Hsw.
  destruct Hsw as (h' & nl' & evs & Heq & _ & _ & Hsw).
  exists h', nl', (errorlist.AsError (failures evs)). split; [done|].
  intros k ro v HC HD.
  rewrite (swept_issued _ _ _ _ Hsw). destruct Hsw as (_ & Hsent & _ & _).
  destruct (Hdst k ro v HC HD) as [[xDst Hx] [yDst Hy]].
  exists xDst, yDst. split; [done|]. split; [done|].
  assert (sent (for_key k evs) = keyed (pair k <$> default [] (route_upd ro v))) as Hk.
  { rewrite (sent_for_key _ _ k Hsent). unfold routes_plan. rewrite filter_app.
    rewrite (plan_desired_for_key _ _ _ _ k v);
      [|apply NoDup_range_keys | by apply elem_of_range | exact Hok].
    rewrite HC, plan_unwanted_for_key_notin, app_nil_r; [done|].
    rewrite elem_of_range_keys, lookup_difference, HD. by intros [? ?]. }
  unfold route_upd in Hk.
  destruct (routeEqual_differ ro v xDst yDst Hx Hy) as [[HE Hd]|[HE Hd]];
    rewrite HE in Hk; simpl in Hk.
  - split; [|split; [done|done]]. split; [done|]. intros _.
    destruct (for_key k evs) as [|e [|? ?]] eqn:Hf; try discriminate.
    injection Hk as Hk1 Hk2. exists e, v. split; [|done].
    assert (e ∈ for_key k evs) as Hin by (rewrite Hf; apply list_elem_of_here).
    unfold for_key in Hin. by apply list_elem_of_filter in Hin as [_ ?].
  - apply fmap_sent_nil in Hk. split; [|split; [done|done]]. split; [|done].
    intros (e & r & He & Hek & _).
    assert (e ∈ for_key k evs) as Hin by (by apply list_elem_of_filter).
    rewrite Hk in Hin. by apply elem_of_nil in Hin.
Qed.

(** ** The maps after a converge call (C10) *)

(** What a call leaves in the two map objects: the object behind
    [current] keeps its entries whose key is not in [desired], whether
    or not the two references are the same object; the object behind
    [desired] is as it was when it is another object. *)
Definition current_updated {V} (current desired : loc) (h h' : heap V) : Prop :=
  h' !!! current = (h !!! current) ∖ (h !!! desired)
  ∧ (∀ k, is_Some ((h !!! current) !! k) → is_Some ((h !!! desired) !! k) →
          (h' !!! current) !! k = None)
  ∧ (∀ k v, (h' !!! current) !! k = Some v
            ↔ (h !!! current) !! k = Some v ∧ (h !!! desired) !! k = None)
  ∧ (current ≠ desired → h' !!! desired = h !!! desired).

Lemma current_updated_intro {V} current desired (h h' : heap V) :
  h' !!! current = (h !!! current) ∖ (h !!! desired) →
  (∀ l, l ≠ current → h' !! l = h !! l) →
  current_updated current desired h h'.
Proof.
  intros Hc Ho. split; [done|]. split; [|split].
  - intros k _ [v Hv]. rewrite Hc. apply lookup_difference_None. right. by exists v.
  - intros k v. rewrite Hc. apply lookup_difference_Some.
  - intros Hne. by rewrite !lookup_total_alt, Ho.
Qed.

(** C10 as amended. A converge call that returns has removed from the
    caller's current map every key that is also in desired, so that
    current holds its unmatched entries only; this holds also when the
    same map object is passed as current and as desired. The desired map
    is left as it was when it is another map object than current. *)
Theorem converge_updates_current o current desired :
  (∀ h nl, let '(h', _, _) := ApplyRules o current desired h nl in
           current_updated current desired h h')
  ∧ (∀ h nl, match ApplyRoutes o current desired h nl with
             | Returned (h', _, _) => current_updated current desired h h'
             | Panicked _ _ =>
                 routes_complete o (h !!! current) (h !!! desired) = false
             end)
  ∧ (∀ h nl, let '(h', _, _) := ApplyFDBs o current desired h nl in
             current_updated current desired h h').
Proof.
  split; [|split].
  - intros h nl. destruct (ApplyRules_sweep o current desired h nl)
      as (h' & nl' & evs & -> & Hc & Ho & _).
    by apply current_updated_intro.
  - intros h nl. pose proof (ApplyRoutes_sweep o current desired h nl) as H.
    destruct (routes_complete o (h !!! current) (h !!! desired)).
    + destruct H as (h' & nl' & evs & -> & Hc & Ho & _).
      by apply current_updated_intro.
    + by destruct H as (h' & nl' & evs & -> & _).
  - intros h nl. destruct (ApplyFDBs_sweep o current desired h nl)
      as (h' & nl' & evs & -> & Hc & Ho & _).
    by apply current_updated_intro.
Qed.

(** ** Concrete runs *)

(** A kernel that accepts every request and has sent none yet. *)
Definition quiet (rules : list Rule) (routes : list Route) (neighs : list Neigh) : Netlink :=
  mkNetlink rules routes neighs [] (λ _ _, None).

Definition net_10_0_0_0_24 : IPNet := mkIPNet [x0a; x00; x00; x00] (CIDRMask 24 32).
Definition via_1_1_1_1 : Route :=
  mkRoute (Some net_10_0_0_0_24) [x01; x01; x01; x01] [] 3 100.
Definition via_2_2_2_2 : Route :=
  mkRoute (Some net_10_0_0_0_24) [x02; x02; x02; x02] [] 3 100.

(** Two map objects: at 1 the current routes, at 2 the desired ones. *)
Definition gateway_change : heap Route :=
  <[ 1%positive := {[ RouteKey via_1_1_1_1 := via_1_1_1_1 ]} ]>
    {[ 2%positive := {[ RouteKey via_2_2_2_2 := via_2_2_2_2 ]} ]}.

Lemma gateway_change_current :
  gateway_change !!! 1%positive
  = ({[ RouteKey via_1_1_1_1 := via_1_1_1_1 ]} : gmap string Route).
Proof. unfold gateway_change. apply lookup_total_insert_eq. Qed.

Lemma gateway_change_desired :
  gateway_change !!! 2%positive
  = ({[ RouteKey via_2_2_2_2 := via_2_2_2_2 ]} : gmap string Route).
Proof.
  unfold gateway_change. rewrite lookup_total_insert_ne by done.
  apply lookup_total_singleton_eq.
Qed.

(** The scenario of a changed gateway: the call returns, and the one
    request for the key is the replace of the desired route. *)
Lemma ApplyRoutes_replace_iff_differ_witness :
  (∀ k ro v, (gateway_change !!! 1%positive) !! k = Some ro →
             (gateway_change !!! 2%positive) !! k = Some v →
             is_Some (Route_Dst ro) ∧ is_Some (Route_Dst v))
  ∧ ∃ h' nl' err,
      ApplyRoutes map_to_list_order 1%positive 2%positive gateway_change
        (quiet [] [via_1_1_1_1] [])
      = Returned (h', nl', err)
      ∧ sent (for_key "10.0.0.0/24-100" (issued (quiet [] [via_1_1_1_1] []) nl'))
        = [(Some "10.0.0.0/24-100", ReqRouteReplace via_2_2_2_2)].
Proof.
  assert (∀ k ro v, (gateway_change !!! 1%positive) !! k = Some ro →
                    (gateway_change !!! 2%positive) !! k = Some v →
                    is_Some (Route_Dst ro) ∧ is_Some (Route_Dst v)) as Hdst.
  { intros k ro v. rewrite gateway_change_current, gateway_change_desired.
    intros [_ <-]%lookup_singleton_Some [_ <-]%lookup_singleton_Some.
    split; by eexists. }
  split; [exact Hdst|].
  destruct (ApplyRoutes_replace_iff_differ map_to_list_order 1%positive 2%positive
              gateway_change (quiet [] [via_1_1_1_1] []) Hdst)
    as (h' & nl' & err & Hret & Hkeys).
  exists h', nl', err. split; [exact Hret|].
  destruct (Hkeys "10.0.0.0/24-100" via_1_1_1_1 via_2_2_2_2)
    as (xDst & yDst & Hx & Hy & _ & Hdiffer & _).
  - rewrite gateway_change_current. apply lookup_singleton_eq.
  - rewrite gateway_change_desired. apply lookup_singleton_eq.
  - apply Hdiffer. injection Hx as <-. injection Hy as <-.
    right. left. vm_compute. reflexivity.
Defined.

(** Another order of [range]: the entries from last to first. *)
Definition reverse_order : RangeOrder :=
  mkRangeOrder (λ V m, reverse (map_to_list m)) (λ V m, reverse_Permutation _).

(** Two routes without destination, as a default route is listed, and
    the maps of a changed gateway for the default route and for the
    prefix 10.0.0.0/24. *)
Definition default_via_1_1_1_1 : Route := mkRoute None [x01; x01; x01; x01] [] 3 100.
Definition default_via_2_2_2_2 : Route := mkRoute None [x02; x02; x02; x02] [] 3 100.

Definition default_gateway_change : heap Route :=
  <[ 1%positive := {[ "<nil>-100" := default_via_1_1_1_1;
                      "10.0.0.0/24-100" := via_1_1_1_1 ]} ]>
    {[ 2%positive := {[ "<nil>-100" := default_via_2_2_2_2;
                        "10.0.0.0/24-100" := via_2_2_2_2 ]} ]}.

(** The requests a call has sent, and whether it returned. *)
Definition requests_of (r : outcome (heap Route * Netlink * option errorlist.List))
  : bool * list Request :=
  match r with
  | Returned (_, nl, _) => (true, ev_req <$> nl_log nl)
  | Panicked _ nl => (false, ev_req <$> nl_log nl)
  end.

(** C2, counterexample. Both keys are in current and in desired, keyed
    by [RouteKey], and at both the two routes differ on the gateway.
    The call panics on the routes without destination: no replace is
    sent for their key, and when their key is visited first no replace
    is sent for the other key either. *)
Lemma ApplyRoutes_nil_destination_no_replace :
  let C := default_gateway_change !!! 1%positive in
  let D := default_gateway_change !!! 2%positive in
  let nl := quiet [] [default_via_1_1_1_1; via_1_1_1_1] [] in
  (C !! RouteKey default_via_1_1_1_1 = Some default_via_1_1_1_1
   ∧ D !! RouteKey default_via_2_2_2_2 = Some default_via_2_2_2_2
   ∧ RouteKey default_via_1_1_1_1 = RouteKey default_via_2_2_2_2
   ∧ IP_Equal (Route_Gw default_via_1_1_1_1) (Route_Gw default_via_2_2_2_2) = false)
  ∧ (C !! RouteKey via_1_1_1_1 = Some via_1_1_1_1
     ∧ D !! RouteKey via_2_2_2_2 = Some via_2_2_2_2
     ∧ RouteKey via_1_1_1_1 = RouteKey via_2_2_2_2
     ∧ IP_Equal (Route_Gw via_1_1_1_1) (Route_Gw via_2_2_2_2) = false)
  ∧ requests_of (ApplyRoutes map_to_list_order 1%positive 2%positive
                   default_gateway_change nl)
    = (false, [ReqRouteReplace via_2_2_2_2])
  ∧ requests_of (ApplyRoutes reverse_order 1%positive 2%positive
                   default_gateway_change nl)
    = (false, []).
Proof. vm_compute. repeat split; reflexivity. Qed.

Example ApplyRoutes_gateway_change_requests :
  match ApplyRoutes map_to_list_order 1%positive 2%positive gateway_change
          (quiet [] [via_1_1_1_1] []) with
  | Returned (_, nl', err) =>
      nl_log nl' = [mkEvent (Some "10.0.0.0/24-100") (ReqRouteReplace via_2_2_2_2) None]
      ∧ nl_routes nl' = [via_2_2_2_2] ∧ err = None
  | Panicked _ _ => False
  end.
Proof. vm_compute. repeat split; reflexivity. Qed.

(** The scenario of an unwanted route: one delete, nil returned. *)
Example ApplyRoutes_unwanted_route :
  let h : heap Route :=
    <[ 1%positive := {[ RouteKey via_1_1_1_1 := via_1_1_1_1 ]} ]> {[ 2%positive := ∅ ]} in
  match ApplyRoutes map_to_list_order 1%positive 2%positive h
          (quiet [] [via_1_1_1_1] []) with
  | Returned (_, nl', err) =>
      nl_log nl' = [mkEvent (Some "10.0.0.0/24-100") (ReqRouteDel via_1_1_1_1) None]
      ∧ nl_routes nl' = [] ∧ err = None
  | Panicked _ _ => False
  end.
Proof. vm_compute. repeat split; reflexivity. Qed.

(** The scenario of a missing rule: one add, under the key of its
    source prefix. *)
Example ApplyRules_missing_rule :
  let b := mkRule 100 101 FAMILY_V4
             (Some (mkIPNet [x0a; x01; x00; x00] (CIDRMask 16 32))) in
  let h : heap Rule := <[ 1%positive := ∅ ]> {[ 2%positive := {[ RuleKey b := b ]} ]} in
  let '(_, nl', err) :=
    ApplyRules map_to_list_order 1%positive 2%positive h (quiet [] [] []) in
  nl_log nl' = [mkEvent (Some "10.1.0.0/16") (ReqRuleAdd b) None]
  ∧ nl_rules nl' = [b] ∧ err = None.
Proof. vm_compute. repeat split; reflexivity. Qed.

(** One map object passed as both current and desired. *)
Definition one_rule_map : heap Rule :=
  {[ 1%positive := {[ RuleKey (NewRavenRule 100 100) := NewRavenRule 100 100 ]} ]}.

Definition same_map_applied : heap Rule * Netlink * option errorlist.List :=
  ApplyRules map_to_list_order 1%positive 1%positive one_rule_map
    (quiet [NewRavenRule 100 100] [] []).

(** C10, counterexample. [ApplyRules] called with the same map object as
    current and as desired modifies the desired map: it ends empty. *)
Lemma ApplyRules_same_map_modifies_desired :
  (one_rule_map !!! 1%positive) !! "0.0.0.0/0" = Some (NewRavenRule 100 100)
  ∧ (same_map_applied.1.1 !!! 1%positive) !! "0.0.0.0/0" = None
  ∧ same_map_applied.1.1 !!! 1%positive ≠ one_rule_map !!! 1%positive.
Proof.
  assert ((one_rule_map !!! 1%positive) !! "0.0.0.0/0" = Some (NewRavenRule 100 100))
    as Hbefore by (vm_compute; reflexivity).
  assert ((same_map_applied.1.1 !!! 1%positive) !! "0.0.0.0/0" = None) as Hafter
    by (vm_compute; reflexivity).
  split; [exact Hbefore|]. split; [exact Hafter|].
  intros Heq. rewrite Heq, Hbefore in Hafter. discriminate Hafter.
Qed.

(** A matched and an unmatched key: current holds a rule of the prefix
    10.1.0.0/16 and a rule without source prefix, desired holds another
    rule of the same prefix. *)
Definition matched_rule_maps : heap Rule :=
  <[ 1%positive :=
       {[ "10.1.0.0/16" :=
            mkRule 1 100 FAMILY_V4 (Some (mkIPNet [x0a; x01; x00; x00] (CIDRMask 16 32)));
          "0.0.0.0/0" := NewRavenRule 100 100 ]} ]>
    {[ 2%positive :=
         {[ "10.1.0.0/16" :=
              mkRule 2 100 FAMILY_V4
                (Some (mkIPNet [x0a; x01; x00; x00] (CIDRMask 16 32))) ]} ]}.

(** The matched key has left current, the unmatched entry is still
    there, and the desired map is as it was. *)
Lemma converge_updates_current_witness :
  let h' := (ApplyRules map_to_list_order 1%positive 2%positive matched_rule_maps
               (quiet [] [] [])).1.1 in
  is_Some ((matched_rule_maps !!! 1%positive) !! "10.1.0.0/16")
  ∧ is_Some ((matched_rule_maps !!! 2%positive) !! "10.1.0.0/16")
  ∧ (1 ≠ 2)%positive
  ∧ (h' !!! 1%positive) !! "10.1.0.0/16" = None
  ∧ (h' !!! 1%positive) !! "0.0.0.0/0" = Some (NewRavenRule 100 100)
  ∧ h' !!! 2%positive = matched_rule_maps !!! 2%positive.
Proof.
  assert (is_Some ((matched_rule_maps !!! 1%positive) !! "10.1.0.0/16")) as Hcur
    by (eexists; vm_compute; reflexivity).
  assert (is_Some ((matched_rule_maps !!! 2%positive) !! "10.1.0.0/16")) as Hdes
    by (eexists; vm_compute; reflexivity).
  assert ((matched_rule_maps !!! 1%positive) !! "0.0.0.0/0" = Some (NewRavenRule 100 100))
    as Hraven by (vm_compute; reflexivity).
  assert ((matched_rule_maps !!! 2%positive) !! "0.0.0.0/0" = None) as Hnone
    by (vm_compute; reflexivity).
  assert (1 ≠ 2)%positive as Hne by discriminate.
  pose proof (proj1 (converge_updates_current map_to_list_order 1%positive 2%positive)
                matched_rule_maps (quiet [] [] [])) as H.
  destruct (ApplyRules map_to_list_order 1%positive 2%positive matched_rule_maps
              (quiet [] [] [])) as [[h' nl'] err].
  destruct H as (_ & Hgone & Hiff & Hkept). cbn [fst].
  split; [exact Hcur|]. split; [exact Hdes|]. split; [exact Hne|].
  split; [exact (Hgone _ Hcur Hdes)|].
  split; [exact (proj2 (Hiff _ _) (conj Hraven Hnone)) | exact (Hkept Hne)].
Defined.

(** ** The listers *)

(** A map filled from a list, entry after entry, holds at each key the
    last element of the list that was put there. *)
Lemma lookup_foldl_insert_if {V} (key : V → string) (P : V → Prop)
    `{∀ v, Decision (P v)} (l : list V) (k : string) :
  foldl (λ m v, if decide (P v) then <[key v := v]> m else m)
    (∅ : gmap string V) l !! k
  = last (filter (λ v, P v ∧ key v = k) l).
Proof.
  induction l as [|v l IH] using rev_ind; [done|].
  rewrite foldl_snoc, filter_app.
  destruct (decide (P v)) as [HP|HP].
  - destruct (decide (key v = k)) as [Hk|Hk].
    + rewrite filter_cons_True, filter_nil by done.
      rewrite last_snoc, Hk. apply lookup_insert_eq.
    + rewrite filter_cons_False, filter_nil, app_nil_r by (by intros [? ?]).
      by rewrite lookup_insert_ne.
  - rewrite filter_cons_False, filter_nil, app_nil_r by (by intros [? ?]). done.
Qed.

Lemma lookup_foldl_insert {V} (key : V → string) (l : list V) (k : string) :
  foldl (λ m v, <[key v := v]> m) (∅ : gmap string V) l !! k
  = last (filter (λ v, key v = k) l).
Proof.
  induction l as [|v l IH] using rev_ind; [done|].
  rewrite foldl_snoc, filter_app.
  destruct (decide (key v = k)) as [Hk|Hk].
  - rewrite filter_cons_True, filter_nil by done.
    rewrite last_snoc, Hk. apply lookup_insert_eq.
  - rewrite filter_cons_False, filter_nil, app_nil_r by done.
    by rewrite lookup_insert_ne.
Qed.

(** The log with one more event, nothing else changed. *)
Definition logged (e : Event) (nl : Netlink) : Netlink :=
  mkNetlink (nl_rules nl) (nl_routes nl) (nl_neighs nl) (nl_log nl ++ [e]) (nl_fault nl).

(** The rules, routes and FDB entries a successful listing returns. *)
Definition table_rules (t : Z) (nl : Netlink) : list Rule :=
  filter (λ r, Rule_Family r = FAMILY_V4 ∧ Rule_Table r = t) (nl_rules nl).
Definition table_routes (t : Z) (nl : Netlink) : list Route :=
  filter (λ r, Route_Table r = t) (nl_routes nl).
Definition link_neighs (link : Link) (nl : Netlink) : list Neigh :=
  filter (λ n, Neigh_LinkIndex n = Link_Index link ∧ Neigh_Family n = syscall.AF_BRIDGE)
    (nl_neighs nl).

Definition rules_on_node (t : Z) (nl : Netlink) : gmap string Rule :=
  foldl (λ m v, <[RuleKey v := v]> m) ∅ (table_rules t nl).
Definition routes_on_node (t : Z) (nl : Netlink) : gmap string Route :=
  foldl (λ m v, <[RouteKey v := v]> m) ∅ (table_routes t nl).

Lemma ListRulesOnNode_spec t nl :
  ListRulesOnNode t nl
  = match nl_fault nl (nl_log nl) (ReqRuleList FAMILY_V4 t) with
    | Some e => (logged (mkEvent None (ReqRuleList FAMILY_V4 t) (Some e)) nl, None, Some e)
    | None => (logged (mkEvent None (ReqRuleList FAMILY_V4 t) None) nl,
               Some (rules_on_node t nl), None)
    end.
Proof.
  unfold ListRulesOnNode, netlinkutil.RuleListFiltered, netlinkutil.send.
  by destruct (nl_fault nl (nl_log nl) (ReqRuleList FAMILY_V4 t)).
Qed.

Lemma ListRoutesOnNode_spec t nl :
  ListRoutesOnNode t nl
  = match nl_fault nl (nl_log nl) (ReqRouteList FAMILY_V4 t) with
    | Some e => (logged (mkEvent None (ReqRouteList FAMILY_V4 t) (Some e)) nl, None, Some e)
    | None => (logged (mkEvent None (ReqRouteList FAMILY_V4 t) None) nl,
               Some (routes_on_node t nl), None)
    end.
Proof.
  unfold ListRoutesOnNode, netlinkutil.RouteListFiltered, netlinkutil.send.
  by destruct (nl_fault nl (nl_log nl) (ReqRouteList FAMILY_V4 t)).
Qed.

(** *** The all-zero hardware address *)

Lemma hexByte_zero b : hexByte b = "00" → b = x00.
Proof. destruct b; vm_compute; congruence. Qed.

Lemma HardwareAddr_String_cons b a :
  HardwareAddr_String (b :: a)
  = hexByte b ++ match a with
                 | [] => ""
                 | _ => ":" ++ HardwareAddr_String a
                 end.
Proof. destruct a; [|done]. unfold hexByte. simpl. done. Qed.

Lemma HardwareAddr_String_zeros n a :
  HardwareAddr_String a = HardwareAddr_String (replicate n x00) → a = replicate n x00.
Proof.
  revert n. induction a as [|b a IH]; intros [|n] H.
  - done.
  - rewrite replicate_S, HardwareAddr_String_cons in H. discriminate H.
  - rewrite HardwareAddr_String_cons in H. discriminate H.
  - rewrite replicate_S, !HardwareAddr_String_cons in H.
    change (hexByte x00) with "00" in H. unfold hexByte in H at 1.
    cbn [String.append] in H. injection H as H1 H2 H3.
    assert (b = x00) as ->.
    { apply hexByte_zero. unfold hexByte. by rewrite H1, H2. }
    cbn [replicate]. f_equal. apply IH. cbn [String.append] in H3.
    destruct a as [|b' a], n as [|n]; try done;
      cbn [replicate] in H3; cbv iota in H3; cbn [String.append] in H3;
      try discriminate H3; by injection H3.
Qed.

(** The test of [ListFDBsOnNode], on the texts of the two addresses,
    holds for the all-zero address and no other. *)
Lemma HardwareAddr_String_AllZeroMAC a :
  HardwareAddr_String a = HardwareAddr_String AllZeroMAC ↔ a = AllZeroMAC.
Proof.
  split; [|by intros ->].
  apply (HardwareAddr_String_zeros 6).
Qed.

(** ** The kernel after a converge call whose requests were all accepted

    The objects of one kind are a list [R]; a lister keeps those of its
    table and keys them. The section follows the list through the
    requests of a converge call and reads the listing of the result. *)

Section Relist.
Context {V : Type} `{EqDecision V}.
Variable key : V → string.
Variable tbl : V → Prop.
Context `{∀ v, Decision (tbl v)}.
Variables add del : V → Request.
Variable upd : V → V → option (list Request).
(** What an accepted request does to the list. *)
Variable after : Request → list V → list V.
Hypothesis after_add : ∀ v R, after (add v) R = (R ++ [v])%list.
Hypothesis after_del : ∀ v R, after (del v) R = filter (λ x, x ≠ v) R.
Hypothesis after_upd : ∀ ro v cs c R,
  upd ro v = Some cs → c ∈ cs →
  cs = [c] ∧ after c R = (filter (λ x, key x ≠ key v) R ++ [v])%list.

Definition listing (R : list V) : gmap string V :=
  foldl (λ m v, <[key v := v]> m) ∅ (filter tbl R).

Definition afterwards (R : list V) (cs : list (string * Request)) : list V :=
  foldl (λ R c, after c R) R cs.*2.

Lemma listing_lookup R k :
  listing R !! k = last (filter (λ v, key v = k) (filter tbl R)).
Proof. apply lookup_foldl_insert. Qed.

Lemma listing_Some R k x :
  listing R !! k = Some x → x ∈ R ∧ tbl x ∧ key x = k.
Proof.
  rewrite listing_lookup. intros Hl.
  apply last_Some_elem_of, list_elem_of_filter in Hl as [Hk Hx].
  apply list_elem_of_filter in Hx as [? ?]. done.
Qed.

Lemma listing_is_Some R x :
  x ∈ R → tbl x → is_Some (listing R !! key x).
Proof.
  intros Hx Ht. rewrite listing_lookup. apply last_is_Some. intros Hnil.
  apply (filter_nil_not_elem_of _ _ x Hnil eq_refl).
  by apply list_elem_of_filter.
Qed.

Lemma filter_key_NoDup (l : list V) x :
  NoDup (key <$> l) → x ∈ l → filter (λ v, key v = key x) l = [x].
Proof.
  induction l as [|y l IH]; intros Hnd Hx; [by apply elem_of_nil in Hx|].
  rewrite fmap_cons, NoDup_cons in Hnd. destruct Hnd as [Hy Hnd].
  apply elem_of_cons in Hx as [->|Hx].
  - rewrite filter_cons_True by done. f_equal.
    destruct (filter (λ v, key v = key y) l) as [|z zs] eqn:E; [done|].
    exfalso. apply Hy.
    assert (z ∈ filter (λ v, key v = key y) l) as Hz by (rewrite E; apply list_elem_of_here).
    apply list_elem_of_filter in Hz as [Hk Hz]. rewrite <- Hk.
    by apply list_elem_of_fmap_2.
  - rewrite filter_cons_False; [by apply IH|].
    intros Hk. apply Hy. rewrite Hk. by apply list_elem_of_fmap_2.
Qed.

(** Without two objects of the table under one key, the listing has
    every object of the table. *)
Lemma listing_NoDup R x :
  NoDup (key <$> filter tbl R) → x ∈ R → tbl x → listing R !! key x = Some x.
Proof.
  intros Hnd Hx Ht. rewrite listing_lookup.
  rewrite (filter_key_NoDup _ x Hnd); [done|]. by apply list_elem_of_filter.
Qed.

Lemma afterwards_app R cs1 cs2 :
  afterwards R (cs1 ++ cs2) = afterwards (afterwards R cs1) cs2.
Proof. unfold afterwards. by rewrite fmap_app, foldl_app. Qed.

Lemma elem_of_afterwards_unwanted es R x :
  x ∈ afterwards R (plan_unwanted del es) ↔ x ∈ R ∧ x ∉ es.*2.
Proof.
  revert R. induction es as [|[k w] es IH]; intros R.
  - simpl. split; [intros ?; split; [done | apply not_elem_of_nil] | by intros [? _]].
  - unfold afterwards, plan_unwanted in *. rewrite !fmap_cons. cbn [foldl snd].
    rewrite IH, after_del, list_elem_of_filter, not_elem_of_cons. tauto.
Qed.

Section Desired.
Variable C : gmap string V.

(** The value [x] was installed by the loop over [es]; the key [j] was
    replaced by it. *)
Definition installed (es : list (string * V)) (x : V) : Prop :=
  ∃ k, (k, x) ∈ es
       ∧ (C !! k = None ∨ ∃ ro cs c, C !! k = Some ro ∧ upd ro x = Some cs ∧ c ∈ cs).
Definition replaced (es : list (string * V)) (j : string) : Prop :=
  ∃ v ro cs c, (j, v) ∈ es ∧ C !! j = Some ro ∧ upd ro v = Some cs ∧ c ∈ cs.

Lemma replaced_notin es j : j ∉ es.*1 → ¬ replaced es j.
Proof.
  intros Hj (v & ro & cs & c & Hin & _). apply Hj.
  apply list_elem_of_fmap. by exists (j, v).
Qed.

Lemma elem_of_afterwards_desired es R x :
  NoDup es.*1 → (∀ k v, (k, v) ∈ es → key v = k) →
  (plan_desired add upd C es).2 = true →
  x ∈ afterwards R (plan_desired add upd C es).1
  ↔ (x ∈ R ∧ ¬ replaced es (key x)) ∨ installed es x.
Proof.
  revert R. induction es as [|[k v] es IH]; intros R Hnd Hkey Hok.
  { simpl. split.
    - intros Hx. left. split; [done|]. by intros (? & ? & ? & ? & ?%elem_of_nil & _).
    - intros [[? _]|(? & ?%elem_of_nil & _)]; done. }
  rewrite fmap_cons, NoDup_cons in Hnd. destruct Hnd as [Hk Hnd]. simpl in Hk.
  assert (key v = k) as Hkv by (apply Hkey; apply list_elem_of_here).
  assert (∀ k' v', (k', v') ∈ es → key v' = k') as Hkey'
    by (intros; apply Hkey; by apply list_elem_of_further).
  assert (¬ replaced es (key v)) as Hnr by (rewrite Hkv; by apply replaced_notin).
  set (P := ∃ ro cs c, C !! k = Some ro ∧ upd ro v = Some cs ∧ c ∈ cs).
  assert (∀ j, replaced ((k, v) :: es) j ↔ (j = k ∧ P) ∨ replaced es j) as Hrep.
  { intros j. unfold replaced, P. split.
    - intros (v' & ro & cs & c & Hin & HC & Hu & Hc).
      apply elem_of_cons in Hin as [[= -> ->]|Hin]; [left; eauto 10 | right; eauto 10].
    - intros [[-> (ro & cs & c & HC & Hu & Hc)]|(v' & ro & cs & c & Hin & HC & Hu & Hc)].
      + exists v, ro, cs, c. split; [apply list_elem_of_here | done].
      + exists v', ro, cs, c. split; [by apply list_elem_of_further | done]. }
  assert (∀ y, installed ((k, v) :: es) y
               ↔ (y = v ∧ (C !! k = None ∨ P)) ∨ installed es y) as Hins.
  { intros y. unfold installed. split.
    - intros (k' & Hin & Hc).
      apply elem_of_cons in Hin as [[= -> ->]|Hin]; [left; eauto | right; eauto].
    - intros [[-> Hc]|(k' & Hin & Hc)].
      + exists k. split; [apply list_elem_of_here | done].
      + exists k'. split; [by apply list_elem_of_further | done]. }
  rewrite Hrep, Hins. clear Hrep Hins.
  assert (P ↔ ∃ ro cs c, C !! k = Some ro ∧ upd ro v = Some cs ∧ c ∈ cs) as HP by done.
  clearbody P. cbn [plan_desired] in Hok |- *.
  destruct (decide (x = v)) as [Hxv|Hxv].
  - (* the value of the entry visited *)
    subst x. destruct (C !! k) as [ro|] eqn:HC.
    + destruct (upd ro v) as [[|c cs]|] eqn:Hu; [| |done]; cbn [fst snd] in Hok |- *.
      * assert (¬ P) as HnP.
        { rewrite HP. intros (ro' & cs' & c' & [= <-] & Hu' & Hc').
          rewrite Hu in Hu'. injection Hu' as <-. by apply elem_of_nil in Hc'. }
        cbn [fmap list_fmap app]. rewrite (IH R Hnd Hkey' Hok). rewrite Hkv in *.
        intuition congruence.
      * assert P as HP'.
        { apply HP. exists ro, (c :: cs), c. split; [done|]. split; [done|].
          apply list_elem_of_here. }
        destruct (after_upd ro v (c :: cs) c R Hu (list_elem_of_here _ _))
          as [[= ->] Hafter].
        unfold afterwards in *. cbn [fmap list_fmap foldl snd app]. rewrite Hafter.
        rewrite (IH _ Hnd Hkey' Hok), elem_of_app, list_elem_of_filter,
          list_elem_of_singleton.
        rewrite Hkv in *. intuition congruence.
    + assert (¬ P) as HnP by (rewrite HP; by intros (? & ? & ? & ? & _)).
      unfold afterwards in *. cbn [fmap list_fmap foldl snd fst]. rewrite after_add.
      rewrite (IH _ Hnd Hkey' Hok), elem_of_app, list_elem_of_singleton.
      rewrite Hkv in *. intuition congruence.
  - destruct (C !! k) as [ro|] eqn:HC.
    + destruct (upd ro v) as [[|c cs]|] eqn:Hu; [| |done]; cbn [fst snd] in Hok |- *.
      * assert (¬ P) as HnP.
        { rewrite HP. intros (ro' & cs' & c' & [= <-] & Hu' & Hc').
          rewrite Hu in Hu'. injection Hu' as <-. by apply elem_of_nil in Hc'. }
        cbn [fmap list_fmap app]. rewrite (IH R Hnd Hkey' Hok).
        intuition congruence.
      * assert P as HP'.
        { apply HP. exists ro, (c :: cs), c. split; [done|]. split; [done|].
          apply list_elem_of_here. }
        destruct (after_upd ro v (c :: cs) c R Hu (list_elem_of_here _ _))
          as [[= ->] Hafter].
        unfold afterwards in *. cbn [fmap list_fmap foldl snd app]. rewrite Hafter.
        rewrite (IH _ Hnd Hkey' Hok), elem_of_app, list_elem_of_filter,
          list_elem_of_singleton.
        rewrite Hkv in *. intuition congruence.
    + assert (¬ P) as HnP by (rewrite HP; by intros (? & ? & ? & ? & _)).
      unfold afterwards in *. cbn [fmap list_fmap foldl snd fst]. rewrite after_add.
      rewrite (IH _ Hnd Hkey' Hok), elem_of_app, list_elem_of_singleton.
      intuition congruence.
Qed.
End Desired.

Section Converged.
Variable o : RangeOrder.
Variables C D : gmap string V.
Variable R0 : list V.
(** [C] was listed from [R0], in which no two objects of the table have
    the same key; [D] is keyed by [key] and holds objects of the table;
    the call runs to its end. *)
Hypothesis HC : C = listing R0.
Hypothesis Hnd : NoDup (key <$> filter tbl R0).
Hypothesis HD : ∀ k v, D !! k = Some v → key v = k ∧ tbl v.
Hypothesis Hok : (plan_desired add upd C (range o D)).2 = true.

Definition converged : list V :=
  afterwards R0 ((plan_desired add upd C (range o D)).1
                 ++ plan_unwanted del (range o (C ∖ D))).

Lemma elem_of_converged x :
  x ∈ converged
  ↔ ((x ∈ R0 ∧ ¬ replaced C (range o D) (key x)) ∨ installed C (range o D) x)
    ∧ x ∉ (range o (C ∖ D)).*2.
Proof.
  unfold converged. rewrite afterwards_app, elem_of_afterwards_unwanted.
  rewrite elem_of_afterwards_desired; [done | apply NoDup_range_keys | | done].
  intros k v Hkv. apply elem_of_range in Hkv. by apply HD.
Qed.

Lemma unwanted_values x :
  x ∈ (range o (C ∖ D)).*2 ↔ ∃ k, C !! k = Some x ∧ D !! k = None.
Proof.
  rewrite list_elem_of_fmap. split.
  - intros ([k y] & -> & Hin). apply elem_of_range, lookup_difference_Some in Hin.
    by exists k.
  - intros (k & HCk & HDk). exists (k, x). split; [done|].
    by apply elem_of_range, lookup_difference_Some.
Qed.

Lemma current_keyed k x : C !! k = Some x → x ∈ R0 ∧ tbl x ∧ key x = k.
Proof. rewrite HC. apply listing_Some. Qed.

(** Every object of the table that is left is the desired object of its
    key, or the current one that the call found equal to it. *)
Lemma converged_desired x :
  x ∈ converged → tbl x →
  ∃ v, D !! key x = Some v ∧ (x = v ∨ C !! key x = Some x ∧ upd x v = Some []).
Proof.
  rewrite elem_of_converged, unwanted_values. intros [[[Hx Hnr]|Hi] Hw] Ht.
  - assert (C !! key x = Some x) as HCx by (rewrite HC; by apply listing_NoDup).
    destruct (D !! key x) as [v|] eqn:HDx; [|exfalso; apply Hw; eauto].
    exists v. split; [done|]. right. split; [done|].
    destruct (proj1 (plan_desired_complete add upd C (range o D)) Hok (key x) v x)
      as [cs Hcs]; [by apply elem_of_range | done |].
    destruct cs as [|c cs]; [done|]. exfalso. apply Hnr.
    exists v, x, (c :: cs), c. split; [by apply elem_of_range|].
    split; [done|]. split; [done | apply list_elem_of_here].
  - destruct Hi as (k & Hin & _). apply elem_of_range in Hin.
    destruct (HD _ _ Hin) as [<- _]. exists x. split; [done | by left].
Qed.

(** Every desired key has an object of the table. *)
Lemma converged_present k v :
  D !! k = Some v → ∃ x, x ∈ converged ∧ tbl x ∧ key x = k.
Proof.
  intros HDk. destruct (HD _ _ HDk) as [Hkv Htv].
  assert (∀ y, key y = k → y ∉ (range o (C ∖ D)).*2) as Hnw.
  { intros y Hy (k' & HCy & HDy)%unwanted_values.
    apply current_keyed in HCy as (_ & _ & Hk'). congruence. }
  destruct (C !! k) as [ro|] eqn:HCk.
  - destruct (proj1 (plan_desired_complete add upd C (range o D)) Hok k v ro)
      as [cs Hcs]; [by apply elem_of_range | done |].
    destruct cs as [|c cs].
    + destruct (current_keyed _ _ HCk) as (Hro & Htro & Hkro).
      exists ro. split; [|done]. apply elem_of_converged. split; [|by apply Hnw].
      left. split; [done|]. rewrite Hkro.
      intros (v' & ro' & cs' & c' & Hin & HC' & Hu & Hc).
      apply elem_of_range in Hin. rewrite HDk in Hin. injection Hin as <-.
      rewrite HCk in HC'. injection HC' as <-. rewrite Hcs in Hu. injection Hu as <-.
      by apply elem_of_nil in Hc.
    + exists v. split; [|done]. apply elem_of_converged. split; [|by apply Hnw].
      right. exists k. split; [by apply elem_of_range|]. right.
      exists ro, (c :: cs), c. split; [done|]. split; [done | apply list_elem_of_here].
  - exists v. split; [|done]. apply elem_of_converged. split; [|by apply Hnw].
    right. exists k. split; [by apply elem_of_range | by left].
Qed.

(** The objects of the keys that are in current only are gone. *)
Lemma converged_absent k w : C !! k = Some w → D !! k = None → w ∉ converged.
Proof.
  intros HCk HDk. rewrite elem_of_converged. intros [_ Hw]. apply Hw.
  apply unwanted_values. eauto.
Qed.

(** Listing again gives the desired keys, each with the desired object
    or with the current one that was found equal to it. *)
Lemma relisted :
  dom (listing converged) = dom D
  ∧ (∀ k v, D !! k = Some v →
            ∃ x, listing converged !! k = Some x
                 ∧ (x = v ∨ C !! k = Some x ∧ upd x v = Some [])).
Proof.
  assert (∀ k x, listing converged !! k = Some x →
                 ∃ v, D !! k = Some v ∧ (x = v ∨ C !! k = Some x ∧ upd x v = Some []))
    as Hsome.
  { intros k x (Hx & Ht & <-)%listing_Some. by apply converged_desired. }
  assert (∀ k v, D !! k = Some v → is_Some (listing converged !! k)) as Hin.
  { intros k v (x & Hx & Ht & <-)%converged_present. by apply listing_is_Some. }
  split.
  - apply set_eq. intros k. rewrite !elem_of_dom. split.
    + intros [x (v & Hv & _)%Hsome]. by eexists.
    + intros [v Hv]. by eapply Hin.
  - intros k v HDk. destruct (Hin _ _ HDk) as [x Hx]. exists x. split; [done|].
    destruct (Hsome _ _ Hx) as (v' & Hv' & Hor). by simplify_eq.
Qed.
(** A current object that the call found equal to the desired one of
    its key is the object the listing shows at that key. *)
Lemma relisted_kept k ro v :
  C !! k = Some ro → D !! k = Some v → upd ro v = Some [] →
  listing converged !! k = Some ro.
Proof.
  intros HCk HDk Hu. destruct relisted as [_ Hkeys].
  destruct (Hkeys k v HDk) as (x & Hx & [->|[HCx _]]);
    [|rewrite HCk in HCx; by injection HCx as <-].
  rewrite Hx. f_equal.
  apply listing_Some in Hx as (Hv & Htv & Hkv).
  apply elem_of_converged in Hv as [[[Hv0 _]|Hi] _].
  - assert (C !! key v = Some v) as HCv by (rewrite HC; by apply listing_NoDup).
    rewrite Hkv, HCk in HCv. by injection HCv.
  - destruct Hi as (k' & Hin & Hor). apply elem_of_range in Hin.
    destruct (HD _ _ Hin) as [Hk' _]. assert (k' = k) as -> by congruence.
    destruct Hor as [Hn|(ro' & cs & c & HC' & Hu' & Hc)]; [congruence|].
    rewrite HCk in HC'. injection HC' as <-. rewrite Hu in Hu'. injection Hu' as <-.
    by apply elem_of_nil in Hc.
Qed.
End Converged.
End Relist.

(** ** The kernel's rules and routes after the accepted requests *)

Definition rules_after (c : Request) (R : list Rule) : list Rule :=
  nl_rules (netlinkutil.accepted c (mkNetlink R [] [] [] (λ _ _, None))).
Definition routes_after (c : Request) (R : list Route) : list Route :=
  nl_routes (netlinkutil.accepted c (mkNetlink [] R [] [] (λ _ _, None))).

Lemma accepted_rules c nl :
  nl_rules (netlinkutil.accepted c nl) = rules_after c (nl_rules nl).
Proof. by destruct c. Qed.

Lemma accepted_routes c nl :
  nl_routes (netlinkutil.accepted c nl) = routes_after c (nl_routes nl).
Proof. by destruct c. Qed.

Lemma settle_rules evs nl :
  Forall (λ e, ev_err e = None) evs →
  nl_rules (settle evs nl) = foldl (λ R c, rules_after c R) (nl_rules nl) (ev_req <$> evs).
Proof.
  revert nl. induction evs as [|e evs IH]; intros nl Hok; [done|].
  apply Forall_cons in Hok as [He Hok]. simpl. rewrite He, (IH _ Hok).
  by rewrite accepted_rules.
Qed.

Lemma settle_routes evs nl :
  Forall (λ e, ev_err e = None) evs →
  nl_routes (settle evs nl) = foldl (λ R c, routes_after c R) (nl_routes nl) (ev_req <$> evs).
Proof.
  revert nl. induction evs as [|e evs IH]; intros nl Hok; [done|].
  apply Forall_cons in Hok as [He Hok]. simpl. rewrite He, (IH _ Hok).
  by rewrite accepted_routes.
Qed.

Lemma sent_requests evs cs : sent evs = keyed cs → ev_req <$> evs = cs.*2.
Proof.
  intros Hs. apply (f_equal (fmap snd)) in Hs. unfold sent, keyed in Hs.
  by rewrite <- !list_fmap_compose in Hs.
Qed.

(** The rules after a call of [ApplyRules] that returned nil. *)
Lemma ApplyRules_nil_rules o current desired h nl h' nl' :
  ApplyRules o current desired h nl = (h', nl', None) →
  nl_rules nl'
  = afterwards rules_after (nl_rules nl) (rules_plan o (h !!! current) (h !!! desired)).
Proof.
  intros Hret.
  destruct (ApplyRules_sweep o current desired h nl)
    as (h1 & nl1 & evs & Heq & _ & _ & (_ & Hsent & _ & Hobj)).
  rewrite Heq in Hret. injection Hret as -> -> Herr.
  apply AsError_None, failures_nil in Herr.
  destruct Hobj as (-> & _). rewrite (settle_rules _ _ Herr).
  unfold afterwards. by rewrite (sent_requests _ _ Hsent).
Qed.

(** The routes after a call of [ApplyRoutes] that returned nil. *)
Lemma ApplyRoutes_nil_routes o current desired h nl h' nl' :
  ApplyRoutes o current desired h nl = Returned (h', nl', None) →
  routes_complete o (h !!! current) (h !!! desired) = true
  ∧ nl_routes nl'
    = afterwards routes_after (nl_routes nl)
        (routes_plan o (h !!! current) (h !!! desired)).
Proof.
  intros Hret. pose proof (ApplyRoutes_sweep o current desired h nl) as Hsw.
  destruct (routes_complete o (h !!! current) (h !!! desired));
    [|destruct Hsw as (? & ? & ? & ? & _); congruence].
  split; [done|].
  destruct Hsw as (h1 & nl1 & evs & Heq & _ & _ & (_ & Hsent & _ & Hobj)).
  rewrite Heq in Hret. injection Hret as -> -> Herr.
  apply AsError_None, failures_nil in Herr.
  destruct Hobj as (_ & -> & _). rewrite (settle_routes _ _ Herr).
  unfold afterwards. by rewrite (sent_requests _ _ Hsent).
Qed.

Lemma rules_on_node_listing t nl :
  rules_on_node t nl
  = listing RuleKey (λ r, Rule_Family r = FAMILY_V4 ∧ Rule_Table r = t) (nl_rules nl).
Proof. done. Qed.

Lemma routes_on_node_listing t nl :
  routes_on_node t nl
  = listing RouteKey (λ r, Route_Table r = t) (nl_routes nl).
Proof. done. Qed.

Lemma route_upd_replace ro v cs c R :
  route_upd ro v = Some cs → c ∈ cs →
  cs = [c]
  ∧ routes_after c R = (filter (λ x, RouteKey x ≠ RouteKey v) R ++ [v])%list.
Proof.
  unfold route_upd. destruct (routeEqual ro v) as [[|]|]; intros [= <-] Hc.
  - by apply elem_of_nil in Hc.
  - by apply list_elem_of_singleton in Hc as ->.
Qed.

Lemma rule_upd_nothing (ro v : Rule) cs c (R : list Rule) :
  rule_upd ro v = Some cs → c ∈ cs →
  cs = [c]
  ∧ rules_after c R = (filter (λ x, RuleKey x ≠ RuleKey v) R ++ [v])%list.
Proof. intros [= <-] Hc. by apply elem_of_nil in Hc. Qed.

(** ** FDB filtering (C6) *)

(** The map a successful [ListFDBsOnNode] returns: the bridge entries
    of the link with the all-zero hardware address, by the text of
    their IP address. *)
Definition fdbs_on_node (link : Link) (nl : Netlink) : gmap string Neigh :=
  listing (λ n, IP_String (Neigh_IP n))
    (λ n, Neigh_LinkIndex n = Link_Index link ∧ Neigh_Family n = syscall.AF_BRIDGE
          ∧ Neigh_HardwareAddr n = AllZeroMAC)
    (nl_neighs nl).

Lemma ListFDBsOnNode_spec link nl :
  ListFDBsOnNode link nl
  = match nl_fault nl (nl_log nl) (ReqNeighList (Link_Index link) syscall.AF_BRIDGE) with
    | Some e =>
        (logged (mkEvent None (ReqNeighList (Link_Index link) syscall.AF_BRIDGE) (Some e)) nl,
         None, Some e)
    | None =>
        (logged (mkEvent None (ReqNeighList (Link_Index link) syscall.AF_BRIDGE) None) nl,
         Some (fdbs_on_node link nl), None)
    end.
Proof.
  unfold ListFDBsOnNode, netlinkutil.NeighList, netlinkutil.send.
  destruct (nl_fault nl (nl_log nl) (ReqNeighList (Link_Index link) syscall.AF_BRIDGE));
    [done|].
  cbv zeta. f_equal. f_equal. f_equal. apply map_eq. intros k.
  unfold fdbs_on_node. rewrite listing_lookup.
  rewrite (lookup_foldl_insert_if (λ v, IP_String (Neigh_IP v))
             (λ v, HardwareAddr_String (Neigh_HardwareAddr v)
                   = HardwareAddr_String AllZeroMAC)).
  f_equal. rewrite !list_filter_filter. apply list_filter_iff. intros n.
  rewrite HardwareAddr_String_AllZeroMAC. tauto.
Qed.

Lemma ListFDBsOnNode_Some link nl0 nl C :
  ListFDBsOnNode link nl0 = (nl, Some C, None) →
  nl_neighs nl = nl_neighs nl0 ∧ C = fdbs_on_node link nl.
Proof.
  rewrite ListFDBsOnNode_spec.
  destruct (nl_fault nl0 (nl_log nl0) (ReqNeighList (Link_Index link) syscall.AF_BRIDGE));
    [done|].
  by intros [= <- <-].
Qed.

(** C6 as amended. When the listing succeeds, the map [ListFDBsOnNode]
    returns holds bridge-family neighbour entries of the link whose
    hardware address is the all-zero address, each at the text of its IP
    address: the key of every such entry is in the map, with the last
    listed entry of that key as its value, and an entry with any other
    hardware address is never in the map. When no two such entries have
    the same IP text, the map holds exactly these entries: every one of
    them is in it, at the text of its IP address. When the listing
    fails, no map is returned. *)
Theorem ListFDBsOnNode_zero_mac_only link nl :
  let '(nl', fdbs, err) := ListFDBsOnNode link nl in
  match nl_fault nl (nl_log nl) (ReqNeighList (Link_Index link) syscall.AF_BRIDGE) with
  | Some e => fdbs = None ∧ err = Some e
  | None =>
      err = None
      ∧ ∃ m, fdbs = Some m
         ∧ (∀ k, m !! k
                 = last (filter (λ n, Neigh_HardwareAddr n = AllZeroMAC
                                      ∧ IP_String (Neigh_IP n) = k)
                           (link_neighs link nl)))
         ∧ (∀ k n, m !! k = Some n →
                   n ∈ link_neighs link nl
                   ∧ Neigh_HardwareAddr n = AllZeroMAC
                   ∧ IP_String (Neigh_IP n) = k)
         ∧ (∀ n, n ∈ link_neighs link nl → Neigh_HardwareAddr n = AllZeroMAC →
                 is_Some (m !! IP_String (Neigh_IP n)))
         ∧ (∀ k n, Neigh_HardwareAddr n ≠ AllZeroMAC → m !! k ≠ Some n)
         ∧ (NoDup ((λ n, IP_String (Neigh_IP n))
                     <$> filter (λ n, Neigh_HardwareAddr n = AllZeroMAC)
                           (link_neighs link nl)) →
            ∀ n, n ∈ link_neighs link nl → Neigh_HardwareAddr n = AllZeroMAC →
                 m !! IP_String (Neigh_IP n) = Some n)
  end.
Proof.
  unfold ListFDBsOnNode, netlinkutil.NeighList, netlinkutil.send.
  destruct (nl_fault nl (nl_log nl) (ReqNeighList (Link_Index link) syscall.AF_BRIDGE));
    [done|].
  split; [done|]. eexists. split; [done|].
  fold (link_neighs link nl).
  assert (∀ k,
    foldl (λ fdbsOnNode v,
             if decide (HardwareAddr_String (Neigh_HardwareAddr v)
                        = HardwareAddr_String AllZeroMAC)
             then <[IP_String (Neigh_IP v) := v]> fdbsOnNode
             else fdbsOnNode) (∅ : gmap string Neigh) (link_neighs link nl) !! k
    = last (filter (λ n, Neigh_HardwareAddr n = AllZeroMAC ∧ IP_String (Neigh_IP n) = k)
              (link_neighs link nl))) as Hlast.
  { intros k.
    rewrite (lookup_foldl_insert_if (λ v, IP_String (Neigh_IP v))
               (λ v, HardwareAddr_String (Neigh_HardwareAddr v)
                     = HardwareAddr_String AllZeroMAC)).
    f_equal. apply list_filter_iff. intros n.
    by rewrite HardwareAddr_String_AllZeroMAC. }
  split; [exact Hlast|]. split; [|split; [|split]].
  - intros k n Hn. rewrite Hlast in Hn.
    apply last_Some_elem_of, list_elem_of_filter in Hn as [[? ?] ?]. done.
  - intros n Hin Hz. rewrite Hlast. apply last_is_Some. intros Hnil.
    exact (filter_nil_not_elem_of _ _ n Hnil (conj Hz eq_refl) Hin).
  - intros k n Hnz Hn. rewrite Hlast in Hn.
    apply last_Some_elem_of, list_elem_of_filter in Hn as [[? ?] ?]. done.
  - intros Hnd n Hin Hz. rewrite Hlast.
    assert (filter (λ n', Neigh_HardwareAddr n' = AllZeroMAC
                          ∧ IP_String (Neigh_IP n') = IP_String (Neigh_IP n))
              (link_neighs link nl)
            = filter (λ n', IP_String (Neigh_IP n') = IP_String (Neigh_IP n))
                (filter (λ n', Neigh_HardwareAddr n' = AllZeroMAC)
                   (link_neighs link nl))) as ->.
    { rewrite list_filter_filter. apply list_filter_iff. intros n'. tauto. }
    rewrite (filter_key_NoDup (λ n, IP_String (Neigh_IP n)) _ n Hnd); [done|].
    by apply list_elem_of_filter.
Qed.

Example ListFDBsOnNode_skips_learned :
  let flood := mkNeigh 7 syscall.AF_BRIDGE [x0a; x00; x00; x02] AllZeroMAC in
  let learned := mkNeigh 7 syscall.AF_BRIDGE [x0a; x00; x00; x03]
                   [x00; x1a; x2b; x3c; x4d; x5e] in
  let elsewhere := mkNeigh 8 syscall.AF_BRIDGE [x0a; x00; x00; x04] AllZeroMAC in
  let fdbs := default ∅
                (ListFDBsOnNode (mkLink 7) (quiet [] [] [flood; learned; elsewhere])).1.2 in
  fdbs !! "10.0.0.2" = Some flood ∧ fdbs !! "10.0.0.3" = None ∧ fdbs !! "10.0.0.4" = None.
Proof. vm_compute. repeat split; reflexivity. Qed.

(** One all-zero-MAC entry of link 7 and a learned one: the map holds
    the first at the text of its IP address. *)
Lemma ListFDBsOnNode_zero_mac_only_witness :
  let flood := mkNeigh 7 syscall.AF_BRIDGE [x0a; x00; x00; x02] AllZeroMAC in
  let learned := mkNeigh 7 syscall.AF_BRIDGE [x0a; x00; x00; x03]
                   [x00; x1a; x2b; x3c; x4d; x5e] in
  let nl := quiet [] [] [flood; learned] in
  NoDup ((λ n, IP_String (Neigh_IP n))
           <$> filter (λ n, Neigh_HardwareAddr n = AllZeroMAC) (link_neighs (mkLink 7) nl))
  ∧ ∃ m, (ListFDBsOnNode (mkLink 7) nl).1.2 = Some m ∧ m !! "10.0.0.2" = Some flood.
Proof.
  intros flood learned nl.
  assert (NoDup ((λ n, IP_String (Neigh_IP n))
                   <$> filter (λ n, Neigh_HardwareAddr n = AllZeroMAC)
                         (link_neighs (mkLink 7) nl))) as Hnd
    by (vm_compute; apply NoDup_singleton).
  split; [exact Hnd|].
  pose proof (ListFDBsOnNode_zero_mac_only (mkLink 7) nl) as H.
  destruct (ListFDBsOnNode (mkLink 7) nl) as [[nl' fdbs] err].
  change (nl_fault nl (nl_log nl) (ReqNeighList (Link_Index (mkLink 7)) syscall.AF_BRIDGE))
    with (@None error) in H.
  destruct H as (_ & m & -> & _ & _ & _ & _ & Hall). exists m. split; [reflexivity|].
  apply (Hall Hnd flood); [vm_compute; apply list_elem_of_here | reflexivity].
Defined.

(** The same address in its 4-byte and in its 16-byte form, both with
    the all-zero hardware address on link 7: the two entries have the
    same IP text. *)
Definition flood_4_byte : Neigh :=
  mkNeigh 7 syscall.AF_BRIDGE [x0a; x00; x00; x02] AllZeroMAC.
Definition flood_16_byte : Neigh :=
  mkNeigh 7 syscall.AF_BRIDGE (v4InV6Prefix ++ [x0a; x00; x00; x02])%list AllZeroMAC.

(** C6, counterexample. Both entries are bridge-family entries of the
    link with the all-zero hardware address, and the map has only the
    one listed last: the other is at no key. *)
Lemma ListFDBsOnNode_same_ip_text_hidden :
  let nl := quiet [] [] [flood_4_byte; flood_16_byte] in
  let fdbs := default ∅ (ListFDBsOnNode (mkLink 7) nl).1.2 in
  flood_4_byte ∈ link_neighs (mkLink 7) nl
  ∧ Neigh_HardwareAddr flood_4_byte = AllZeroMAC
  ∧ IP_String (Neigh_IP flood_4_byte) = "10.0.0.2"
  ∧ IP_String (Neigh_IP flood_16_byte) = "10.0.0.2"
  ∧ fdbs !! "10.0.0.2" = Some flood_16_byte
  ∧ ∀ k, fdbs !! k ≠ Some flood_4_byte.
Proof.
  intros nl fdbs.
  assert (fdbs !! "10.0.0.2" = Some flood_16_byte) as Hlast by (vm_compute; reflexivity).
  split; [vm_compute; apply list_elem_of_here|].
  split; [reflexivity|]. split; [vm_compute; reflexivity|].
  split; [vm_compute; reflexivity|]. split; [exact Hlast|].
  intros k Hk.
  assert (fdbs = fdbs_on_node (mkLink 7) nl) as Hm
    by (unfold fdbs; by rewrite ListFDBsOnNode_spec).
  assert (k = "10.0.0.2") as ->.
  { rewrite Hm in Hk. by apply listing_Some in Hk as (_ & _ & <-). }
  rewrite Hlast in Hk. discriminate Hk.
Qed.

(** ** Teardown (C9) *)

Lemma run_errList cs nl errList :
  run cs nl errList = ((run cs nl []).1, (errList ++ (run cs nl []).2)%list).
Proof.
  destruct (run_spec cs nl errList) as (evs & Hlog & Hsent & Herr & _).
  revert nl errList evs Hlog Hsent Herr.
  induction cs as [|[k c] cs IH]; intros nl errList evs Hlog Hsent Herr.
  - simpl. by rewrite app_nil_r.
  - cbn [run]. destruct (netlinkutil.send (Some k) c nl) as [nl1 err].
    destruct (run_spec cs nl1 (errorlist.Append errList err)) as (evs1 & H1 & H2 & H3 & _).
    rewrite (IH nl1 (errorlist.Append errList err) evs1 H1 H2 H3).
    destruct (run_spec cs nl1 (errorlist.Append [] err)) as (evs2 & H4 & H5 & H6 & _).
    rewrite (IH nl1 (errorlist.Append [] err) evs2 H4 H5 H6). simpl.
    f_equal. destruct err; simpl; [by rewrite <- app_assoc | done].
Qed.

Lemma CleanRoutes_loop_run es nl errList :
  CleanRoutes_loop es nl errList
  = ((run (plan_unwanted ReqRouteDel es) nl []).1,
     (errList ++ (Errorf "error deleting routes"
                    <$> (run (plan_unwanted ReqRouteDel es) nl []).2))%list).
Proof.
  revert nl errList. induction es as [|[k v] es IH]; intros nl errList.
  - simpl. by rewrite app_nil_r.
  - cbn [CleanRoutes_loop plan_unwanted fmap list_fmap run fst snd].
    unfold netlinkutil.RouteDel.
    destruct (netlinkutil.send (Some k) (ReqRouteDel v) nl) as [nl1 [e|]].
    + rewrite IH, (run_errList _ nl1 (errorlist.Append [] (Some e))). simpl.
      by rewrite <- app_assoc.
    + by rewrite IH.
Qed.

Lemma NoDup_fmap_finer {A B C} (f : A → B) (g : A → C) (l : list A) :
  (∀ x y, x ∈ l → y ∈ l → f x = f y → g x = g y) →
  NoDup (g <$> l) → NoDup (f <$> l).
Proof.
  induction l as [|a l IH]; intros Hfg Hnd; [constructor|].
  rewrite fmap_cons, NoDup_cons in Hnd. destruct Hnd as [Ha Hnd].
  rewrite fmap_cons. apply NoDup_cons. split.
  - intros (y & Hy & Hin)%list_elem_of_fmap. apply Ha.
    rewrite (Hfg a y (list_elem_of_here _ _) (list_elem_of_further _ _ _ Hin) Hy).
    by apply list_elem_of_fmap_2.
  - apply IH; [|done]. intros x y Hx Hy.
    apply Hfg; by apply list_elem_of_further.
Qed.

(** Routes of one table with different destination texts have different
    keys. *)
Lemma NoDup_RouteKey_table t nl :
  NoDup ((λ r, IPNet_String (Route_Dst r)) <$> table_routes t nl) →
  NoDup (RouteKey <$> table_routes t nl).
Proof.
  apply NoDup_fmap_finer. intros x y _ _ Hk. by apply RouteKey_eq in Hk as [? _].
Qed.

(** C9 as amended. [CleanRoutesOnNode] lists the routes of the table and
    sends a delete for every entry of the map the listing is keyed into,
    in the order of the loop: the deletes are deletes of listed routes,
    and a listed route gets one exactly when it is the last listed route
    of its key. So every listed route gets a delete when no two listed
    routes have the same destination. The call returns nil when nothing
    failed and otherwise one error list with the failure of every
    rejected delete. When the listing fails, no delete is sent, the
    kernel objects are untouched and the error returned is the listing
    failure. *)
Theorem CleanRoutesOnNode_teardown o routeTableID nl :
  let '(nl', err) := CleanRoutesOnNode o routeTableID nl in
  match nl_fault nl (nl_log nl) (ReqRouteList FAMILY_V4 routeTableID) with
  | Some e =>
      issued nl nl' = [mkEvent None (ReqRouteList FAMILY_V4 routeTableID) (Some e)]
      ∧ err = Some [Errorf "error listing routes" e]
      ∧ same_objects nl' nl
  | None =>
      ∃ evs,
        issued nl nl' = mkEvent None (ReqRouteList FAMILY_V4 routeTableID) None :: evs
        ∧ sent evs = keyed (plan_unwanted ReqRouteDel
                              (range o (routes_on_node routeTableID nl)))
        ∧ (∀ k v, routes_on_node routeTableID nl !! k = Some v →
                  ∃ e, e ∈ evs ∧ ev_key e = Some k ∧ ev_req e = ReqRouteDel v)
        ∧ (∀ e, e ∈ evs →
                ∃ r, r ∈ table_routes routeTableID nl ∧ ev_req e = ReqRouteDel r)
        ∧ (∀ r, r ∈ table_routes routeTableID nl →
                ((∃ e, e ∈ evs ∧ ev_req e = ReqRouteDel r)
                 ↔ last (filter (λ x, RouteKey x = RouteKey r)
                           (table_routes routeTableID nl)) = Some r))
        ∧ (NoDup ((λ r, IPNet_String (Route_Dst r)) <$> table_routes routeTableID nl) →
           ∀ r, r ∈ table_routes routeTableID nl →
                ∃ e, e ∈ evs ∧ ev_req e = ReqRouteDel r)
        ∧ err = errorlist.AsError (Errorf "error deleting routes" <$> failures evs)
        ∧ same_objects nl' (settle evs nl)
  end.
Proof.
  unfold CleanRoutesOnNode. rewrite ListRoutesOnNode_spec.
  destruct (nl_fault nl (nl_log nl) (ReqRouteList FAMILY_V4 routeTableID)) as [e|].
  - simpl.
    assert (range o (∅ : gmap string Route) = []) as ->.
    { apply Permutation_nil_r. by rewrite (range_perm o), map_to_list_empty. }
    simpl. split; [|done]. by apply issued_app.
  - change (default ∅ (Some (routes_on_node routeTableID nl)))
      with (routes_on_node routeTableID nl).
    rewrite CleanRoutes_loop_run. cbn [app].
    set (nl0 := logged (mkEvent None (ReqRouteList FAMILY_V4 routeTableID) None) nl).
    set (cs := plan_unwanted ReqRouteDel (range o (routes_on_node routeTableID nl))).
    destruct (run_swept cs nl0) as (evs & (Hlog & Hsent & _ & Hobj) & Herr).
    assert (∀ k v, routes_on_node routeTableID nl !! k = Some v →
                   ∃ e, e ∈ evs ∧ ev_key e = Some k ∧ ev_req e = ReqRouteDel v) as Hdel.
    { intros k v Hkv. apply (keyed_elem_of _ _ _ _ Hsent).
      apply elem_of_plan_unwanted. exists v. split; [by apply elem_of_range | done]. }
    assert (∀ e, e ∈ evs →
                 ∃ k r, routes_on_node routeTableID nl !! k = Some r
                        ∧ ev_req e = ReqRouteDel r) as Hevs.
    { intros e He. destruct (sent_elem_of _ _ _ Hsent He) as (k & _ & Hin).
      apply elem_of_plan_unwanted in Hin as (r & Hr & Hc). apply elem_of_range in Hr.
      by exists k, r. }
    exists evs. split; [|split; [done|split; [done|split; [|split; [|split; [|split]]]]]].
    + apply issued_app. rewrite Hlog. unfold nl0. simpl. by rewrite <- app_assoc.
    + intros e (k & r & Hr & Hc)%Hevs. exists r. split; [|done].
      rewrite routes_on_node_listing in Hr. apply listing_Some in Hr as (Hin & Ht & _).
      by apply list_elem_of_filter.
    + intros r Hr. rewrite <- (lookup_foldl_insert RouteKey). fold (routes_on_node routeTableID nl).
      split.
      * intros (e & (k & r' & Hr' & Hc)%Hevs & He). rewrite Hc in He. injection He as ->.
        rewrite routes_on_node_listing in Hr'. pose proof Hr' as Hk.
        apply listing_Some in Hk as (_ & _ & ->). by rewrite routes_on_node_listing.
      * intros (e & He & _ & Hreq)%Hdel. by exists e.
    + intros Hnd r Hr. apply NoDup_RouteKey_table in Hnd.
      apply list_elem_of_filter in Hr as [Ht Hr].
      destruct (Hdel (RouteKey r) r) as (e & He & _ & Hreq); [|by exists e].
      rewrite routes_on_node_listing. by apply listing_NoDup.
    + by rewrite Herr.
    + eapply same_objects_trans; [exact Hobj|]. by apply settle_same_objects.
Qed.

(** One route in the table: it is listed and deleted. *)
Lemma CleanRoutesOnNode_teardown_witness :
  let nl := quiet [] [via_1_1_1_1] [] in
  NoDup ((λ r, IPNet_String (Route_Dst r)) <$> table_routes 100 nl)
  ∧ via_1_1_1_1 ∈ table_routes 100 nl
  ∧ ∃ e, e ∈ issued nl (CleanRoutesOnNode map_to_list_order 100 nl).1
         ∧ ev_req e = ReqRouteDel via_1_1_1_1.
Proof.
  intros nl.
  assert (NoDup ((λ r, IPNet_String (Route_Dst r)) <$> table_routes 100 nl)) as Hnd
    by (vm_compute; apply NoDup_singleton).
  assert (via_1_1_1_1 ∈ table_routes 100 nl) as Hin
    by (vm_compute; apply list_elem_of_here).
  split; [exact Hnd|]. split; [exact Hin|].
  pose proof (CleanRoutesOnNode_teardown map_to_list_order 100 nl) as H.
  destruct (CleanRoutesOnNode map_to_list_order 100 nl) as [nl' err].
  change (nl_fault nl (nl_log nl) (ReqRouteList FAMILY_V4 100)) with (@None error) in H.
  destruct H as (evs & Hiss & _ & _ & _ & _ & Hall & _).
  destruct (Hall Hnd _ Hin) as (e & He & Hreq).
  exists e. cbn [fst]. rewrite Hiss. split; [by apply list_elem_of_further | exact Hreq].
Defined.

(** C9, counterexample. Two routes of table 100 to the same destination
    through different gateways: both are listed, one delete is sent,
    nil is returned and the other route stays in the table. *)
Lemma CleanRoutesOnNode_same_destination_left :
  let nl := quiet [] [via_1_1_1_1; via_2_2_2_2] [] in
  let '(nl', err) := CleanRoutesOnNode map_to_list_order 100 nl in
  table_routes 100 nl = [via_1_1_1_1; via_2_2_2_2]
  ∧ ev_req <$> nl_log nl' = [ReqRouteList FAMILY_V4 100; ReqRouteDel via_2_2_2_2]
  ∧ err = None
  ∧ nl_routes nl' = [via_1_1_1_1].
Proof. vm_compute. repeat split; reflexivity. Qed.

Lemma CleanRules_loop_run es nl errList :
  CleanRules_loop es nl errList
  = ((run (plan_unwanted ReqRuleDel es) nl []).1,
     (errList ++ (Errorf "error deleting rules"
                    <$> (run (plan_unwanted ReqRuleDel es) nl []).2))%list).
Proof.
  revert nl errList. induction es as [|[k v] es IH]; intros nl errList.
  - simpl. by rewrite app_nil_r.
  - cbn [CleanRules_loop plan_unwanted fmap list_fmap run fst snd].
    unfold netlinkutil.RuleDel.
    destruct (netlinkutil.send (Some k) (ReqRuleDel v) nl) as [nl1 [e|]].
    + rewrite IH, (run_errList _ nl1 (errorlist.Append [] (Some e))). simpl.
      by rewrite <- app_assoc.
    + by rewrite IH.
Qed.

(** X16. [CleanRulesOnNode] is the same teardown for the rules of the
    table: it lists the IPv4 rules of the table and sends a delete for
    every entry of the listing, in the order of the loop, going on when
    a delete is rejected; it returns nil when nothing failed and
    otherwise one error list with the failure of every rejected delete,
    each prefixed with "error deleting rules". When the listing fails,
    no delete is sent, the kernel objects are untouched and the error
    returned is the listing failure, prefixed with "error listing
    rules". *)
Lemma CleanRulesOnNode_teardown o routeTableID nl :
  let '(nl', err) := CleanRulesOnNode o routeTableID nl in
  match nl_fault nl (nl_log nl) (ReqRuleList FAMILY_V4 routeTableID) with
  | Some e =>
      issued nl nl' = [mkEvent None (ReqRuleList FAMILY_V4 routeTableID) (Some e)]
      ∧ err = Some [Errorf "error listing rules" e]
      ∧ same_objects nl' nl
  | None =>
      ∃ evs,
        issued nl nl' = mkEvent None (ReqRuleList FAMILY_V4 routeTableID) None :: evs
        ∧ sent evs = keyed (plan_unwanted ReqRuleDel
                              (range o (rules_on_node routeTableID nl)))
        ∧ err = errorlist.AsError (Errorf "error deleting rules" <$> failures evs)
        ∧ same_objects nl' (settle evs nl)
  end.
Proof.
  unfold CleanRulesOnNode. rewrite ListRulesOnNode_spec.
  destruct (nl_fault nl (nl_log nl) (ReqRuleList FAMILY_V4 routeTableID)) as [e|].
  - simpl.
    assert (range o (∅ : gmap string Rule) = []) as ->.
    { apply Permutation_nil_r. by rewrite (range_perm o), map_to_list_empty. }
    simpl. split; [|done]. by apply issued_app.
  - change (default ∅ (Some (rules_on_node routeTableID nl)))
      with (rules_on_node routeTableID nl).
    rewrite CleanRules_loop_run. cbn [app].
    set (nl0 := logged (mkEvent None (ReqRuleList FAMILY_V4 routeTableID) None) nl).
    set (cs := plan_unwanted ReqRuleDel (range o (rules_on_node routeTableID nl))).
    destruct (run_swept cs nl0) as (evs & (Hlog & Hsent & _ & Hobj) & Herr).
    exists evs. split; [|split; [done|split]].
    + apply issued_app. rewrite Hlog. unfold nl0. simpl. by rewrite <- app_assoc.
    + by rewrite Herr.
    + eapply same_objects_trans; [exact Hobj|]. by apply settle_same_objects.
Qed.

Example CleanRoutesOnNode_listing_fails :
  let down := mkNetlink [] [via_1_1_1_1] [] []
                (λ _ c, match c with
                        | ReqRouteList _ _ => Some "netlink receive: timeout"
                        | _ => None
                        end) in
  let '(nl', err) := CleanRoutesOnNode map_to_list_order 100 down in
  nl_routes nl' = [via_1_1_1_1]
  ∧ length (nl_log nl') = 1%nat
  ∧ err = Some ["error listing routes: netlink receive: timeout"].
Proof. vm_compute. repeat split; reflexivity. Qed.

Example CleanRoutesOnNode_deletes_all :
  let '(nl', err) :=
    CleanRoutesOnNode map_to_list_order 100 (quiet [] [via_1_1_1_1] []) in
  nl_routes nl' = []
  ∧ ev_req <$> nl_log nl' = [ReqRouteList FAMILY_V4 100; ReqRouteDel via_1_1_1_1]
  ∧ err = None.
Proof. vm_compute. repeat split; reflexivity. Qed.

(** ** Completeness of [ApplyRules] (C1) *)

Lemma ListRulesOnNode_Some t nl0 nl C :
  ListRulesOnNode t nl0 = (nl, Some C, None) →
  nl_rules nl = nl_rules nl0 ∧ C = rules_on_node t nl.
Proof.
  rewrite ListRulesOnNode_spec.
  destruct (nl_fault nl0 (nl_log nl0) (ReqRuleList FAMILY_V4 t)); [done|].
  by intros [= <- <-].
Qed.

(** C1 as amended. Let the current map be what [ListRulesOnNode] has
    just returned for the table, from a kernel in which no two rules of
    the table have the same key, and let the desired map be keyed by
    [RuleKey] and hold IPv4 rules of the table. If [ApplyRules] returns
    nil, the keys of the rules of the table in the kernel are the keys
    of desired: every desired key has a rule, the desired one where
    current had none, and the rule of every key in current only is gone.
    Listing again gives a map with the keys of desired. *)
Theorem ApplyRules_complete o current desired routeTableID h nl0 nl h' nl' :
  ListRulesOnNode routeTableID nl0 = (nl, Some (h !!! current), None) →
  NoDup (RuleKey <$> table_rules routeTableID nl) →
  (∀ k v, (h !!! desired) !! k = Some v →
          RuleKey v = k ∧ Rule_Family v = FAMILY_V4 ∧ Rule_Table v = routeTableID) →
  ApplyRules o current desired h nl = (h', nl', None) →
  dom (rules_on_node routeTableID nl') = dom (h !!! desired)
  ∧ (∀ k v, (h !!! desired) !! k = Some v →
            ∃ x, rules_on_node routeTableID nl' !! k = Some x
                 ∧ (x = v ∨ (h !!! current) !! k = Some x))
  ∧ (∀ k v, (h !!! desired) !! k = Some v → (h !!! current) !! k = None →
            v ∈ nl_rules nl')
  ∧ (∀ k w, (h !!! current) !! k = Some w → (h !!! desired) !! k = None →
            w ∉ nl_rules nl')
  ∧ (∀ nl'' m, ListRulesOnNode routeTableID nl' = (nl'', Some m, None) →
               dom m = dom (h !!! desired)).
Proof.
  intros Hlist Hnd HD Hret.
  apply ListRulesOnNode_Some in Hlist as [_ HC].
  rewrite rules_on_node_listing in HC.
  pose proof (ApplyRules_nil_rules _ _ _ _ _ _ _ Hret) as Hrules.
  set (tbl := λ r, Rule_Family r = FAMILY_V4 ∧ Rule_Table r = routeTableID) in *.
  assert (∀ k v, (h !!! desired) !! k = Some v → RuleKey v = k ∧ tbl v) as HD'
    by (intros k v Hkv; destruct (HD k v Hkv) as (? & ? & ?); done).
  assert (nl_rules nl'
          = converged ReqRuleAdd ReqRuleDel rule_upd rules_after o
              (h !!! current) (h !!! desired) (nl_rules nl)) as Hconv by done.
  destruct (relisted RuleKey tbl ReqRuleAdd ReqRuleDel rule_upd rules_after
              (λ _ _, eq_refl) (λ _ _, eq_refl) rule_upd_nothing
              o (h !!! current) (h !!! desired) (nl_rules nl) HC Hnd HD'
              (rules_plan_complete _ _)) as [Hdom Hkeys].
  rewrite <- Hconv in Hdom, Hkeys.
  assert (rules_on_node routeTableID nl' = listing RuleKey tbl (nl_rules nl')) as Hl by done.
  rewrite Hl. split; [done|]. split; [|split; [|split]].
  - intros k v Hkv. destruct (Hkeys k v Hkv) as (x & Hx & [->|[? _]]); eauto.
  - intros k v Hkv HCk. destruct (Hkeys k v Hkv) as (x & Hx & [->|[? _]]); [|congruence].
    by apply listing_Some in Hx as (? & _).
  - intros k w HCk HDk. rewrite Hconv.
    by apply (converged_absent RuleKey tbl ReqRuleAdd ReqRuleDel rule_upd rules_after
                (λ _ _, eq_refl) (λ _ _, eq_refl) rule_upd_nothing
                o _ _ _ HD' (rules_plan_complete _ _) k w).
  - intros nl'' m Hm. apply ListRulesOnNode_Some in Hm as [Hr ->].
    rewrite rules_on_node_listing, Hr. exact Hdom.
Qed.

(** Two rules of table 100 with the same source prefix and different
    priorities, listed, and nothing desired. *)
Definition net_10_1_0_0_16 : IPNet := mkIPNet [x0a; x01; x00; x00] (CIDRMask 16 32).
Definition rule_prio_1 : Rule := mkRule 1 100 FAMILY_V4 (Some net_10_1_0_0_16).
Definition rule_prio_2 : Rule := mkRule 2 100 FAMILY_V4 (Some net_10_1_0_0_16).

Definition same_prefix_listed : Netlink * option (gmap string Rule) * option error :=
  ListRulesOnNode 100 (quiet [rule_prio_1; rule_prio_2] [] []).

Definition same_prefix_maps : heap Rule :=
  <[ 1%positive := default ∅ same_prefix_listed.1.2 ]> {[ 2%positive := ∅ ]}.

Definition same_prefix_applied : heap Rule * Netlink * option errorlist.List :=
  ApplyRules map_to_list_order 1%positive 2%positive same_prefix_maps
    same_prefix_listed.1.1.

(** C1, counterexample. The kernel holds two rules with the same source
    prefix; the listing succeeds and keeps the second under their key;
    with nothing desired, [ApplyRules] deletes that one and returns nil;
    the first rule is still in the kernel, so the keys of the rules of
    the table are not the keys of desired. *)
Lemma ApplyRules_same_prefix_left_over :
  same_prefix_listed.2 = None
  ∧ same_prefix_listed.1.2 = Some (same_prefix_maps !!! 1%positive)
  ∧ (same_prefix_maps !!! 1%positive) !! "10.1.0.0/16" = Some rule_prio_2
  ∧ same_prefix_maps !!! 2%positive = (∅ : gmap string Rule)
  ∧ same_prefix_applied.2 = None
  ∧ nl_rules same_prefix_applied.1.2 = [rule_prio_1]
  ∧ dom (rules_on_node 100 same_prefix_applied.1.2)
    ≠ dom (same_prefix_maps !!! 2%positive).
Proof.
  assert (rules_on_node 100 same_prefix_applied.1.2 !! "10.1.0.0/16" = Some rule_prio_1)
    as Hleft by (vm_compute; reflexivity).
  assert (same_prefix_maps !!! 2%positive = (∅ : gmap string Rule)) as Hdesired.
  { unfold same_prefix_maps. rewrite lookup_total_insert_ne by done.
    apply lookup_total_singleton_eq. }
  split; [vm_compute; reflexivity|].
  split.
  { unfold same_prefix_maps. rewrite lookup_total_insert_eq.
    unfold same_prefix_listed. rewrite ListRulesOnNode_spec. reflexivity. }
  split; [vm_compute; reflexivity|]. split; [exact Hdesired|].
  split; [vm_compute; reflexivity|]. split; [vm_compute; reflexivity|].
  rewrite Hdesired, dom_empty_L. intros Heq.
  assert ("10.1.0.0/16" ∈ dom (rules_on_node 100 same_prefix_applied.1.2)) as Hin
    by (apply elem_of_dom; rewrite Hleft; by eexists).
  rewrite Heq in Hin. by apply not_elem_of_empty in Hin.
Qed.

(** The scenario of one rule to add: nothing current, one desired rule. *)
Definition one_rule_desired : heap Rule :=
  <[ 1%positive := ∅ ]> {[ 2%positive := {[ "10.1.0.0/16" := rule_prio_1 ]} ]}.

Lemma ApplyRules_complete_witness :
  ∃ nl h' nl',
    ListRulesOnNode 100 (quiet [] [] [])
    = (nl, Some (one_rule_desired !!! 1%positive), None)
    ∧ ApplyRules map_to_list_order 1%positive 2%positive one_rule_desired nl
      = (h', nl', None)
    ∧ dom (rules_on_node 100 nl') = dom (one_rule_desired !!! 2%positive).
Proof.
  assert (one_rule_desired !!! 1%positive = (∅ : gmap string Rule)) as Hcur
    by apply lookup_total_insert_eq.
  assert (one_rule_desired !!! 2%positive
          = ({[ "10.1.0.0/16" := rule_prio_1 ]} : gmap string Rule)) as Hdes.
  { unfold one_rule_desired. rewrite lookup_total_insert_ne by done.
    apply lookup_total_singleton_eq. }
  pose (nl := logged (mkEvent None (ReqRuleList FAMILY_V4 100) None) (quiet [] [] [])).
  assert (ListRulesOnNode 100 (quiet [] [] [])
          = (nl, Some (one_rule_desired !!! 1%positive), None)) as Hlist.
  { rewrite ListRulesOnNode_spec, Hcur. reflexivity. }
  destruct (ApplyRules map_to_list_order 1%positive 2%positive one_rule_desired nl)
    as [[h' nl'] err] eqn:Hret.
  assert (err = None) as ->.
  { pose proof (f_equal snd Hret) as Herr. vm_compute in Herr. by symmetry. }
  exists nl, h', nl'. split; [exact Hlist|]. split; [exact Hret|].
  refine (proj1 (ApplyRules_complete _ _ _ _ _ _ _ _ _ Hlist _ _ Hret)).
  - vm_compute. constructor.
  - intros k v Hkv. rewrite Hdes in Hkv.
    apply lookup_singleton_Some in Hkv as [<- <-]. vm_compute.
    repeat split; reflexivity.
Defined.

(** ** Idempotence of [ApplyRoutes] (C5) *)

Lemma ListRoutesOnNode_Some t nl0 nl C :
  ListRoutesOnNode t nl0 = (nl, Some C, None) →
  nl_routes nl = nl_routes nl0 ∧ C = routes_on_node t nl.
Proof.
  rewrite ListRoutesOnNode_spec.
  destruct (nl_fault nl0 (nl_log nl0) (ReqRouteList FAMILY_V4 t)); [done|].
  by intros [= <- <-].
Qed.

Lemma IP_Equal_refl ip : IP_Equal ip ip = true.
Proof.
  unfold IP_Equal. destruct (decide (length ip = length ip)); [|done].
  by apply bool_decide_eq_true_2.
Qed.

(** A route with a destination is equal to itself; one without makes
    the comparison panic. *)
Lemma route_upd_refl v :
  route_upd v v = match Route_Dst v with
                  | Some _ => Some []
                  | None => None
                  end.
Proof.
  unfold route_upd, routeEqual, bytes_Equal. destruct (Route_Dst v); [|done].
  by rewrite !IP_Equal_refl, !bool_decide_eq_true_2.
Qed.

Lemma range_empty (o : RangeOrder) {V} : range o (∅ : gmap string V) = [].
Proof. apply Permutation_nil_r. by rewrite (range_perm o), map_to_list_empty. Qed.

(** A loop over [desired] that finds every entry matched and equal, up
    to the one at which it panics, sends nothing. *)
Lemma plan_desired_nothing {V} (add : V → Request) upd (C : gmap string V) es :
  (∀ k v, (k, v) ∈ es → ∃ x, C !! k = Some x ∧ (upd x v = Some [] ∨ upd x v = None)) →
  (plan_desired add upd C es).1 = [].
Proof.
  induction es as [|[k v] es IH]; intros Hes; [done|].
  destruct (Hes k v (list_elem_of_here _ _)) as (x & Hx & Hu). simpl. rewrite Hx.
  destruct Hu as [->| ->]; [|done]. simpl. apply IH.
  intros k' v' Hin. apply Hes. by apply list_elem_of_further.
Qed.

Lemma plan_desired_panics {V} (add : V → Request) upd (C : gmap string V) es :
  (plan_desired add upd C es).2 = false →
  ∃ k v ro, (k, v) ∈ es ∧ C !! k = Some ro ∧ upd ro v = None.
Proof.
  induction es as [|[k v] es IH]; [done|]. simpl.
  destruct (C !! k) as [ro|] eqn:HC.
  - destruct (upd ro v) as [cs|] eqn:Hu; simpl.
    + intros (k' & v' & ro' & Hin & ?)%IH. exists k', v', ro'.
      split; [by apply list_elem_of_further | done].
    + intros _. exists k, v, ro. split; [apply list_elem_of_here | done].
  - simpl. intros (k' & v' & ro' & Hin & ?)%IH. exists k', v', ro'.
    split; [by apply list_elem_of_further | done].
Qed.

Lemma swept_nothing nl nl' evs :
  swept [] nl nl' evs → issued nl nl' = [] ∧ evs = [] ∧ same_objects nl' nl.
Proof.
  intros Hsw. pose proof (swept_issued _ _ _ _ Hsw) as Hi.
  destruct Hsw as (_ & Hs & _ & Hobj). apply fmap_sent_nil in Hs. subst evs.
  done.
Qed.

(** C5 as amended. Let the current map be what [ListRoutesOnNode] has
    just returned for the table, from a kernel in which no two routes of
    the table have the same key, and let the desired map be keyed by
    [RouteKey] and hold routes of the table. If [ApplyRoutes] returns
    nil and the table is listed again, a second call with the new
    listing as current and the same desired routes sends no request: no
    add, no replace, no delete. It returns nil, unless a desired route
    has no destination, on which [routeEqual] panics. *)
Theorem ApplyRoutes_idempotent o o2 current desired current2 desired2 routeTableID
    h nl0 nl h' nl' h2 nl2 :
  ListRoutesOnNode routeTableID nl0 = (nl, Some (h !!! current), None) →
  NoDup (RouteKey <$> table_routes routeTableID nl) →
  (∀ k v, (h !!! desired) !! k = Some v →
          RouteKey v = k ∧ Route_Table v = routeTableID) →
  ApplyRoutes o current desired h nl = Returned (h', nl', None) →
  ListRoutesOnNode routeTableID nl' = (nl2, Some (h2 !!! current2), None) →
  h2 !!! desired2 = h !!! desired →
  match ApplyRoutes o2 current2 desired2 h2 nl2 with
  | Returned (_, nl3, err) =>
      issued nl2 nl3 = [] ∧ err = None ∧ same_objects nl3 nl2
  | Panicked _ nl3 =>
      issued nl2 nl3 = [] ∧ same_objects nl3 nl2
      ∧ ∃ k v, (h !!! desired) !! k = Some v ∧ Route_Dst v = None
  end.
Proof.
  intros Hlist Hnd HD Hret Hlist2 Hdes2.
  apply ListRoutesOnNode_Some in Hlist as [_ HC].
  apply ListRoutesOnNode_Some in Hlist2 as [Hr2 HC2].
  rewrite routes_on_node_listing in HC, HC2.
  destruct (ApplyRoutes_nil_routes _ _ _ _ _ _ _ Hret) as [Hok Hroutes].
  set (tbl := λ r, Route_Table r = routeTableID) in *.
  assert (∀ k v, (h !!! desired) !! k = Some v → RouteKey v = k ∧ tbl v) as HD'
    by exact HD.
  assert (nl_routes nl'
          = converged ReqRouteAdd ReqRouteDel route_upd routes_after o
              (h !!! current) (h !!! desired) (nl_routes nl)) as Hconv by done.
  destruct (relisted RouteKey tbl ReqRouteAdd ReqRouteDel route_upd routes_after
              (λ _ _, eq_refl) (λ _ _, eq_refl) route_upd_replace
              o (h !!! current) (h !!! desired) (nl_routes nl) HC Hnd HD' Hok)
    as [Hdom Hkeys].
  rewrite <- Hconv, <- Hr2, <- HC2 in Hdom, Hkeys. rewrite <- Hdes2 in Hdom.
  assert ((h2 !!! current2) ∖ (h2 !!! desired2) = ∅) as Hnone.
  { apply map_empty. intros k. apply lookup_difference_None.
    destruct ((h2 !!! desired2) !! k) eqn:E; [right; by eexists | left].
    apply not_elem_of_dom. rewrite Hdom. by apply not_elem_of_dom. }
  assert ((plan_desired ReqRouteAdd route_upd (h2 !!! current2)
             (range o2 (h2 !!! desired2))).1 = []) as Hplan.
  { apply plan_desired_nothing. intros k v Hkv. apply elem_of_range in Hkv.
    rewrite Hdes2 in Hkv. destruct (Hkeys k v Hkv) as (x & Hx & [->|[_ Hu]]).
    - exists v. split; [done|]. rewrite route_upd_refl. destruct (Route_Dst v); auto.
    - exists x. auto. }
  pose proof (ApplyRoutes_sweep o2 current2 desired2 h2 nl2) as Hsw.
  unfold routes_plan in Hsw. rewrite Hplan, Hnone, range_empty in Hsw.
  destruct (routes_complete o2 (h2 !!! current2) (h2 !!! desired2)) eqn:Hok2.
  - destruct Hsw as (h3 & nl3 & evs & -> & _ & _ & Hsw).
    apply swept_nothing in Hsw as (? & -> & ?). done.
  - destruct Hsw as (h3 & nl3 & evs & -> & Hsw).
    apply swept_nothing in Hsw as (? & -> & ?). split; [done|]. split; [done|].
    apply plan_desired_panics in Hok2 as (k & v & ro & Hkv & Hro & Hu).
    apply elem_of_range in Hkv. rewrite Hdes2 in Hkv.
    destruct (Hkeys k v Hkv) as (x & Hx & Hor). rewrite Hro in Hx. injection Hx as ->.
    exists k, v. split; [done|]. destruct Hor as [->|[_ Hu']]; [|congruence].
    rewrite route_upd_refl in Hu. by destruct (Route_Dst v).
Qed.

(** The kernel after a call of [ApplyRoutes], and what the call
    returned, if it did. *)
Definition after_call (r : outcome (heap Route * Netlink * option errorlist.List))
  : Netlink :=
  match r with
  | Returned (_, nl, _) => nl
  | Panicked _ nl => nl
  end.
Definition returned_error (r : outcome (heap Route * Netlink * option errorlist.List))
  : option (option errorlist.List) :=
  match r with
  | Returned (_, _, err) => Some err
  | Panicked _ _ => None
  end.

(** Two routes of table 100 to the same destination, listed, and
    nothing desired; then the table listed again and a second call. *)
Definition same_dst_listed : Netlink * option (gmap string Route) * option error :=
  ListRoutesOnNode 100 (quiet [] [via_1_1_1_1; via_2_2_2_2] []).
Definition same_dst_maps : heap Route :=
  <[ 1%positive := default ∅ same_dst_listed.1.2 ]> {[ 2%positive := ∅ ]}.
Definition same_dst_first : outcome (heap Route * Netlink * option errorlist.List) :=
  ApplyRoutes map_to_list_order 1%positive 2%positive same_dst_maps same_dst_listed.1.1.
Definition same_dst_relisted : Netlink * option (gmap string Route) * option error :=
  ListRoutesOnNode 100 (after_call same_dst_first).
Definition same_dst_maps2 : heap Route :=
  <[ 1%positive := default ∅ same_dst_relisted.1.2 ]> {[ 2%positive := ∅ ]}.
Definition same_dst_second : outcome (heap Route * Netlink * option errorlist.List) :=
  ApplyRoutes map_to_list_order 1%positive 2%positive same_dst_maps2
    same_dst_relisted.1.1.

(** C5, counterexample. The kernel holds two routes with the same
    destination and table; the listing keeps the second; with nothing
    desired the first call deletes it and returns nil; listed again, the
    table shows the first route, and the second call sends a delete. *)
Lemma ApplyRoutes_same_destination_second_delete :
  same_dst_listed.2 = None
  ∧ same_dst_listed.1.2 = Some (same_dst_maps !!! 1%positive)
  ∧ returned_error same_dst_first = Some None
  ∧ same_dst_relisted.2 = None
  ∧ same_dst_relisted.1.2 = Some (same_dst_maps2 !!! 1%positive)
  ∧ same_dst_maps2 !!! 2%positive = same_dst_maps !!! 2%positive
  ∧ sent (issued same_dst_relisted.1.1 (after_call same_dst_second))
    = [(Some "10.0.0.0/24-100", ReqRouteDel via_1_1_1_1)]
  ∧ issued same_dst_relisted.1.1 (after_call same_dst_second) ≠ [].
Proof.
  assert (sent (issued same_dst_relisted.1.1 (after_call same_dst_second))
          = [(Some "10.0.0.0/24-100", ReqRouteDel via_1_1_1_1)]) as Hsent
    by (vm_compute; reflexivity).
  split; [vm_compute; reflexivity|].
  split.
  { unfold same_dst_maps. rewrite lookup_total_insert_eq.
    unfold same_dst_listed. rewrite ListRoutesOnNode_spec. reflexivity. }
  split; [vm_compute; reflexivity|]. split; [vm_compute; reflexivity|].
  split.
  { unfold same_dst_maps2. rewrite lookup_total_insert_eq.
    assert (same_dst_relisted.2 = None) as Hnone by (vm_compute; reflexivity).
    unfold same_dst_relisted in *. rewrite ListRoutesOnNode_spec in *.
    destruct (nl_fault _ _ _); [discriminate Hnone | reflexivity]. }
  split.
  { unfold same_dst_maps2, same_dst_maps. by rewrite !lookup_total_insert_ne. }
  split; [exact Hsent|]. intros Hnil. rewrite Hnil in Hsent. discriminate Hsent.
Qed.

(** The scenario of a changed gateway, with the current map listed from
    the kernel. *)
Definition gateway_listed : heap Route :=
  <[ 1%positive := routes_on_node 100 (quiet [] [via_1_1_1_1] []) ]>
    {[ 2%positive := {[ "10.0.0.0/24-100" := via_2_2_2_2 ]} ]}.

Lemma ApplyRoutes_idempotent_witness :
  ∃ nl h' nl' h2 nl2,
    ListRoutesOnNode 100 (quiet [] [via_1_1_1_1] [])
    = (nl, Some (gateway_listed !!! 1%positive), None)
    ∧ ApplyRoutes map_to_list_order 1%positive 2%positive gateway_listed nl
      = Returned (h', nl', None)
    ∧ ListRoutesOnNode 100 nl' = (nl2, Some (h2 !!! 1%positive), None)
    ∧ h2 !!! 2%positive = gateway_listed !!! 2%positive
    ∧ match ApplyRoutes map_to_list_order 1%positive 2%positive h2 nl2 with
      | Returned (_, nl3, err) =>
          issued nl2 nl3 = [] ∧ err = None ∧ same_objects nl3 nl2
      | Panicked _ nl3 =>
          issued nl2 nl3 = [] ∧ same_objects nl3 nl2
          ∧ ∃ k v, (gateway_listed !!! 2%positive) !! k = Some v ∧ Route_Dst v = None
      end.
Proof.
  assert (gateway_listed !!! 2%positive
          = ({[ "10.0.0.0/24-100" := via_2_2_2_2 ]} : gmap string Route)) as Hdes.
  { unfold gateway_listed. rewrite lookup_total_insert_ne by done.
    apply lookup_total_singleton_eq. }
  pose (nl := logged (mkEvent None (ReqRouteList FAMILY_V4 100) None)
                (quiet [] [via_1_1_1_1] [])).
  assert (ListRoutesOnNode 100 (quiet [] [via_1_1_1_1] [])
          = (nl, Some (gateway_listed !!! 1%positive), None)) as Hlist.
  { unfold gateway_listed. rewrite ListRoutesOnNode_spec, lookup_total_insert_eq.
    reflexivity. }
  destruct (ApplyRoutes map_to_list_order 1%positive 2%positive gateway_listed nl)
    as [[[h' nl'] err]|h' nl'] eqn:Hret.
  2:{ exfalso. pose proof (f_equal returned_error Hret) as Herr.
      vm_compute in Herr. discriminate Herr. }
  assert (err = None) as ->.
  { pose proof (f_equal returned_error Hret) as Herr. vm_compute in Herr.
    by injection Herr. }
  assert (nl_fault nl' (nl_log nl') (ReqRouteList FAMILY_V4 100) = None) as Hfault.
  { pose proof (f_equal after_call Hret) as Hnl. vm_compute in Hnl. by rewrite <- Hnl. }
  pose (h2 := <[ 1%positive := routes_on_node 100 nl' ]>
                ({[ 2%positive := {[ "10.0.0.0/24-100" := via_2_2_2_2 ]} ]}
                   : heap Route)).
  pose (nl2 := logged (mkEvent None (ReqRouteList FAMILY_V4 100) None) nl').
  assert (ListRoutesOnNode 100 nl' = (nl2, Some (h2 !!! 1%positive), None)) as Hlist2.
  { unfold h2. rewrite ListRoutesOnNode_spec, Hfault, lookup_total_insert_eq.
    reflexivity. }
  assert (h2 !!! 2%positive = gateway_listed !!! 2%positive) as Hdes2.
  { rewrite Hdes. unfold h2. rewrite lookup_total_insert_ne by done.
    apply lookup_total_singleton_eq. }
  exists nl, h', nl', h2, nl2.
  split; [exact Hlist|]. split; [exact Hret|]. split; [exact Hlist2|].
  split; [exact Hdes2|].
  refine (ApplyRoutes_idempotent _ _ _ _ _ _ _ _ _ _ _ _ _ _ Hlist _ _ Hret Hlist2 Hdes2).
  - vm_compute. apply NoDup_singleton.
  - intros k v Hkv. rewrite Hdes in Hkv.
    apply lookup_singleton_Some in Hkv as [<- <-]. vm_compute.
    split; reflexivity.
Defined.

(** * Further properties of [utils.go] *)

(** ** [RouteKey] and [routeEqual] *)

(** X1. [RouteKey] reads the destination and the table only, and it
    keeps them apart: two routes have the same key exactly when their
    destinations have the same text and their tables are the same,
    whatever their gateways, sources and links are. So routes of
    different tables never share a key. A route without destination has
    the key "<nil>-table"; an IPv4 destination of any prefix length
    gives "a.b.c.d/len-table". *)
Theorem RouteKey_destination_and_table :
  (∀ x y, RouteKey x = RouteKey y
          ↔ IPNet_String (Route_Dst x) = IPNet_String (Route_Dst y)
            ∧ Route_Table x = Route_Table y)
  ∧ (∀ gw src link table,
       RouteKey (mkRoute None gw src link table) = "<nil>-" ++ pretty table)
  ∧ (∀ a b c d gw src link table,
       Forall (λ ones,
                 RouteKey (mkRoute (Some (mkIPNet [a; b; c; d] (CIDRMask ones 32)))
                             gw src link table)
                 = (string4 [a; b; c; d] ++ "/" ++ pretty ones) ++ "-" ++ pretty table)
              (seq 0 33)).
Proof.
  split; [exact RouteKey_eq|]. split; [done|].
  intros a b c d gw src link table. unfold RouteKey. cbn [Route_Dst Route_Table].
  repeat (apply Forall_cons; split;
          [f_equal; apply IPNet_String_v4; vm_compute; reflexivity|]).
  by apply Forall_nil.
Qed.

Lemma IP_Equal_sym a b : IP_Equal a b = IP_Equal b a.
Proof.
  unfold IP_Equal.
  destruct (decide (length a = length b)) as [Hl|Hl].
  - rewrite decide_True by done. apply bool_decide_ext. split; by intros ->.
  - rewrite (decide_False (P := length b = length a)) by done.
    destruct (decide (length a = IPv4len ∧ length b = IPv6len)) as [[Ha Hb]|H1].
    + rewrite (decide_False (P := length b = IPv4len ∧ length a = IPv6len))
        by (rewrite Ha, Hb; by intros [? _]).
      rewrite decide_True by done. f_equal. apply bool_decide_ext. split; by intros ->.
    + destruct (decide (length a = IPv6len ∧ length b = IPv4len)) as [[Ha Hb]|H2].
      * rewrite (decide_True (P := length b = IPv4len ∧ length a = IPv6len)) by done.
        f_equal. apply bool_decide_ext. split; by intros ->.
      * rewrite (decide_False (P := length b = IPv4len ∧ length a = IPv6len))
          by (intros [? ?]; by apply H2).
        rewrite (decide_False (P := length b = IPv6len ∧ length a = IPv4len))
          by (intros [? ?]; by apply H1).
        done.
Qed.

Lemma routeEqual_None x y :
  routeEqual x y = None ↔ Route_Dst x = None ∨ Route_Dst y = None.
Proof.
  unfold routeEqual.
  destruct (Route_Dst x), (Route_Dst y); split; try done; try (by auto).
  by intros [?|?].
Qed.

(** X2. [routeEqual] panics exactly when one of the two routes has no
    destination. When it does not panic it is symmetric, a route is
    equal to itself, and the answer does not depend on the source IPs
    and the tables of the two routes. *)
Theorem routeEqual_symmetric :
  (∀ x y, routeEqual x y = None ↔ Route_Dst x = None ∨ Route_Dst y = None)
  ∧ (∀ x y, routeEqual x y = routeEqual y x)
  ∧ (∀ x, is_Some (Route_Dst x) → routeEqual x x = Some true)
  ∧ (∀ dst1 gw1 link1 dst2 gw2 link2 src1 table1 src2 table2 src1' table1' src2' table2',
       routeEqual (mkRoute dst1 gw1 src1 link1 table1) (mkRoute dst2 gw2 src2 link2 table2)
       = routeEqual (mkRoute dst1 gw1 src1' link1 table1')
           (mkRoute dst2 gw2 src2' link2 table2')).
Proof.
  split; [|split; [|split; [|done]]].
  - apply routeEqual_None.
  - intros x y. unfold routeEqual, bytes_Equal.
    destruct (Route_Dst x) as [xd|], (Route_Dst y) as [yd|]; try done.
    rewrite (IP_Equal_sym (IPNet_IP xd)), (IP_Equal_sym (Route_Gw x)).
    rewrite (bool_decide_ext (IPNet_Mask xd = IPNet_Mask yd) (IPNet_Mask yd = IPNet_Mask xd))
      by (split; by intros ->).
    by rewrite (bool_decide_ext (Route_LinkIndex x = Route_LinkIndex y)
                  (Route_LinkIndex y = Route_LinkIndex x)) by (split; by intros ->).
  - intros x [d Hd]. unfold routeEqual, bytes_Equal. rewrite Hd.
    by rewrite !IP_Equal_refl, !bool_decide_eq_true_2.
Qed.

Lemma routeEqual_symmetric_witness :
  is_Some (Route_Dst via_1_1_1_1) ∧ routeEqual via_1_1_1_1 via_1_1_1_1 = Some true.
Proof.
  assert (is_Some (Route_Dst via_1_1_1_1)) as H by (by eexists).
  split; [exact H|].
  exact (proj1 (proj2 (proj2 routeEqual_symmetric)) via_1_1_1_1 H).
Defined.

(** The address that [IPNet.String] prints: the 4-byte form of an IPv4
    address, a 16-byte address as it is. *)
Definition printed_IP (ip : IP) : option IP :=
  match To4 ip with
  | Some p4 => Some p4
  | None => if decide (length ip = IPv6len) then Some ip else None
  end.

Lemma IP_Equal_printed a b : IP_Equal a b = true → printed_IP a = printed_IP b.
Proof.
  unfold IP_Equal.
  destruct (decide (length a = length b)) as [Hl|Hl].
  { by intros ->%bool_decide_eq_true. }
  assert (∀ p q : IP, length p = IPv4len → length q = IPv6len →
            take 12 q = v4InV6Prefix → p = drop 12 q → printed_IP p = printed_IP q)
    as Hmapped.
  { intros p q Hp Hq Hpre ->. unfold printed_IP, To4.
    rewrite (decide_True (P := length (drop 12 q) = IPv4len)) by done.
    rewrite (decide_False (P := length q = IPv4len)) by (rewrite Hq; done).
    by rewrite decide_True. }
  destruct (decide (length a = IPv4len ∧ length b = IPv6len)) as [[Ha Hb]|H1].
  { intros [H1 H2]%andb_prop. apply bool_decide_eq_true in H1, H2. by apply Hmapped. }
  destruct (decide (length a = IPv6len ∧ length b = IPv4len)) as [[Ha Hb]|H2]; [|done].
  intros [H3 H4]%andb_prop. apply bool_decide_eq_true in H3, H4.
  symmetry. by apply Hmapped.
Qed.

Lemma IPNet_String_printed a b m :
  printed_IP a = printed_IP b →
  IPNet_String (Some (mkIPNet a m)) = IPNet_String (Some (mkIPNet b m)).
Proof.
  intros H. unfold IPNet_String, networkNumberAndMask. cbn [IPNet_IP IPNet_Mask].
  fold (printed_IP a). fold (printed_IP b). by rewrite H.
Qed.

(** X3. Two routes of one table that [routeEqual] finds equal have the
    same [RouteKey]: the comparison and the key agree on what the
    destination is, also when one address is in 4-byte form and the
    other in 16-byte form. *)
Theorem routeEqual_same_RouteKey x y :
  routeEqual x y = Some true → Route_Table x = Route_Table y →
  RouteKey x = RouteKey y.
Proof.
  unfold routeEqual, RouteKey, bytes_Equal. intros He ->.
  destruct (Route_Dst x) as [[xip xm]|], (Route_Dst y) as [[yip ym]|]; try done.
  cbn [IPNet_IP IPNet_Mask] in He. f_equal.
  destruct (IP_Equal xip yip) eqn:E1; [|done].
  destruct (IP_Equal (Route_Gw x) (Route_Gw y)); [|done].
  destruct (decide (xm = ym)) as [->|Hm];
    [|by rewrite (bool_decide_eq_false_2 _ Hm) in He].
  by apply IPNet_String_printed, IP_Equal_printed.
Qed.

Lemma routeEqual_same_RouteKey_witness :
  let short := mkRoute (Some (mkIPNet [x0a; x00; x00; x00] (CIDRMask 24 32)))
                 [x01; x01; x01; x01] [] 3 100 in
  let long := mkRoute (Some (mkIPNet (v4InV6Prefix ++ [x0a; x00; x00; x00])%list
                               (CIDRMask 24 32)))
                (v4InV6Prefix ++ [x01; x01; x01; x01])%list [x09; x09; x09; x09] 3 100 in
  routeEqual short long = Some true
  ∧ Route_Table short = Route_Table long
  ∧ RouteKey short = RouteKey long.
Proof.
  intros short long.
  assert (routeEqual short long = Some true) as He by (vm_compute; reflexivity).
  assert (Route_Table short = Route_Table long) as Ht by reflexivity.
  split; [exact He|]. split; [exact Ht|].
  exact (routeEqual_same_RouteKey short long He Ht).
Defined.

(** ** The listers of rules and routes *)

Lemma logged_issued e nl : issued nl (logged e nl) = [e].
Proof. by apply issued_app. Qed.

(** X4. [ListRulesOnNode] sends one list request for the IPv4 rules of
    the table and changes nothing in the kernel. When the request fails
    it returns that error as it is and no map. When it succeeds it
    returns no error and a map that holds, at each key, the last listed
    rule with that key: every rule of the table has its key in the map,
    every entry is a rule of the table stored at its own [RuleKey], and
    when no two listed rules share a key every listed rule is in the
    map. *)
Theorem ListRulesOnNode_last_rule_wins routeTableID nl :
  let '(nl', rules, err) := ListRulesOnNode routeTableID nl in
  err = nl_fault nl (nl_log nl) (ReqRuleList FAMILY_V4 routeTableID)
  ∧ issued nl nl' = [mkEvent None (ReqRuleList FAMILY_V4 routeTableID) err]
  ∧ same_objects nl' nl
  ∧ match err with
    | Some _ => rules = None
    | None =>
        ∃ m, rules = Some m
          ∧ (∀ k, m !! k
                  = last (filter (λ r, RuleKey r = k) (table_rules routeTableID nl)))
          ∧ (∀ k r, m !! k = Some r →
                    r ∈ nl_rules nl ∧ Rule_Family r = FAMILY_V4
                    ∧ Rule_Table r = routeTableID ∧ RuleKey r = k)
          ∧ (∀ r, r ∈ nl_rules nl → Rule_Family r = FAMILY_V4 →
                  Rule_Table r = routeTableID → is_Some (m !! RuleKey r))
          ∧ (NoDup (RuleKey <$> table_rules routeTableID nl) →
             ∀ r, r ∈ table_rules routeTableID nl → m !! RuleKey r = Some r)
    end.
Proof.
  rewrite ListRulesOnNode_spec.
  destruct (nl_fault nl (nl_log nl) (ReqRuleList FAMILY_V4 routeTableID)) as [e|].
  { split; [done|]. split; [apply logged_issued | done]. }
  split; [done|]. split; [apply logged_issued|]. split; [done|].
  exists (rules_on_node routeTableID nl). split; [done|].
  rewrite rules_on_node_listing. split; [apply listing_lookup|]. split; [|split].
  - intros k r (? & [? ?] & ?)%listing_Some. done.
  - intros r Hr Hf Ht. by apply listing_is_Some.
  - intros Hnd r [[Hf Ht] Hr]%list_elem_of_filter. by apply listing_NoDup.
Qed.

(** X5. [ListRoutesOnNode] sends one list request for the IPv4 routes of
    the table and changes nothing in the kernel. When the request fails
    it returns that error as it is and no map. When it succeeds it
    returns no error and a map that holds, at each key, the last listed
    route with that key: every route of the table has its key in the
    map, every entry is a route of the table stored at its own
    [RouteKey], and when no two listed routes share a key every listed
    route is in the map. *)
Theorem ListRoutesOnNode_last_route_wins routeTableID nl :
  let '(nl', routes, err) := ListRoutesOnNode routeTableID nl in
  err = nl_fault nl (nl_log nl) (ReqRouteList FAMILY_V4 routeTableID)
  ∧ issued nl nl' = [mkEvent None (ReqRouteList FAMILY_V4 routeTableID) err]
  ∧ same_objects nl' nl
  ∧ match err with
    | Some _ => routes = None
    | None =>
        ∃ m, routes = Some m
          ∧ (∀ k, m !! k
                  = last (filter (λ r, RouteKey r = k) (table_routes routeTableID nl)))
          ∧ (∀ k r, m !! k = Some r →
                    r ∈ nl_routes nl ∧ Route_Table r = routeTableID ∧ RouteKey r = k)
          ∧ (∀ r, r ∈ nl_routes nl → Route_Table r = routeTableID →
                  is_Some (m !! RouteKey r))
          ∧ (NoDup (RouteKey <$> table_routes routeTableID nl) →
             ∀ r, r ∈ table_routes routeTableID nl → m !! RouteKey r = Some r)
    end.
Proof.
  rewrite ListRoutesOnNode_spec.
  destruct (nl_fault nl (nl_log nl) (ReqRouteList FAMILY_V4 routeTableID)) as [e|].
  { split; [done|]. split; [apply logged_issued | done]. }
  split; [done|]. split; [apply logged_issued|]. split; [done|].
  exists (routes_on_node routeTableID nl). split; [done|].
  rewrite routes_on_node_listing. split; [apply listing_lookup|]. split; [|split].
  - intros k r (? & ? & ?)%listing_Some. done.
  - intros r Hr Ht. by apply listing_is_Some.
  - intros Hnd r [Ht Hr]%list_elem_of_filter. by apply listing_NoDup.
Qed.

Lemma ListRoutesOnNode_last_route_wins_witness :
  NoDup (RouteKey <$> table_routes 100 (quiet [] [via_1_1_1_1] []))
  ∧ ∃ m, (ListRoutesOnNode 100 (quiet [] [via_1_1_1_1] [])).1.2 = Some m
         ∧ m !! RouteKey via_1_1_1_1 = Some via_1_1_1_1.
Proof.
  assert (NoDup (RouteKey <$> table_routes 100 (quiet [] [via_1_1_1_1] []))) as Hnd
    by (vm_compute; apply NoDup_singleton).
  split; [exact Hnd|].
  pose proof (ListRoutesOnNode_last_route_wins 100 (quiet [] [via_1_1_1_1] [])) as H.
  destruct (ListRoutesOnNode 100 (quiet [] [via_1_1_1_1] [])) as [[nl' routes] err].
  destruct H as (Herr & _ & _ & H). vm_compute in Herr. subst err.
  destruct H as (m & -> & _ & _ & _ & Hall). exists m. split; [reflexivity|].
  apply (Hall Hnd). vm_compute. apply list_elem_of_here.
Defined.

Lemma ListRulesOnNode_last_rule_wins_witness :
  NoDup (RuleKey <$> table_rules 100 (quiet [rule_prio_1] [] []))
  ∧ ∃ m, (ListRulesOnNode 100 (quiet [rule_prio_1] [] [])).1.2 = Some m
         ∧ m !! RuleKey rule_prio_1 = Some rule_prio_1.
Proof.
  assert (NoDup (RuleKey <$> table_rules 100 (quiet [rule_prio_1] [] []))) as Hnd
    by (vm_compute; apply NoDup_singleton).
  split; [exact Hnd|].
  pose proof (ListRulesOnNode_last_rule_wins 100 (quiet [rule_prio_1] [] [])) as H.
  destruct (ListRulesOnNode 100 (quiet [rule_prio_1] [] [])) as [[nl' rules] err].
  destruct H as (Herr & _ & _ & H). vm_compute in Herr. subst err.
  destruct H as (m & -> & _ & _ & _ & Hall). exists m. split; [reflexivity|].
  apply (Hall Hnd). vm_compute. apply list_elem_of_here.
Defined.

(** ** One request per key *)

Lemma plan_unwanted_for_key {V} (del : V → Request) (es : list (string * V)) k v :
  NoDup es.*1 → (k, v) ∈ es →
  filter (λ kc, kc.1 = k) (plan_unwanted del es) = [(k, del v)].
Proof.
  induction es as [|[k' v'] es IH]; intros Hnd Hin.
  { by apply elem_of_nil in Hin. }
  rewrite fmap_cons, NoDup_cons in Hnd. destruct Hnd as [Hk' Hnd]. simpl in Hk'.
  unfold plan_unwanted. rewrite fmap_cons. cbn [fst snd].
  apply elem_of_cons in Hin as [[= -> ->]|Hin].
  - rewrite filter_cons_True by done. f_equal.
    by apply (plan_unwanted_for_key_notin del).
  - rewrite filter_cons_False; [by apply IH|]. cbn [fst]. intros ->.
    apply Hk'. apply list_elem_of_fmap. by exists (k, v).
Qed.

(** The requests of a whole call for one key. *)
Lemma plan_for_key {V} (add del : V → Request) upd (o : RangeOrder)
    (C D : gmap string V) k :
  (plan_desired add upd C (range o D)).2 = true →
  filter (λ kc, kc.1 = k)
    ((plan_desired add upd C (range o D)).1
     ++ plan_unwanted del (range o (C ∖ D)))%list
  = match D !! k, C !! k with
    | Some v, None => [(k, add v)]
    | Some v, Some ro => pair k <$> default [] (upd ro v)
    | None, Some w => [(k, del w)]
    | None, None => []
    end.
Proof.
  intros Hok. rewrite filter_app.
  destruct (D !! k) as [v|] eqn:HD.
  - rewrite (plan_desired_for_key add upd C _ k v);
      [|apply NoDup_range_keys | by apply elem_of_range | done].
    rewrite plan_unwanted_for_key_notin, app_nil_r; [by destruct (C !! k)|].
    rewrite elem_of_range_keys, lookup_difference, HD. by intros [? ?].
  - rewrite plan_desired_for_key_notin
      by (rewrite elem_of_range_keys, HD; by intros [? ?]).
    destruct (C !! k) as [w|] eqn:HC.
    + rewrite (plan_unwanted_for_key del _ k w); [done | apply NoDup_range_keys |].
      apply elem_of_range. by apply lookup_difference_Some.
    + rewrite plan_unwanted_for_key_notin; [done|].
      rewrite elem_of_range_keys, lookup_difference, HD, HC. by intros [? ?].
Qed.

Lemma sent_keys cs evs e : sent evs = keyed cs → e ∈ evs → is_Some (ev_key e).
Proof. intros Hs He. destruct (sent_elem_of _ _ _ Hs He) as (k & -> & _). by eexists. Qed.

(** X7. Whatever the kernel accepts or rejects, a converge call sends at
    most one request for a key, and every request is sent for a key of
    one of the two maps. For a key that is
    in desired only it is the add (for FDB entries the append) of the
    desired object; for a key in current only, the delete of the
    current object; for a key in both, [ApplyRules] and [ApplyFDBs]
    send nothing, whatever the two objects hold, and [ApplyRoutes] sends
    the replace of the desired route when [routeEqual] says the two
    routes differ, and nothing otherwise. *)
Theorem Apply_one_request_per_key o current desired :
  (∀ h nl, let '(_, nl', _) := ApplyRules o current desired h nl in
     (∀ e, e ∈ issued nl nl' → is_Some (ev_key e))
     ∧ ∀ k, sent (for_key k (issued nl nl'))
            = match (h !!! desired) !! k, (h !!! current) !! k with
              | Some v, None => [(Some k, ReqRuleAdd v)]
              | None, Some w => [(Some k, ReqRuleDel w)]
              | _, _ => []
              end)
  ∧ (∀ h nl, match ApplyRoutes o current desired h nl with
             | Returned (_, nl', _) =>
                 (∀ e, e ∈ issued nl nl' → is_Some (ev_key e))
                 ∧ ∀ k, sent (for_key k (issued nl nl'))
                        = match (h !!! desired) !! k, (h !!! current) !! k with
                          | Some v, None => [(Some k, ReqRouteAdd v)]
                          | Some v, Some ro =>
                              match routeEqual ro v with
                              | Some false => [(Some k, ReqRouteReplace v)]
                              | _ => []
                              end
                          | None, Some w => [(Some k, ReqRouteDel w)]
                          | None, None => []
                          end
             | Panicked _ _ =>
                 routes_complete o (h !!! current) (h !!! desired) = false
             end)
  ∧ (∀ h nl, let '(_, nl', _) := ApplyFDBs o current desired h nl in
     (∀ e, e ∈ issued nl nl' → is_Some (ev_key e))
     ∧ ∀ k, sent (for_key k (issued nl nl'))
            = match (h !!! desired) !! k, (h !!! current) !! k with
              | Some v, None => [(Some k, ReqNeighAppend v)]
              | None, Some w => [(Some k, ReqNeighDel w)]
              | _, _ => []
              end).
Proof.
  split; [|split].
  - intros h nl. destruct (ApplyRules_sweep o current desired h nl)
      as (h' & nl' & evs & -> & _ & _ & Hsw).
    rewrite (swept_issued _ _ _ _ Hsw). destruct Hsw as (_ & Hsent & _ & _).
    split; [intros e; by apply (sent_keys _ _ e Hsent)|]. intros k.
    rewrite (sent_for_key _ _ k Hsent). unfold rules_plan.
    rewrite plan_for_key by apply rules_plan_complete.
    by destruct ((h !!! desired) !! k), ((h !!! current) !! k).
  - intros h nl. pose proof (ApplyRoutes_sweep o current desired h nl) as H.
    destruct (routes_complete o (h !!! current) (h !!! desired)) eqn:Hok.
    + destruct H as (h' & nl' & evs & -> & _ & _ & Hsw).
      rewrite (swept_issued _ _ _ _ Hsw). destruct Hsw as (_ & Hsent & _ & _).
      split; [intros e; by apply (sent_keys _ _ e Hsent)|]. intros k.
      rewrite (sent_for_key _ _ k Hsent). unfold routes_plan.
      rewrite plan_for_key by exact Hok.
      destruct ((h !!! desired) !! k) as [v|], ((h !!! current) !! k) as [ro|];
        try done.
      unfold route_upd. by destruct (routeEqual ro v) as [[|]|].
    + by destruct H as (h' & nl' & evs & -> & _).
  - intros h nl. destruct (ApplyFDBs_sweep o current desired h nl)
      as (h' & nl' & evs & -> & _ & _ & Hsw).
    rewrite (swept_issued _ _ _ _ Hsw). destruct Hsw as (_ & Hsent & _ & _).
    split; [intros e; by apply (sent_keys _ _ e Hsent)|]. intros k.
    rewrite (sent_for_key _ _ k Hsent). unfold fdbs_plan.
    rewrite plan_for_key by apply fdbs_plan_complete.
    by destruct ((h !!! desired) !! k), ((h !!! current) !! k).
Qed.

(** ** [NewRavenRule] *)

Lemma last_all_same {A} (l : list A) x :
  x ∈ l → (∀ y, y ∈ l → y = x) → last l = Some x.
Proof.
  intros Hx Hall. destruct (last l) as [y|] eqn:E.
  - f_equal. by apply Hall, last_Some_elem_of.
  - apply last_None in E. subst l. by apply elem_of_nil in Hx.
Qed.

(** X6. A rule made by [NewRavenRule] is an IPv4 rule of the given table
    and priority without source prefix, so its key is "0.0.0.0/0"
    whatever the priority and the table are. When the kernel has the
    rule and no other IPv4 rule of its table with that key, a successful
    [ListRulesOnNode] of the table returns it at that key, wherever it
    stands among the rules. And when current has a rule at that key, of
    whatever priority and table, [ApplyRules] sends nothing for a
    desired rule made by [NewRavenRule]: a change of priority is not
    applied. *)
Theorem NewRavenRule_default_key rulePriority routeTableID :
  Rule_Priority (NewRavenRule rulePriority routeTableID) = rulePriority
  ∧ Rule_Table (NewRavenRule rulePriority routeTableID) = routeTableID
  ∧ Rule_Family (NewRavenRule rulePriority routeTableID) = FAMILY_V4
  ∧ RuleKey (NewRavenRule rulePriority routeTableID) = "0.0.0.0/0"
  ∧ (∀ nl,
       NewRavenRule rulePriority routeTableID ∈ nl_rules nl →
       (∀ r, r ∈ nl_rules nl → Rule_Family r = FAMILY_V4 →
             Rule_Table r = routeTableID → RuleKey r = "0.0.0.0/0" →
             r = NewRavenRule rulePriority routeTableID) →
       (ListRulesOnNode routeTableID nl).1.2 = None
       ∨ ∃ m, (ListRulesOnNode routeTableID nl).1.2 = Some m
              ∧ m !! "0.0.0.0/0" = Some (NewRavenRule rulePriority routeTableID))
  ∧ (∀ o current desired h nl ro,
       (h !!! current) !! "0.0.0.0/0" = Some ro →
       (h !!! desired) !! "0.0.0.0/0" = Some (NewRavenRule rulePriority routeTableID) →
       let '(_, nl', _) := ApplyRules o current desired h nl in
       for_key "0.0.0.0/0" (issued nl nl') = []).
Proof.
  split; [done|]. split; [done|]. split; [done|]. split; [done|]. split.
  - intros nl Hin Honly. rewrite ListRulesOnNode_spec.
    destruct (nl_fault nl (nl_log nl) (ReqRuleList FAMILY_V4 routeTableID));
      [by left | right].
    eexists. split; [done|]. unfold rules_on_node. rewrite lookup_foldl_insert.
    apply last_all_same.
    + apply list_elem_of_filter. split; [done|]. by apply list_elem_of_filter.
    + intros r [Hk [[Hf Ht] Hr]%list_elem_of_filter]%list_elem_of_filter.
      by apply Honly.
  - intros o current desired h nl ro HC HD.
    destruct (ApplyRules_sweep o current desired h nl)
      as (h' & nl' & evs & -> & _ & _ & Hsw).
    rewrite (swept_issued _ _ _ _ Hsw). destruct Hsw as (_ & Hsent & _ & _).
    apply fmap_sent_nil. rewrite (sent_for_key _ _ _ Hsent). unfold rules_plan.
    rewrite plan_for_key by apply rules_plan_complete. by rewrite HD, HC.
Qed.

(** The rule listed among rules of other prefixes and tables, first in
    the kernel's order. *)
Lemma NewRavenRule_default_key_witness :
  let other := mkRule 5 100 FAMILY_V4 (Some (mkIPNet [x0a; x01; x00; x00] (CIDRMask 16 32))) in
  let nl := quiet [NewRavenRule 7 100; other; NewRavenRule 9 200] [] [] in
  NewRavenRule 7 100 ∈ nl_rules nl
  ∧ ∃ m, (ListRulesOnNode 100 nl).1.2 = Some m
         ∧ m !! "0.0.0.0/0" = Some (NewRavenRule 7 100).
Proof.
  intros other nl.
  assert (NewRavenRule 7 100 ∈ nl_rules nl) as Hin by apply list_elem_of_here.
  split; [exact Hin|].
  destruct (proj1 (proj2 (proj2 (proj2 (proj2 (NewRavenRule_default_key 7 100)))))
              nl Hin) as [Hnone|Hm].
  - intros r Hr Hf Ht Hk. unfold nl in Hr. cbn [quiet nl_rules] in Hr.
    apply elem_of_cons in Hr as [->|Hr]; [done|].
    apply elem_of_cons in Hr as [->|Hr]; [vm_compute in Hk; discriminate Hk|].
    apply list_elem_of_singleton in Hr as ->. vm_compute in Ht. discriminate Ht.
  - rewrite ListRulesOnNode_spec in Hnone. discriminate Hnone.
  - exact Hm.
Defined.

(** ** A route without destination *)

(** What the loop over [desired] has sent, also when it did not run to
    its end. *)
Lemma elem_of_plan_desired_sent {V} (add : V → Request) upd (C : gmap string V) es k c :
  (k, c) ∈ (plan_desired add upd C es).1 →
  ∃ v, (k, v) ∈ es
       ∧ match C !! k with
         | None => c = add v
         | Some ro => ∃ cs, upd ro v = Some cs ∧ c ∈ cs
         end.
Proof.
  induction es as [|[k' v'] es IH]; simpl; [by intros ?%elem_of_nil|].
  destruct (C !! k') as [ro|] eqn:E.
  - destruct (upd ro v') as [cs|] eqn:U; simpl; [|by intros ?%elem_of_nil].
    rewrite elem_of_app, list_elem_of_fmap.
    intros [(c' & [= -> ->] & Hc)|(v & Hin & Hv)%IH].
    + exists v'. split; [apply list_elem_of_here|]. rewrite E. eauto.
    + exists v. split; [by apply list_elem_of_further | done].
  - simpl. rewrite elem_of_cons. intros [[= -> ->]|(v & Hin & Hv)%IH].
    + exists v'. split; [apply list_elem_of_here | by rewrite E].
    + exists v. split; [by apply list_elem_of_further | done].
Qed.

(** X8. [ApplyRoutes] panics exactly when some key of both maps has a
    route without destination in one of them: it returns when every such
    pair has its two destinations. When it panics, what it has sent are
    adds of desired routes whose key is not in current and replaces of
    desired routes that [routeEqual] found different from the current
    one; no delete has been sent, and the kernel holds the effect of the
    accepted requests. *)
Theorem ApplyRoutes_panics_iff o current desired h nl :
  match ApplyRoutes o current desired h nl with
  | Returned _ =>
      ∀ k ro v, (h !!! current) !! k = Some ro → (h !!! desired) !! k = Some v →
                is_Some (Route_Dst ro) ∧ is_Some (Route_Dst v)
  | Panicked _ nl' =>
      (∃ k ro v, (h !!! current) !! k = Some ro ∧ (h !!! desired) !! k = Some v
                 ∧ (Route_Dst ro = None ∨ Route_Dst v = None))
      ∧ (∀ e, e ∈ issued nl nl' →
           ∃ k v, ev_key e = Some k ∧ (h !!! desired) !! k = Some v
                  ∧ ((h !!! current) !! k = None ∧ ev_req e = ReqRouteAdd v
                     ∨ (∃ ro, (h !!! current) !! k = Some ro
                              ∧ routeEqual ro v = Some false)
                       ∧ ev_req e = ReqRouteReplace v))
      ∧ same_objects nl' (settle (issued nl nl') nl)
  end.
Proof.
  pose proof (ApplyRoutes_sweep o current desired h nl) as H.
  destruct (routes_complete o (h !!! current) (h !!! desired)) eqn:Hok.
  - destruct H as (h' & nl' & evs & -> & _). by apply (routes_complete_iff o).
  - destruct H as (h' & nl' & evs & -> & Hsw).
    rewrite (swept_issued _ _ _ _ Hsw). destruct Hsw as (_ & Hsent & _ & Hobj).
    split; [|split; [|done]].
    + apply plan_desired_panics in Hok as (k & v & ro & Hkv & Hro & Hu).
      apply elem_of_range in Hkv. exists k, ro, v. split; [done|]. split; [done|].
      unfold route_upd in Hu.
      destruct (routeEqual ro v) as [[|]|] eqn:He; try done.
      by apply routeEqual_None.
    + intros e He. destruct (sent_elem_of _ _ _ Hsent He) as (k & Hk & Hin).
      apply elem_of_plan_desired_sent in Hin as (v & Hv & Hc).
      apply elem_of_range in Hv. exists k, v. split; [done|]. split; [done|].
      destruct ((h !!! current) !! k) as [ro|] eqn:HC.
      * right. destruct Hc as (cs & Hcs & Hc). unfold route_upd in Hcs.
        destruct (routeEqual ro v) as [[|]|] eqn:Hd; try done.
        -- injection Hcs as <-. by apply elem_of_nil in Hc.
        -- injection Hcs as <-. apply list_elem_of_singleton in Hc.
           split; [by exists ro | done].
      * by left.
Qed.

(** ** The order of the requests *)

Lemma swept_split cs1 cs2 nl nl' evs :
  swept (cs1 ++ cs2) nl nl' evs →
  ∃ evs1 evs2, evs = (evs1 ++ evs2)%list ∧ sent evs1 = keyed cs1 ∧ sent evs2 = keyed cs2.
Proof.
  intros (_ & Hsent & _). unfold keyed in Hsent. rewrite fmap_app in Hsent.
  apply fmap_app_inv in Hsent as (evs1 & evs2 & H1 & H2 & ->).
  by exists evs1, evs2.
Qed.

(** The events of the second loop: deletes of the entries of current
    whose key is not in desired. *)
Lemma sent_unwanted {V} (del : V → Request) o (C D : gmap string V) evs :
  sent evs = keyed (plan_unwanted del (range o (C ∖ D))) →
  Forall (λ e, ∃ k w, ev_key e = Some k ∧ C !! k = Some w ∧ D !! k = None
                      ∧ ev_req e = del w) evs.
Proof.
  intros Hsent. apply Forall_forall. intros e He.
  destruct (sent_elem_of _ _ _ Hsent He) as (k & Hk & Hin).
  apply elem_of_plan_unwanted in Hin as (w & Hw & Hc).
  apply elem_of_range, lookup_difference_Some in Hw as [HC HD]. by exists k, w.
Qed.

(** The events of the first loop of [ApplyRules] and [ApplyFDBs]. *)
Lemma sent_desired_adds {V} (add : V → Request) o (C D : gmap string V) evs :
  sent evs = keyed (plan_desired add (λ _ _, Some []) C (range o D)).1 →
  Forall (λ e, ∃ k v, ev_key e = Some k ∧ D !! k = Some v ∧ C !! k = None
                      ∧ ev_req e = add v) evs.
Proof.
  intros Hsent. apply Forall_forall. intros e He.
  destruct (sent_elem_of _ _ _ Hsent He) as (k & Hk & Hin).
  apply elem_of_plan_desired_sent in Hin as (v & Hv & Hc).
  apply elem_of_range in Hv. exists k, v. split; [done|]. split; [done|].
  destruct (C !! k); [|done].
  destruct Hc as (cs & [= <-] & Hc). by apply elem_of_nil in Hc.
Qed.

(** X9. A converge call that returns has sent its requests in two
    runs: first the adds (and, for routes, the replaces) of desired
    objects, then the deletes of the current objects whose key is not in
    desired. No delete comes before an add or a replace. *)
Theorem Apply_adds_before_deletes o current desired :
  (∀ h nl, let '(_, nl', _) := ApplyRules o current desired h nl in
     ∃ evs1 evs2, issued nl nl' = (evs1 ++ evs2)%list
       ∧ Forall (λ e, ∃ k v, ev_key e = Some k ∧ (h !!! desired) !! k = Some v
                             ∧ (h !!! current) !! k = None
                             ∧ ev_req e = ReqRuleAdd v) evs1
       ∧ Forall (λ e, ∃ k w, ev_key e = Some k ∧ (h !!! current) !! k = Some w
                             ∧ (h !!! desired) !! k = None
                             ∧ ev_req e = ReqRuleDel w) evs2)
  ∧ (∀ h nl, match ApplyRoutes o current desired h nl with
             | Returned (_, nl', _) =>
                 ∃ evs1 evs2, issued nl nl' = (evs1 ++ evs2)%list
                   ∧ Forall (λ e, ∃ k v, ev_key e = Some k
                                         ∧ (h !!! desired) !! k = Some v
                                         ∧ (ev_req e = ReqRouteAdd v
                                            ∨ ev_req e = ReqRouteReplace v)) evs1
                   ∧ Forall (λ e, ∃ k w, ev_key e = Some k
                                         ∧ (h !!! current) !! k = Some w
                                         ∧ (h !!! desired) !! k = None
                                         ∧ ev_req e = ReqRouteDel w) evs2
             | Panicked _ _ =>
                 routes_complete o (h !!! current) (h !!! desired) = false
             end)
  ∧ (∀ h nl, let '(_, nl', _) := ApplyFDBs o current desired h nl in
     ∃ evs1 evs2, issued nl nl' = (evs1 ++ evs2)%list
       ∧ Forall (λ e, ∃ k v, ev_key e = Some k ∧ (h !!! desired) !! k = Some v
                             ∧ (h !!! current) !! k = None
                             ∧ ev_req e = ReqNeighAppend v) evs1
       ∧ Forall (λ e, ∃ k w, ev_key e = Some k ∧ (h !!! current) !! k = Some w
                             ∧ (h !!! desired) !! k = None
                             ∧ ev_req e = ReqNeighDel w) evs2).
Proof.
  split; [|split].
  - intros h nl. destruct (ApplyRules_sweep o current desired h nl)
      as (h' & nl' & evs & -> & _ & _ & Hsw).
    rewrite (swept_issued _ _ _ _ Hsw).
    apply swept_split in Hsw as (evs1 & evs2 & -> & H1 & H2).
    exists evs1, evs2. split; [done|].
    split; [by apply (sent_desired_adds ReqRuleAdd o) | by apply (sent_unwanted ReqRuleDel o)].
  - intros h nl. pose proof (ApplyRoutes_sweep o current desired h nl) as H.
    destruct (routes_complete o (h !!! current) (h !!! desired)) eqn:Hok.
    + destruct H as (h' & nl' & evs & -> & _ & _ & Hsw).
      rewrite (swept_issued _ _ _ _ Hsw).
      apply swept_split in Hsw as (evs1 & evs2 & -> & H1 & H2).
      exists evs1, evs2. split; [done|].
      split; [|by apply (sent_unwanted ReqRouteDel o)].
      apply Forall_forall. intros e He.
      destruct (sent_elem_of _ _ _ H1 He) as (k & Hk & Hin).
      apply elem_of_plan_desired_sent in Hin as (v & Hv & Hc).
      apply elem_of_range in Hv. exists k, v. split; [done|]. split; [done|].
      destruct ((h !!! current) !! k) as [ro|]; [|by left].
      destruct Hc as (cs & Hcs & Hc). unfold route_upd in Hcs.
      destruct (routeEqual ro v) as [[|]|]; try done.
      * injection Hcs as <-. by apply elem_of_nil in Hc.
      * injection Hcs as <-. apply list_elem_of_singleton in Hc. by right.
    + by destruct H as (h' & nl' & evs & -> & _).
  - intros h nl. destruct (ApplyFDBs_sweep o current desired h nl)
      as (h' & nl' & evs & -> & _ & _ & Hsw).
    rewrite (swept_issued _ _ _ _ Hsw).
    apply swept_split in Hsw as (evs1 & evs2 & -> & H1 & H2).
    exists evs1, evs2. split; [done|].
    split; [by apply (sent_desired_adds ReqNeighAppend o)
           |by apply (sent_unwanted ReqNeighDel o)].
Qed.

(** When the loop over [desired] runs to its end, its requests are
    those of its entries, one entry after the other. *)
Lemma plan_desired_bind {V} (add : V → Request) upd (C : gmap string V) es :
  (plan_desired add upd C es).2 = true →
  (plan_desired add upd C es).1
  = es ≫= (λ kv, match C !! kv.1 with
                 | None => [(kv.1, add kv.2)]
                 | Some ro => pair kv.1 <$> default [] (upd ro kv.2)
                 end).
Proof.
  induction es as [|[k v] es IH]; [done|]. simpl.
  destruct (C !! k) as [ro|].
  - destruct (upd ro v) as [cs|]; [|done]. simpl. intros Hok. by rewrite (IH Hok).
  - simpl. intros Hok. by rewrite (IH Hok).
Qed.

Lemma plan_Permutation {V} (add del : V → Request) upd o1 o2 (C D : gmap string V) :
  (plan_desired add upd C (range o1 D)).2 = true →
  (plan_desired add upd C (range o2 D)).2 = true →
  ((plan_desired add upd C (range o1 D)).1 ++ plan_unwanted del (range o1 (C ∖ D)))%list
  ≡ₚ ((plan_desired add upd C (range o2 D)).1
      ++ plan_unwanted del (range o2 (C ∖ D)))%list.
Proof.
  intros H1 H2. rewrite !plan_desired_bind by done. unfold plan_unwanted.
  by rewrite !(range_perm o1), !(range_perm o2).
Qed.

Lemma swept_Permutation cs1 cs2 nl1 nl1' evs1 nl2 nl2' evs2 :
  cs1 ≡ₚ cs2 → swept cs1 nl1 nl1' evs1 → swept cs2 nl2 nl2' evs2 →
  sent (issued nl1 nl1') ≡ₚ sent (issued nl2 nl2').
Proof.
  intros Hp H1 H2.
  rewrite (swept_issued _ _ _ _ H1), (swept_issued _ _ _ _ H2).
  destruct H1 as (_ & -> & _), H2 as (_ & -> & _). unfold keyed. by rewrite Hp.
Qed.

(** X10. Which requests a converge call sends depends on the two maps
    only: not on the order in which the maps are ranged over, which
    changes the order of the requests and nothing else, and not on the
    kernel or on what it answers. For [ApplyRoutes] this holds of the
    calls that return, and whether a call returns does not depend on the
    order either. *)
Theorem Apply_requests_whatever_the_order o1 o2 current desired :
  (∀ h nl1 nl2,
     let '(_, nl1', _) := ApplyRules o1 current desired h nl1 in
     let '(_, nl2', _) := ApplyRules o2 current desired h nl2 in
     sent (issued nl1 nl1') ≡ₚ sent (issued nl2 nl2'))
  ∧ (∀ h nl1 nl2,
       match ApplyRoutes o1 current desired h nl1,
             ApplyRoutes o2 current desired h nl2 with
       | Returned (_, nl1', _), Returned (_, nl2', _) =>
           sent (issued nl1 nl1') ≡ₚ sent (issued nl2 nl2')
       | Panicked _ _, Panicked _ _ => True
       | _, _ => False
       end)
  ∧ (∀ h nl1 nl2,
       let '(_, nl1', _) := ApplyFDBs o1 current desired h nl1 in
       let '(_, nl2', _) := ApplyFDBs o2 current desired h nl2 in
       sent (issued nl1 nl1') ≡ₚ sent (issued nl2 nl2')).
Proof.
  split; [|split].
  - intros h nl1 nl2.
    destruct (ApplyRules_sweep o1 current desired h nl1)
      as (h1 & nl1' & evs1 & -> & _ & _ & Hsw1).
    destruct (ApplyRules_sweep o2 current desired h nl2)
      as (h2 & nl2' & evs2 & -> & _ & _ & Hsw2).
    eapply swept_Permutation; [|exact Hsw1 | exact Hsw2].
    apply plan_Permutation; apply rules_plan_complete.
  - intros h nl1 nl2.
    pose proof (ApplyRoutes_sweep o1 current desired h nl1) as H1.
    pose proof (ApplyRoutes_sweep o2 current desired h nl2) as H2.
    assert (routes_complete o2 (h !!! current) (h !!! desired)
            = routes_complete o1 (h !!! current) (h !!! desired)) as Ho.
    { destruct (routes_complete o1 _ _) eqn:E1.
      - apply routes_complete_iff. by apply (routes_complete_iff o1).
      - destruct (routes_complete o2 _ _) eqn:E2; [|done].
        rewrite <- E1. symmetry. apply routes_complete_iff.
        by apply (routes_complete_iff o2). }
    rewrite Ho in H2.
    destruct (routes_complete o1 (h !!! current) (h !!! desired)) eqn:Hok.
    + destruct H1 as (h1 & nl1' & evs1 & -> & _ & _ & Hsw1).
      destruct H2 as (h2 & nl2' & evs2 & -> & _ & _ & Hsw2).
      eapply swept_Permutation; [|exact Hsw1 | exact Hsw2].
      apply plan_Permutation; [exact Hok | by rewrite <- Ho in Hok].
    + destruct H1 as (h1 & nl1' & evs1 & -> & _).
      by destruct H2 as (h2 & nl2' & evs2 & -> & _).
  - intros h nl1 nl2.
    destruct (ApplyFDBs_sweep o1 current desired h nl1)
      as (h1 & nl1' & evs1 & -> & _ & _ & Hsw1).
    destruct (ApplyFDBs_sweep o2 current desired h nl2)
      as (h2 & nl2' & evs2 & -> & _ & _ & Hsw2).
    eapply swept_Permutation; [|exact Hsw1 | exact Hsw2].
    apply plan_Permutation; apply fdbs_plan_complete.
Qed.

(** ** Nothing to do *)

Lemma difference_same_dom {V} (C D : gmap string V) : dom C = dom D → C ∖ D = ∅.
Proof.
  intros Hdom. apply map_empty. intros k. apply lookup_difference_None.
  destruct (D !! k) eqn:E; [right; by eexists | left].
  apply not_elem_of_dom. rewrite Hdom. by apply not_elem_of_dom.
Qed.

Lemma plan_nothing {V} (add del : V → Request) upd o (C D : gmap string V) :
  dom C = dom D →
  (∀ k ro v, C !! k = Some ro → D !! k = Some v → upd ro v = Some []) →
  (plan_desired add upd C (range o D)).2 = true
  ∧ ((plan_desired add upd C (range o D)).1
     ++ plan_unwanted del (range o (C ∖ D)))%list = [].
Proof.
  intros Hdom Hupd.
  assert (∀ k v, D !! k = Some v → ∃ ro, C !! k = Some ro) as Hin.
  { intros k v Hv. apply elem_of_dom. rewrite Hdom. apply elem_of_dom. by eexists. }
  split.
  - apply plan_desired_complete. intros k v ro Hkv HC. apply elem_of_range in Hkv.
    rewrite (Hupd k ro v HC Hkv). by eexists.
  - rewrite (difference_same_dom C D Hdom), range_empty, app_nil_r.
    apply plan_desired_nothing. intros k v Hkv. apply elem_of_range in Hkv.
    destruct (Hin k v Hkv) as [ro Hro]. exists ro. split; [done|]. left. eauto.
Qed.

(** X11. When current and desired have the same keys, [ApplyRules] and
    [ApplyFDBs] send nothing and return nil, whatever the objects under
    the keys hold: a rule whose priority or table differs from the
    desired one, or an FDB entry with another hardware address, is left
    as it is. [ApplyRoutes] does the same when moreover [routeEqual]
    finds the two routes of every key equal. The kernel is untouched,
    and the map behind current is left empty. This is in particular what
    a call with the same map as current and desired does. *)
Theorem Apply_nothing_when_keys_agree o current desired :
  (∀ (h : heap Rule) nl,
     dom (h !!! current) = dom (h !!! desired) →
     let '(h', nl', err) := ApplyRules o current desired h nl in
     issued nl nl' = [] ∧ err = None ∧ same_objects nl' nl ∧ h' !!! current = ∅)
  ∧ (∀ (h : heap Route) nl,
       dom (h !!! current) = dom (h !!! desired) →
       (∀ k ro v, (h !!! current) !! k = Some ro → (h !!! desired) !! k = Some v →
                  routeEqual ro v = Some true) →
       ∃ h' nl', ApplyRoutes o current desired h nl = Returned (h', nl', None)
                 ∧ issued nl nl' = [] ∧ same_objects nl' nl ∧ h' !!! current = ∅)
  ∧ (∀ (h : heap Neigh) nl,
       dom (h !!! current) = dom (h !!! desired) →
       let '(h', nl', err) := ApplyFDBs o current desired h nl in
       issued nl nl' = [] ∧ err = None ∧ same_objects nl' nl ∧ h' !!! current = ∅).
Proof.
  split; [|split].
  - intros h nl Hdom.
    destruct (ApplyRules_sweep o current desired h nl)
      as (h' & nl' & evs & -> & Hc & _ & Hsw).
    unfold rules_plan in Hsw.
    rewrite (proj2 (plan_nothing ReqRuleAdd ReqRuleDel rule_upd o _ _ Hdom
                      (λ _ _ _ _ _, eq_refl))) in Hsw.
    apply swept_nothing in Hsw as (? & -> & ?).
    by rewrite Hc, (difference_same_dom _ _ Hdom).
  - intros h nl Hdom Heq.
    assert (∀ k ro v, (h !!! current) !! k = Some ro → (h !!! desired) !! k = Some v →
                      route_upd ro v = Some []) as Hupd.
    { intros k ro v HC HD. unfold route_upd. by rewrite (Heq k ro v HC HD). }
    destruct (plan_nothing ReqRouteAdd ReqRouteDel route_upd o _ _ Hdom Hupd)
      as [Hok Hnil].
    pose proof (ApplyRoutes_sweep o current desired h nl) as Hsw.
    unfold routes_complete, routes_plan in Hsw. rewrite Hok, Hnil in Hsw.
    destruct Hsw as (h' & nl' & evs & -> & Hc & _ & Hsw).
    apply swept_nothing in Hsw as (? & -> & ?).
    exists h', nl'. by rewrite Hc, (difference_same_dom _ _ Hdom).
  - intros h nl Hdom.
    destruct (ApplyFDBs_sweep o current desired h nl)
      as (h' & nl' & evs & -> & Hc & _ & Hsw).
    unfold fdbs_plan in Hsw.
    rewrite (proj2 (plan_nothing ReqNeighAppend ReqNeighDel neigh_upd o _ _ Hdom
                      (λ _ _ _ _ _, eq_refl))) in Hsw.
    apply swept_nothing in Hsw as (? & -> & ?).
    by rewrite Hc, (difference_same_dom _ _ Hdom).
Qed.

(** The two rules of one source prefix: with the rule of priority 1 in
    the kernel and in current and the rule of priority 2 desired, the
    call sends nothing. *)
Lemma Apply_nothing_when_keys_agree_witness :
  let h : heap Rule := {[ 1%positive := {[ RuleKey rule_prio_1 := rule_prio_1 ]};
                          2%positive := {[ RuleKey rule_prio_2 := rule_prio_2 ]} ]} in
  let nl := quiet [rule_prio_1] [] [] in
  dom (h !!! 1%positive) = dom (h !!! 2%positive)
  ∧ nl_rules (ApplyRules map_to_list_order 1%positive 2%positive h nl).1.2 = [rule_prio_1]
  ∧ (ApplyRules map_to_list_order 1%positive 2%positive h nl).2 = None.
Proof.
  intros h nl.
  assert (dom (h !!! 1%positive) = dom (h !!! 2%positive)) as Hdom.
  { unfold h. rewrite lookup_total_insert_eq, lookup_total_insert_ne by done.
    rewrite lookup_total_singleton_eq. by rewrite !dom_singleton_L. }
  split; [exact Hdom|].
  pose proof (proj1 (Apply_nothing_when_keys_agree map_to_list_order 1%positive 2%positive)
                h nl Hdom) as H.
  destruct (ApplyRules map_to_list_order 1%positive 2%positive h nl) as [[h' nl'] err].
  destruct H as (_ & -> & (Hr & _) & _). cbn [fst snd]. by rewrite Hr.
Defined.

(** ** Completeness of [ApplyRoutes], idempotence of [ApplyRules] *)

(** X12. Let the current map be what [ListRoutesOnNode] has just
    returned for the table, from a kernel in which no two routes of the
    table have the same key, and let the desired map be keyed by
    [RouteKey] and hold routes of the table. If [ApplyRoutes] returns
    nil, the keys of the routes of the table in the kernel are the keys
    of desired, and the route of every desired key is pinned: where
    current had a route that [routeEqual] found equal to the desired
    one, it is that current route, left as it was; where current had
    none or had one that [routeEqual] found different, it is the desired
    route. The route of every key in current only is gone, and listing
    again gives a map with the keys of desired. *)
Theorem ApplyRoutes_complete o current desired routeTableID h nl0 nl h' nl' :
  ListRoutesOnNode routeTableID nl0 = (nl, Some (h !!! current), None) →
  NoDup (RouteKey <$> table_routes routeTableID nl) →
  (∀ k v, (h !!! desired) !! k = Some v →
          RouteKey v = k ∧ Route_Table v = routeTableID) →
  ApplyRoutes o current desired h nl = Returned (h', nl', None) →
  dom (routes_on_node routeTableID nl') = dom (h !!! desired)
  ∧ (∀ k v ro, (h !!! desired) !! k = Some v → (h !!! current) !! k = Some ro →
               routeEqual ro v = Some true ∨ routeEqual ro v = Some false)
  ∧ (∀ k v ro, (h !!! desired) !! k = Some v → (h !!! current) !! k = Some ro →
               routeEqual ro v = Some true →
               routes_on_node routeTableID nl' !! k = Some ro ∧ ro ∈ nl_routes nl')
  ∧ (∀ k v, (h !!! desired) !! k = Some v →
            (h !!! current) !! k = None
            ∨ (∃ ro, (h !!! current) !! k = Some ro ∧ routeEqual ro v = Some false) →
            routes_on_node routeTableID nl' !! k = Some v ∧ v ∈ nl_routes nl')
  ∧ (∀ k w, (h !!! current) !! k = Some w → (h !!! desired) !! k = None →
            w ∉ nl_routes nl')
  ∧ (∀ nl'' m, ListRoutesOnNode routeTableID nl' = (nl'', Some m, None) →
               dom m = dom (h !!! desired)).
Proof.
  intros Hlist Hnd HD Hret.
  apply ListRoutesOnNode_Some in Hlist as [_ HC].
  rewrite routes_on_node_listing in HC.
  destruct (ApplyRoutes_nil_routes _ _ _ _ _ _ _ Hret) as [Hok Hroutes].
  set (tbl := λ r, Route_Table r = routeTableID) in *.
  assert (nl_routes nl'
          = converged ReqRouteAdd ReqRouteDel route_upd routes_after o
              (h !!! current) (h !!! desired) (nl_routes nl)) as Hconv by done.
  destruct (relisted RouteKey tbl ReqRouteAdd ReqRouteDel route_upd routes_after
              (λ _ _, eq_refl) (λ _ _, eq_refl) route_upd_replace
              o (h !!! current) (h !!! desired) (nl_routes nl) HC Hnd HD Hok)
    as [Hdom Hkeys].
  pose proof (relisted_kept RouteKey tbl ReqRouteAdd ReqRouteDel route_upd routes_after
                (λ _ _, eq_refl) (λ _ _, eq_refl) route_upd_replace
                o (h !!! current) (h !!! desired) (nl_routes nl) HC Hnd HD Hok) as Hkept.
  rewrite <- Hconv in Hdom, Hkeys, Hkept.
  assert (routes_on_node routeTableID nl' = listing RouteKey tbl (nl_routes nl')) as Hl
    by done.
  rewrite Hl.
  assert (∀ x v, route_upd x v = Some [] → routeEqual x v = Some true) as Hupd.
  { intros x v. unfold route_upd. by destruct (routeEqual x v) as [[|]|]. }
  split; [done|]. split; [|split; [|split; [|split]]].
  - intros k v ro Hkv HCk.
    destruct (proj1 (routes_complete_iff o _ _) Hok k ro v HCk Hkv) as [[x Hx] [y Hy]].
    unfold routeEqual. rewrite Hx, Hy. destruct (_ && _); auto.
  - intros k v ro Hkv HCk He.
    assert (listing RouteKey tbl (nl_routes nl') !! k = Some ro) as Hro.
    { apply (Hkept k ro v HCk Hkv). unfold route_upd. by rewrite He. }
    split; [done|]. by apply listing_Some in Hro as (? & _).
  - intros k v Hkv Hcur. destruct (Hkeys k v Hkv) as (x & Hx & [->|[HCx Hu]]).
    + split; [done|]. by apply listing_Some in Hx as (? & _).
    + exfalso. apply Hupd in Hu. destruct Hcur as [?|(ro & ? & ?)]; congruence.
  - intros k w HCk HDk. rewrite Hconv.
    by apply (converged_absent RouteKey tbl ReqRouteAdd ReqRouteDel route_upd routes_after
                (λ _ _, eq_refl) (λ _ _, eq_refl) route_upd_replace
                o _ _ _ HD Hok k w).
  - intros nl'' m Hm. apply ListRoutesOnNode_Some in Hm as [Hr ->].
    rewrite routes_on_node_listing, Hr. exact Hdom.
Qed.

(** The listed route and a desired route that differs from it on the
    source address only. *)
Definition via_1_1_1_1_from_9_9_9_9 : Route :=
  mkRoute (Some net_10_0_0_0_24) [x01; x01; x01; x01] [x09; x09; x09; x09] 3 100.

Definition source_listed : heap Route :=
  <[ 1%positive := routes_on_node 100 (quiet [] [via_1_1_1_1] []) ]>
    {[ 2%positive := {[ "10.0.0.0/24-100" := via_1_1_1_1_from_9_9_9_9 ]} ]}.

(** [routeEqual] finds the two equal: the listing after the call shows
    the current route, not the desired one. *)
Lemma ApplyRoutes_complete_witness :
  ∃ nl h' nl',
    ListRoutesOnNode 100 (quiet [] [via_1_1_1_1] [])
    = (nl, Some (source_listed !!! 1%positive), None)
    ∧ ApplyRoutes map_to_list_order 1%positive 2%positive source_listed nl
      = Returned (h', nl', None)
    ∧ routeEqual via_1_1_1_1 via_1_1_1_1_from_9_9_9_9 = Some true
    ∧ via_1_1_1_1 ≠ via_1_1_1_1_from_9_9_9_9
    ∧ routes_on_node 100 nl' !! "10.0.0.0/24-100" = Some via_1_1_1_1
    ∧ dom (routes_on_node 100 nl') = dom (source_listed !!! 2%positive).
Proof.
  assert (source_listed !!! 2%positive
          = ({[ "10.0.0.0/24-100" := via_1_1_1_1_from_9_9_9_9 ]} : gmap string Route))
    as Hdes.
  { unfold source_listed. rewrite lookup_total_insert_ne by done.
    apply lookup_total_singleton_eq. }
  assert ((source_listed !!! 1%positive) !! "10.0.0.0/24-100" = Some via_1_1_1_1) as Hcur.
  { unfold source_listed. rewrite lookup_total_insert_eq. vm_compute. reflexivity. }
  assert (routeEqual via_1_1_1_1 via_1_1_1_1_from_9_9_9_9 = Some true) as Heq
    by (vm_compute; reflexivity).
  pose (nl := logged (mkEvent None (ReqRouteList FAMILY_V4 100) None)
                (quiet [] [via_1_1_1_1] [])).
  assert (ListRoutesOnNode 100 (quiet [] [via_1_1_1_1] [])
          = (nl, Some (source_listed !!! 1%positive), None)) as Hlist.
  { unfold source_listed. rewrite ListRoutesOnNode_spec, lookup_total_insert_eq.
    reflexivity. }
  destruct (ApplyRoutes map_to_list_order 1%positive 2%positive source_listed nl)
    as [[[h' nl'] err]|h' nl'] eqn:Hret.
  2:{ exfalso. pose proof (f_equal returned_error Hret) as Herr.
      vm_compute in Herr. discriminate Herr. }
  assert (err = None) as ->.
  { pose proof (f_equal returned_error Hret) as Herr. vm_compute in Herr.
    by injection Herr. }
  exists nl, h', nl'. split; [exact Hlist|]. split; [exact Hret|].
  split; [exact Heq|]. split; [discriminate|].
  assert (NoDup (RouteKey <$> table_routes 100 nl)) as Hnd
    by (vm_compute; apply NoDup_singleton).
  assert (∀ k v, (source_listed !!! 2%positive) !! k = Some v →
                 RouteKey v = k ∧ Route_Table v = 100) as HD.
  { intros k v Hkv. rewrite Hdes in Hkv.
    apply lookup_singleton_Some in Hkv as [<- <-]. vm_compute.
    split; reflexivity. }
  destruct (ApplyRoutes_complete map_to_list_order 1%positive 2%positive 100
              source_listed _ nl h' nl' Hlist Hnd HD Hret) as (Hdom & _ & Hkept & _).
  split; [|exact Hdom].
  refine (proj1 (Hkept "10.0.0.0/24-100" via_1_1_1_1_from_9_9_9_9 via_1_1_1_1 _ Hcur Heq)).
  rewrite Hdes. apply lookup_singleton_eq.
Defined.

(** X13. Let the current map be what [ListRulesOnNode] has just
    returned for the table, from a kernel in which no two rules of the
    table have the same key, and let the desired map be keyed by
    [RuleKey] and hold IPv4 rules of the table. If [ApplyRules] returns
    nil and the table is listed again, a second call with the new
    listing as current and the same desired rules sends no request and
    returns nil. *)
Theorem ApplyRules_idempotent o o2 current desired current2 desired2 routeTableID
    h nl0 nl h' nl' h2 nl2 :
  ListRulesOnNode routeTableID nl0 = (nl, Some (h !!! current), None) →
  NoDup (RuleKey <$> table_rules routeTableID nl) →
  (∀ k v, (h !!! desired) !! k = Some v →
          RuleKey v = k ∧ Rule_Family v = FAMILY_V4 ∧ Rule_Table v = routeTableID) →
  ApplyRules o current desired h nl = (h', nl', None) →
  ListRulesOnNode routeTableID nl' = (nl2, Some (h2 !!! current2), None) →
  h2 !!! desired2 = h !!! desired →
  let '(_, nl3, err) := ApplyRules o2 current2 desired2 h2 nl2 in
  issued nl2 nl3 = [] ∧ err = None ∧ same_objects nl3 nl2.
Proof.
  intros Hlist Hnd HD Hret Hlist2 Hdes2.
  apply ListRulesOnNode_Some in Hlist as [_ HC].
  apply ListRulesOnNode_Some in Hlist2 as [Hr2 HC2].
  rewrite rules_on_node_listing in HC, HC2.
  pose proof (ApplyRules_nil_rules _ _ _ _ _ _ _ Hret) as Hrules.
  set (tbl := λ r, Rule_Family r = FAMILY_V4 ∧ Rule_Table r = routeTableID) in *.
  assert (∀ k v, (h !!! desired) !! k = Some v → RuleKey v = k ∧ tbl v) as HD'
    by (intros k v Hkv; destruct (HD k v Hkv) as (? & ? & ?); done).
  assert (nl_rules nl'
          = converged ReqRuleAdd ReqRuleDel rule_upd rules_after o
              (h !!! current) (h !!! desired) (nl_rules nl)) as Hconv by done.
  destruct (relisted RuleKey tbl ReqRuleAdd ReqRuleDel rule_upd rules_after
              (λ _ _, eq_refl) (λ _ _, eq_refl) rule_upd_nothing
              o (h !!! current) (h !!! desired) (nl_rules nl) HC Hnd HD'
              (rules_plan_complete _ _)) as [Hdom _].
  rewrite <- Hconv, <- Hr2, <- HC2, <- Hdes2 in Hdom.
  destruct (ApplyRules_sweep o2 current2 desired2 h2 nl2)
    as (h3 & nl3 & evs & -> & _ & _ & Hsw).
  unfold rules_plan in Hsw.
  rewrite (proj2 (plan_nothing ReqRuleAdd ReqRuleDel rule_upd o2 _ _ Hdom
                    (λ _ _ _ _ _, eq_refl))) in Hsw.
  by apply swept_nothing in Hsw as (? & -> & ?).
Qed.

Lemma ApplyRules_idempotent_witness :
  ∃ nl h' nl' h2 nl2,
    ListRulesOnNode 100 (quiet [] [] [])
    = (nl, Some (one_rule_desired !!! 1%positive), None)
    ∧ ApplyRules map_to_list_order 1%positive 2%positive one_rule_desired nl
      = (h', nl', None)
    ∧ ListRulesOnNode 100 nl' = (nl2, Some (h2 !!! 1%positive), None)
    ∧ h2 !!! 2%positive = one_rule_desired !!! 2%positive
    ∧ nl_rules nl' = [rule_prio_1]
    ∧ let '(_, nl3, err) := ApplyRules map_to_list_order 1%positive 2%positive h2 nl2 in
      issued nl2 nl3 = [] ∧ err = None ∧ same_objects nl3 nl2.
Proof.
  assert (one_rule_desired !!! 1%positive = (∅ : gmap string Rule)) as Hcur
    by apply lookup_total_insert_eq.
  assert (one_rule_desired !!! 2%positive
          = ({[ "10.1.0.0/16" := rule_prio_1 ]} : gmap string Rule)) as Hdes.
  { unfold one_rule_desired. rewrite lookup_total_insert_ne by done.
    apply lookup_total_singleton_eq. }
  pose (nl := logged (mkEvent None (ReqRuleList FAMILY_V4 100) None) (quiet [] [] [])).
  assert (ListRulesOnNode 100 (quiet [] [] [])
          = (nl, Some (one_rule_desired !!! 1%positive), None)) as Hlist.
  { rewrite ListRulesOnNode_spec, Hcur. reflexivity. }
  destruct (ApplyRules map_to_list_order 1%positive 2%positive one_rule_desired nl)
    as [[h' nl'] err] eqn:Hret.
  assert (err = None) as ->.
  { pose proof (f_equal snd Hret) as Herr. vm_compute in Herr. by symmetry. }
  pose proof (f_equal (λ r, r.1.2) Hret) as Hnl. cbn [fst snd] in Hnl.
  assert (nl_fault nl' (nl_log nl') (ReqRuleList FAMILY_V4 100) = None) as Hfault.
  { rewrite <- Hnl. vm_compute. reflexivity. }
  assert (nl_rules nl' = [rule_prio_1]) as Hkernel.
  { rewrite <- Hnl. vm_compute. reflexivity. }
  pose (h2 := <[ 1%positive := rules_on_node 100 nl' ]>
                ({[ 2%positive := {[ "10.1.0.0/16" := rule_prio_1 ]} ]} : heap Rule)).
  pose (nl2 := logged (mkEvent None (ReqRuleList FAMILY_V4 100) None) nl').
  assert (ListRulesOnNode 100 nl' = (nl2, Some (h2 !!! 1%positive), None)) as Hlist2.
  { unfold h2. rewrite ListRulesOnNode_spec, Hfault, lookup_total_insert_eq.
    reflexivity. }
  assert (h2 !!! 2%positive = one_rule_desired !!! 2%positive) as Hdes2.
  { rewrite Hdes. unfold h2. rewrite lookup_total_insert_ne by done.
    apply lookup_total_singleton_eq. }
  exists nl, h', nl', h2, nl2.
  split; [exact Hlist|]. split; [exact Hret|]. split; [exact Hlist2|].
  split; [exact Hdes2|]. split; [exact Hkernel|].
  refine (ApplyRules_idempotent _ _ _ _ _ _ _ _ _ _ _ _ _ _ Hlist _ _ Hret Hlist2 Hdes2).
  - vm_compute. constructor.
  - intros k v Hkv. rewrite Hdes in Hkv.
    apply lookup_singleton_Some in Hkv as [<- <-]. vm_compute.
    repeat split; reflexivity.
Defined.

(** ** Convergence of [ApplyFDBs] *)

Definition neighs_after (c : Request) (R : list Neigh) : list Neigh :=
  nl_neighs (netlinkutil.accepted c (mkNetlink [] [] R [] (λ _ _, None))).

Lemma accepted_neighs c nl :
  nl_neighs (netlinkutil.accepted c nl) = neighs_after c (nl_neighs nl).
Proof. by destruct c. Qed.

Lemma settle_neighs evs nl :
  Forall (λ e, ev_err e = None) evs →
  nl_neighs (settle evs nl) = foldl (λ R c, neighs_after c R) (nl_neighs nl) (ev_req <$> evs).
Proof.
  revert nl. induction evs as [|e evs IH]; intros nl Hok; [done|].
  apply Forall_cons in Hok as [He Hok]. simpl. rewrite He, (IH _ Hok).
  by rewrite accepted_neighs.
Qed.

(** The FDB entries after a call of [ApplyFDBs] that returned nil. *)
Lemma ApplyFDBs_nil_neighs o current desired h nl h' nl' :
  ApplyFDBs o current desired h nl = (h', nl', None) →
  nl_neighs nl'
  = afterwards neighs_after (nl_neighs nl) (fdbs_plan o (h !!! current) (h !!! desired)).
Proof.
  intros Hret.
  destruct (ApplyFDBs_sweep o current desired h nl)
    as (h1 & nl1 & evs & Heq & _ & _ & (_ & Hsent & _ & Hobj)).
  rewrite Heq in Hret. injection Hret as -> -> Herr.
  apply AsError_None, failures_nil in Herr.
  destruct Hobj as (_ & _ & ->). rewrite (settle_neighs _ _ Herr).
  unfold afterwards. by rewrite (sent_requests _ _ Hsent).
Qed.

Lemma neigh_upd_nothing (ro v : Neigh) cs c (R : list Neigh) :
  neigh_upd ro v = Some cs → c ∈ cs →
  cs = [c]
  ∧ neighs_after c R
    = (filter (λ x, IP_String (Neigh_IP x) ≠ IP_String (Neigh_IP v)) R ++ [v])%list.
Proof. intros [= <-] Hc. by apply elem_of_nil in Hc. Qed.

(** X14. Let the current map be what [ListFDBsOnNode] has just returned
    for the link, from a kernel in which no two all-zero-MAC bridge
    entries of the link have the same IP text, and let the desired map
    hold such entries of the link, each at the text of its IP address.
    If [ApplyFDBs] returns nil, the keys of these entries in the kernel
    are the keys of desired: every desired key has an entry, the desired
    one where current had none, and the entry of every key in current
    only is gone. Listing again gives a map with the keys of desired,
    and a second call with that listing as current and the same desired
    entries sends no request and returns nil. *)
Theorem ApplyFDBs_converges o current desired link h nl0 nl h' nl' :
  ListFDBsOnNode link nl0 = (nl, Some (h !!! current), None) →
  NoDup ((λ n, IP_String (Neigh_IP n))
           <$> filter (λ n, Neigh_LinkIndex n = Link_Index link
                            ∧ Neigh_Family n = syscall.AF_BRIDGE
                            ∧ Neigh_HardwareAddr n = AllZeroMAC) (nl_neighs nl)) →
  (∀ k v, (h !!! desired) !! k = Some v →
          IP_String (Neigh_IP v) = k
          ∧ Neigh_LinkIndex v = Link_Index link ∧ Neigh_Family v = syscall.AF_BRIDGE
          ∧ Neigh_HardwareAddr v = AllZeroMAC) →
  ApplyFDBs o current desired h nl = (h', nl', None) →
  dom (fdbs_on_node link nl') = dom (h !!! desired)
  ∧ (∀ k v, (h !!! desired) !! k = Some v →
            ∃ x, fdbs_on_node link nl' !! k = Some x
                 ∧ (x = v ∨ (h !!! current) !! k = Some x))
  ∧ (∀ k v, (h !!! desired) !! k = Some v → (h !!! current) !! k = None →
            v ∈ nl_neighs nl')
  ∧ (∀ k w, (h !!! current) !! k = Some w → (h !!! desired) !! k = None →
            w ∉ nl_neighs nl')
  ∧ (∀ o2 current2 desired2 (h2 : heap Neigh) nl2,
       ListFDBsOnNode link nl' = (nl2, Some (h2 !!! current2), None) →
       h2 !!! desired2 = h !!! desired →
       dom (h2 !!! current2) = dom (h !!! desired)
       ∧ let '(_, nl3, err) := ApplyFDBs o2 current2 desired2 h2 nl2 in
         issued nl2 nl3 = [] ∧ err = None ∧ same_objects nl3 nl2).
Proof.
  intros Hlist Hnd HD Hret.
  apply ListFDBsOnNode_Some in Hlist as [_ HC]. unfold fdbs_on_node in HC.
  pose proof (ApplyFDBs_nil_neighs _ _ _ _ _ _ _ Hret) as Hneighs.
  set (key := λ n, IP_String (Neigh_IP n)) in *.
  set (tbl := λ n, Neigh_LinkIndex n = Link_Index link
                   ∧ Neigh_Family n = syscall.AF_BRIDGE
                   ∧ Neigh_HardwareAddr n = AllZeroMAC) in *.
  assert (nl_neighs nl'
          = converged ReqNeighAppend ReqNeighDel neigh_upd neighs_after o
              (h !!! current) (h !!! desired) (nl_neighs nl)) as Hconv by done.
  destruct (relisted key tbl ReqNeighAppend ReqNeighDel neigh_upd neighs_after
              (λ _ _, eq_refl) (λ _ _, eq_refl) neigh_upd_nothing
              o (h !!! current) (h !!! desired) (nl_neighs nl) HC Hnd HD
              (fdbs_plan_complete _ _)) as [Hdom Hkeys].
  rewrite <- Hconv in Hdom, Hkeys.
  assert (fdbs_on_node link nl' = listing key tbl (nl_neighs nl')) as Hl by done.
  rewrite Hl. split; [done|]. split; [|split; [|split]].
  - intros k v Hkv. destruct (Hkeys k v Hkv) as (x & Hx & [->|[? _]]); eauto.
  - intros k v Hkv HCk. destruct (Hkeys k v Hkv) as (x & Hx & [->|[? _]]); [|congruence].
    by apply listing_Some in Hx as (? & _).
  - intros k w HCk HDk. rewrite Hconv.
    by apply (converged_absent key tbl ReqNeighAppend ReqNeighDel neigh_upd neighs_after
                (λ _ _, eq_refl) (λ _ _, eq_refl) neigh_upd_nothing
                o _ _ _ HD (fdbs_plan_complete _ _) k w).
  - intros o2 current2 desired2 h2 nl2 Hlist2 Hdes2.
    apply ListFDBsOnNode_Some in Hlist2 as [Hr2 HC2]. unfold fdbs_on_node in HC2.
    fold key tbl in HC2. rewrite <- Hr2, <- HC2 in Hdom. split; [exact Hdom|].
    rewrite <- Hdes2 in Hdom.
    destruct (ApplyFDBs_sweep o2 current2 desired2 h2 nl2)
      as (h3 & nl3 & evs & -> & _ & _ & Hsw).
    unfold fdbs_plan in Hsw.
    rewrite (proj2 (plan_nothing ReqNeighAppend ReqNeighDel neigh_upd o2 _ _ Hdom
                      (λ _ _ _ _ _, eq_refl))) in Hsw.
    by apply swept_nothing in Hsw as (? & -> & ?).
Qed.

Definition flood_10_0_0_2 : Neigh :=
  mkNeigh 7 syscall.AF_BRIDGE [x0a; x00; x00; x02] AllZeroMAC.

Definition one_fdb_desired : heap Neigh :=
  <[ 1%positive := ∅ ]> {[ 2%positive := {[ "10.0.0.2" := flood_10_0_0_2 ]} ]}.

Lemma ApplyFDBs_converges_witness :
  ∃ nl h' nl',
    ListFDBsOnNode (mkLink 7) (quiet [] [] [])
    = (nl, Some (one_fdb_desired !!! 1%positive), None)
    ∧ ApplyFDBs map_to_list_order 1%positive 2%positive one_fdb_desired nl
      = (h', nl', None)
    ∧ nl_neighs nl' = [flood_10_0_0_2]
    ∧ dom (fdbs_on_node (mkLink 7) nl') = dom (one_fdb_desired !!! 2%positive).
Proof.
  assert (one_fdb_desired !!! 1%positive = (∅ : gmap string Neigh)) as Hcur
    by apply lookup_total_insert_eq.
  assert (one_fdb_desired !!! 2%positive
          = ({[ "10.0.0.2" := flood_10_0_0_2 ]} : gmap string Neigh)) as Hdes.
  { unfold one_fdb_desired. rewrite lookup_total_insert_ne by done.
    apply lookup_total_singleton_eq. }
  pose (nl := logged (mkEvent None (ReqNeighList 7 syscall.AF_BRIDGE) None)
                (quiet [] [] [])).
  assert (ListFDBsOnNode (mkLink 7) (quiet [] [] [])
          = (nl, Some (one_fdb_desired !!! 1%positive), None)) as Hlist.
  { rewrite ListFDBsOnNode_spec, Hcur. reflexivity. }
  destruct (ApplyFDBs map_to_list_order 1%positive 2%positive one_fdb_desired nl)
    as [[h' nl'] err] eqn:Hret.
  assert (err = None) as ->.
  { pose proof (f_equal snd Hret) as Herr. vm_compute in Herr. by symmetry. }
  pose proof (f_equal (λ r, r.1.2) Hret) as Hnl. cbn [fst snd] in Hnl.
  assert (nl_neighs nl' = [flood_10_0_0_2]) as Hkernel.
  { rewrite <- Hnl. vm_compute. reflexivity. }
  exists nl, h', nl'. split; [exact Hlist|]. split; [exact Hret|].
  split; [exact Hkernel|].
  refine (proj1 (ApplyFDBs_converges _ _ _ _ _ _ _ _ _ Hlist _ _ Hret)).
  - vm_compute. constructor.
  - intros k v Hkv. rewrite Hdes in Hkv.
    apply lookup_singleton_Some in Hkv as [<- <-]. vm_compute.
    repeat split; reflexivity.
Defined.

(** ** What a call leaves alone *)

(** The kind of object a request is about. *)
Inductive Kind := OfRules | OfRoutes | OfNeighs.

Definition request_kind (c : Request) : Kind :=
  match c with
  | ReqRuleList _ _ | ReqRuleAdd _ | ReqRuleDel _ => OfRules
  | ReqRouteList _ _ | ReqRouteAdd _ | ReqRouteReplace _ | ReqRouteDel _ => OfRoutes
  | ReqNeighList _ _ | ReqNeighAppend _ | ReqNeighDel _ => OfNeighs
  end.

(** The objects of the other kinds are the same in the two states. *)
Definition others_kept (kd : Kind) (a b : Netlink) : Prop :=
  match kd with
  | OfRules => nl_routes a = nl_routes b ∧ nl_neighs a = nl_neighs b
  | OfRoutes => nl_rules a = nl_rules b ∧ nl_neighs a = nl_neighs b
  | OfNeighs => nl_rules a = nl_rules b ∧ nl_routes a = nl_routes b
  end.

Lemma accepted_others_kept c nl : others_kept (request_kind c) (netlinkutil.accepted c nl) nl.
Proof. by destruct c. Qed.

Lemma others_kept_trans kd a b c :
  others_kept kd a b → others_kept kd b c → others_kept kd a c.
Proof. destruct kd; intros [? ?] [? ?]; split; congruence. Qed.

Lemma others_kept_same kd a b : same_objects a b → others_kept kd a b.
Proof. intros (? & ? & ?). by destruct kd. Qed.

Lemma settle_others_kept kd evs nl :
  Forall (λ e, request_kind (ev_req e) = kd) evs → others_kept kd (settle evs nl) nl.
Proof.
  revert nl. induction evs as [|e evs IH]; intros nl Hk.
  { by destruct kd. }
  apply Forall_cons in Hk as [He Hk]. cbn [settle foldl].
  eapply others_kept_trans; [apply (IH _ Hk)|].
  destruct (ev_err e); [by destruct kd|]. rewrite <- He. apply accepted_others_kept.
Qed.

Lemma swept_others_kept kd cs nl nl' evs :
  Forall (λ kc, request_kind kc.2 = kd) cs → swept cs nl nl' evs →
  Forall (λ e, request_kind (ev_req e) = kd) evs ∧ others_kept kd nl' nl.
Proof.
  intros Hk (_ & Hsent & _ & Hobj).
  assert (Forall (λ e, request_kind (ev_req e) = kd) evs) as Hevs.
  { apply Forall_forall. intros e He.
    destruct (sent_elem_of _ _ _ Hsent He) as (k & _ & Hin).
    by apply (proj1 (Forall_forall _ _) Hk) in Hin. }
  split; [done|].
  eapply others_kept_trans; [by apply others_kept_same|]. by apply settle_others_kept.
Qed.

Lemma plan_kind {V} (add del : V → Request) upd kd (C : gmap string V) es1 es2 :
  (∀ v, request_kind (add v) = kd) → (∀ v, request_kind (del v) = kd) →
  (∀ ro v cs c, upd ro v = Some cs → c ∈ cs → request_kind c = kd) →
  Forall (λ kc, request_kind kc.2 = kd)
    ((plan_desired add upd C es1).1 ++ plan_unwanted del es2)%list.
Proof.
  intros Hadd Hdel Hupd. apply Forall_app. split; apply Forall_forall; intros [k c] Hin.
  - apply elem_of_plan_desired_sent in Hin as (v & _ & Hc). cbn [snd].
    destruct (C !! k) as [ro|]; [|by subst].
    destruct Hc as (cs & Hcs & Hc). by eapply Hupd.
  - apply elem_of_plan_unwanted in Hin as (v & _ & ->). apply Hdel.
Qed.

Lemma route_upd_kind ro v cs c :
  route_upd ro v = Some cs → c ∈ cs → request_kind c = OfRoutes.
Proof.
  unfold route_upd. destruct (routeEqual ro v) as [[|]|]; intros [= <-] Hc.
  - by apply elem_of_nil in Hc.
  - by apply list_elem_of_singleton in Hc as ->.
Qed.

Lemma nothing_kind (kd : Kind) {V} (ro v : V) (cs : list Request) c :
  Some [] = Some cs → c ∈ cs → request_kind c = kd.
Proof. intros [= <-] Hc. by apply elem_of_nil in Hc. Qed.


Lemma filter_snoc_out {A} (P : A → Prop) `{∀ x, Decision (P x)} (R : list A) v :
  ¬ P v → filter P (R ++ [v])%list = filter P R.
Proof. intros Hv. by rewrite filter_app, filter_cons_False, filter_nil, app_nil_r. Qed.

Lemma filter_filter_out {A} (P Q : A → Prop) `{∀ x, Decision (P x)}
    `{∀ x, Decision (Q x)} (R : list A) :
  (∀ x, P x → Q x) → filter P (filter Q R) = filter P R.
Proof.
  intros HPQ. rewrite list_filter_filter. apply list_filter_iff. intros x.
  split; [by intros [? _] | intros HP; split; [done | by apply HPQ]].
Qed.

(** Requests that keep the objects [P] of one kind as they are keep
    them through a whole sweep. *)
Lemma swept_filter {V} (proj : Netlink → list V) (P : V → Prop)
    `{∀ x, Decision (P x)} cs nl nl' evs :
  (∀ a b, same_objects a b → proj a = proj b) →
  Forall (λ kc : string * Request,
            ∀ a, filter P (proj (netlinkutil.accepted kc.2 a)) = filter P (proj a)) cs →
  swept cs nl nl' evs → filter P (proj nl') = filter P (proj nl).
Proof.
  intros Hproj Hcs (_ & Hsent & _ & Hobj). rewrite (Hproj _ _ Hobj).
  assert (Forall (λ e, ∀ a, filter P (proj (netlinkutil.accepted (ev_req e) a))
                            = filter P (proj a)) evs) as Hevs.
  { apply Forall_forall. intros e He.
    destruct (sent_elem_of _ _ _ Hsent He) as (k & _ & Hin).
    exact (proj1 (Forall_forall _ _) Hcs _ Hin). }
  clear Hsent Hobj Hcs. revert nl. induction evs as [|e evs IH]; intros nl; [done|].
  apply Forall_cons in Hevs as [He Hevs]. cbn [settle foldl].
  fold (settle evs (match ev_err e with
                    | None => netlinkutil.accepted (ev_req e) nl
                    | Some _ => nl
                    end)).
  rewrite (IH Hevs). by destruct (ev_err e).
Qed.

(** What holds of every request of a call, from what holds of the
    entries of the two maps. *)
Lemma plan_Forall {V} (add del : V → Request) upd (Q : Request → Prop)
    (Good : V → Prop) o (C D : gmap string V) :
  (∀ k v, C !! k = Some v ∨ D !! k = Some v → Good v) →
  (∀ v, Good v → Q (add v)) → (∀ v, Good v → Q (del v)) →
  (∀ ro v cs c, Good v → upd ro v = Some cs → c ∈ cs → Q c) →
  Forall (λ kc, Q kc.2) (plan_desired add upd C (range o D)).1
  ∧ Forall (λ kc, Q kc.2)
      ((plan_desired add upd C (range o D)).1
       ++ plan_unwanted del (range o (C ∖ D)))%list.
Proof.
  intros Hgood Hadd Hdel Hupd.
  assert (Forall (λ kc, Q kc.2) (plan_desired add upd C (range o D)).1) as H1.
  { apply Forall_forall. intros [k c] Hin.
    apply elem_of_plan_desired_sent in Hin as (v & Hv & Hc). cbn [snd].
    apply elem_of_range in Hv. assert (Good v) as Hg by (apply (Hgood k); by right).
    destruct (C !! k) as [ro|]; [|subst; by apply Hadd].
    destruct Hc as (cs & Hcs & Hc). by eapply Hupd. }
  split; [done|]. apply Forall_app. split; [done|].
  apply Forall_forall. intros [k c] Hin.
  apply elem_of_plan_unwanted in Hin as (v & Hv & ->).
  apply elem_of_range, lookup_difference_Some in Hv as [Hv _].
  apply Hdel, (Hgood k). by left.
Qed.

(** X15. A converge call whose two maps hold objects of one table (for
    FDB entries: of one link) leaves everything else in the kernel as it
    was, whatever the kernel accepts or rejects: [ApplyRules] leaves the
    rules of the other tables, the routes and the neighbour entries;
    [ApplyRoutes], also when it panics, leaves the routes of the other
    tables, the rules and the neighbour entries; [ApplyFDBs] leaves the
    neighbour entries of the other links, the rules and the routes. *)
Theorem Apply_leaves_the_rest o current desired :
  (∀ t (h : heap Rule) nl,
     (∀ k v, (h !!! current) !! k = Some v ∨ (h !!! desired) !! k = Some v →
             Rule_Table v = t) →
     let '(_, nl', _) := ApplyRules o current desired h nl in
     filter (λ r, Rule_Table r ≠ t) (nl_rules nl')
     = filter (λ r, Rule_Table r ≠ t) (nl_rules nl)
     ∧ nl_routes nl' = nl_routes nl ∧ nl_neighs nl' = nl_neighs nl)
  ∧ (∀ t (h : heap Route) nl,
       (∀ k v, (h !!! current) !! k = Some v ∨ (h !!! desired) !! k = Some v →
               Route_Table v = t) →
       let nl' := match ApplyRoutes o current desired h nl with
                  | Returned (_, nl', _) => nl'
                  | Panicked _ nl' => nl'
                  end in
       filter (λ r, Route_Table r ≠ t) (nl_routes nl')
       = filter (λ r, Route_Table r ≠ t) (nl_routes nl)
       ∧ nl_rules nl' = nl_rules nl ∧ nl_neighs nl' = nl_neighs nl)
  ∧ (∀ idx (h : heap Neigh) nl,
       (∀ k v, (h !!! current) !! k = Some v ∨ (h !!! desired) !! k = Some v →
               Neigh_LinkIndex v = idx) →
       let '(_, nl', _) := ApplyFDBs o current desired h nl in
       filter (λ n, Neigh_LinkIndex n ≠ idx) (nl_neighs nl')
       = filter (λ n, Neigh_LinkIndex n ≠ idx) (nl_neighs nl)
       ∧ nl_rules nl' = nl_rules nl ∧ nl_routes nl' = nl_routes nl).
Proof.
  split; [|split].
  - intros t h nl Hgood. destruct (ApplyRules_sweep o current desired h nl)
      as (h' & nl' & evs & -> & _ & _ & Hsw).
    destruct (plan_Forall ReqRuleAdd ReqRuleDel rule_upd
                (λ c, ∀ a, filter (λ r, Rule_Table r ≠ t)
                             (nl_rules (netlinkutil.accepted c a))
                           = filter (λ r, Rule_Table r ≠ t) (nl_rules a))
                (λ v, Rule_Table v = t) o _ _ Hgood) as [_ Hf].
    { intros v Hv a. apply filter_snoc_out. by intros Hn. }
    { intros v Hv a. apply filter_filter_out. intros x Hx ->. by apply Hx. }
    { intros ro v cs c _ [= <-] Hc. by apply elem_of_nil in Hc. }
    split.
    + by apply (swept_filter nl_rules (λ r, Rule_Table r ≠ t) _ _ _ _
                  (λ a b Hab, proj1 Hab) Hf) in Hsw.
    + apply (swept_others_kept OfRules) in Hsw as [_ Hkept]; [done|].
      apply plan_kind; try done. apply (nothing_kind OfRules).
  - intros t h nl Hgood.
    destruct (plan_Forall ReqRouteAdd ReqRouteDel route_upd
                (λ c, ∀ a, filter (λ r, Route_Table r ≠ t)
                             (nl_routes (netlinkutil.accepted c a))
                           = filter (λ r, Route_Table r ≠ t) (nl_routes a))
                (λ v, Route_Table v = t) o _ _ Hgood) as [Hf1 Hf2].
    { intros v Hv a. apply filter_snoc_out. by intros Hn. }
    { intros v Hv a. apply filter_filter_out. intros x Hx ->. by apply Hx. }
    { intros ro v cs c Hv Hcs Hc a.
      destruct (route_upd_replace ro v cs c (nl_routes a) Hcs Hc) as [_ Hr].
      rewrite accepted_routes, Hr, filter_snoc_out by (by intros Hn).
      apply filter_filter_out. intros x Hx Hk. apply Hx.
      apply RouteKey_eq in Hk as [_ Hk]. congruence. }
    pose proof (plan_kind ReqRouteAdd ReqRouteDel route_upd OfRoutes (h !!! current)
                  (range o (h !!! desired)) (range o ((h !!! current) ∖ (h !!! desired)))
                  (λ _, eq_refl) (λ _, eq_refl) route_upd_kind) as Hk2.
    pose proof (ApplyRoutes_sweep o current desired h nl) as H.
    destruct (routes_complete o (h !!! current) (h !!! desired)).
    + destruct H as (h' & nl' & evs & -> & _ & _ & Hsw). cbv zeta. split.
      * by apply (swept_filter nl_routes (λ r, Route_Table r ≠ t) _ _ _ _
                    (λ a b Hab, proj1 (proj2 Hab)) Hf2) in Hsw.
      * by apply (swept_others_kept OfRoutes _ _ _ _ Hk2) in Hsw as [_ Hkept].
    + destruct H as (h' & nl' & evs & -> & Hsw). cbv zeta. split.
      * by apply (swept_filter nl_routes (λ r, Route_Table r ≠ t) _ _ _ _
                    (λ a b Hab, proj1 (proj2 Hab)) Hf1) in Hsw.
      * apply Forall_app in Hk2 as [Hk1 _].
        by apply (swept_others_kept OfRoutes _ _ _ _ Hk1) in Hsw as [_ Hkept].
  - intros idx h nl Hgood. destruct (ApplyFDBs_sweep o current desired h nl)
      as (h' & nl' & evs & -> & _ & _ & Hsw).
    destruct (plan_Forall ReqNeighAppend ReqNeighDel neigh_upd
                (λ c, ∀ a, filter (λ n, Neigh_LinkIndex n ≠ idx)
                             (nl_neighs (netlinkutil.accepted c a))
                           = filter (λ n, Neigh_LinkIndex n ≠ idx) (nl_neighs a))
                (λ v, Neigh_LinkIndex v = idx) o _ _ Hgood) as [_ Hf].
    { intros v Hv a. apply filter_snoc_out. by intros Hn. }
    { intros v Hv a. apply filter_filter_out. intros x Hx ->. by apply Hx. }
    { intros ro v cs c _ [= <-] Hc. by apply elem_of_nil in Hc. }
    split.
    + by apply (swept_filter nl_neighs (λ n, Neigh_LinkIndex n ≠ idx) _ _ _ _
                  (λ a b Hab, proj2 (proj2 Hab)) Hf) in Hsw.
    + apply (swept_others_kept OfNeighs) in Hsw as [_ Hkept]; [done|].
      apply plan_kind; try done. apply (nothing_kind OfNeighs).
Qed.

Lemma Apply_leaves_the_rest_witness :
  let other := mkRoute (Some net_10_0_0_0_24) [x09; x09; x09; x09] [] 3 200 in
  let nl := quiet [] [other; via_1_1_1_1] [] in
  let nl' := match ApplyRoutes map_to_list_order 1%positive 2%positive gateway_change nl with
             | Returned (_, nl', _) => nl'
             | Panicked _ nl' => nl'
             end in
  (∀ k v, (gateway_change !!! 1%positive) !! k = Some v
          ∨ (gateway_change !!! 2%positive) !! k = Some v → Route_Table v = 100)
  ∧ filter (λ r, Route_Table r ≠ 100) (nl_routes nl) = [other]
  ∧ filter (λ r, Route_Table r ≠ 100) (nl_routes nl')
    = filter (λ r, Route_Table r ≠ 100) (nl_routes nl).
Proof.
  intros other nl nl'.
  assert (∀ k v, (gateway_change !!! 1%positive) !! k = Some v
                 ∨ (gateway_change !!! 2%positive) !! k = Some v → Route_Table v = 100)
    as Hgood.
  { intros k v. rewrite gateway_change_current, gateway_change_desired.
    by intros [[_ <-]%lookup_singleton_Some|[_ <-]%lookup_singleton_Some]. }
  split; [exact Hgood|]. split; [vm_compute; reflexivity|].
  exact (proj1 (proj1 (proj2 (Apply_leaves_the_rest map_to_list_order 1%positive 2%positive))
                  100 gateway_change nl Hgood)).
Defined.

(** ** Teardown: what is left in the kernel *)

Lemma filter_none {A} (P : A → Prop) `{∀ x, Decision (P x)} (l : list A) :
  (∀ x, x ∈ l → ¬ P x) → filter P l = [].
Proof.
  intros Hl. destruct (filter P l) as [|y ys] eqn:E; [done|]. exfalso.
  assert (y ∈ filter P l) as Hy by (rewrite E; apply list_elem_of_here).
  apply list_elem_of_filter in Hy as [HP Hy]. by apply (Hl y).
Qed.

Lemma afterwards_unwanted_filter {V} `{EqDecision V} (P : V → Prop)
    `{∀ v, Decision (P v)} (del : V → Request) (after : Request → list V → list V)
    (es : list (string * V)) (R : list V) :
  (∀ v R, after (del v) R = filter (λ x, x ≠ v) R) →
  Forall (λ kv, ¬ P kv.2) es →
  filter P (afterwards after R (plan_unwanted del es)) = filter P R.
Proof.
  intros after_del. revert R. induction es as [|[k w] es IH]; intros R Hes; [done|].
  apply Forall_cons in Hes as [Hw Hes]. unfold afterwards, plan_unwanted in *.
  rewrite !fmap_cons. cbn [foldl snd]. rewrite (IH _ Hes), after_del.
  apply filter_filter_out. intros x Hx ->. by apply Hw.
Qed.

(** The objects left after deleting every entry of the listing of a
    table: those that the listing did not show, which are the objects
    outside the table and the objects of the table that another one
    with the same key hid. *)
Lemma cleaned {V} `{EqDecision V} (key : V → string) (tbl : V → Prop)
    `{∀ v, Decision (tbl v)} (del : V → Request) (after : Request → list V → list V)
    (o : RangeOrder) (R : list V) :
  (∀ v R, after (del v) R = filter (λ x, x ≠ v) R) →
  let R' := afterwards after R (plan_unwanted del (range o (listing key tbl R))) in
  (∀ x, x ∈ R' ↔ x ∈ R ∧ listing key tbl R !! key x ≠ Some x)
  ∧ (NoDup (key <$> filter tbl R) → filter tbl R' = [] ∧ listing key tbl R' = ∅)
  ∧ filter (λ x, ¬ tbl x) R' = filter (λ x, ¬ tbl x) R.
Proof.
  intros after_del R'.
  assert (∀ x, x ∈ R' ↔ x ∈ R ∧ listing key tbl R !! key x ≠ Some x) as Hin.
  { intros x. unfold R'. rewrite (elem_of_afterwards_unwanted del after after_del).
    apply and_iff_compat_l. rewrite list_elem_of_fmap. split.
    - intros Hn Hx. apply Hn. exists (key x, x). split; [done | by apply elem_of_range].
    - intros Hn ([k y] & -> & Hy). apply elem_of_range in Hy.
      apply listing_Some in Hy as Hk. destruct Hk as (_ & _ & <-). done. }
  split; [exact Hin|]. split.
  - intros Hnd.
    assert (filter tbl R' = []) as Hnil.
    { apply filter_none. intros x [Hx Hn]%Hin Ht. apply Hn. by apply listing_NoDup. }
    split; [done|]. unfold listing. by rewrite Hnil.
  - apply afterwards_unwanted_filter; [done|].
    apply Forall_forall. intros [k x] Hx Hn. apply elem_of_range in Hx.
    apply listing_Some in Hx as (_ & ? & _). by apply Hn.
Qed.

(** The kernel after a teardown that returned nil. *)
Lemma CleanRoutesOnNode_nil o t nl nl' :
  CleanRoutesOnNode o t nl = (nl', None) →
  nl_routes nl'
  = afterwards routes_after (nl_routes nl)
      (plan_unwanted ReqRouteDel (range o (routes_on_node t nl)))
  ∧ nl_rules nl' = nl_rules nl ∧ nl_neighs nl' = nl_neighs nl.
Proof.
  unfold CleanRoutesOnNode. rewrite ListRoutesOnNode_spec.
  destruct (nl_fault nl (nl_log nl) (ReqRouteList FAMILY_V4 t)) as [e|].
  { cbn [errorlist.Append default]. rewrite range_empty. by cbn. }
  change (default ∅ (Some (routes_on_node t nl))) with (routes_on_node t nl).
  rewrite CleanRoutes_loop_run. cbn [app].
  set (nl0 := logged (mkEvent None (ReqRouteList FAMILY_V4 t) None) nl).
  set (cs := plan_unwanted ReqRouteDel (range o (routes_on_node t nl))).
  destruct (run_swept cs nl0) as (evs & Hsw & Herr). rewrite Herr.
  intros [= <- Hnil]. apply AsError_None, fmap_nil_inv, failures_nil in Hnil.
  pose proof Hsw as (_ & Hsent & _ & Hobj).
  apply (swept_others_kept OfRoutes) in Hsw as [_ Hkept].
  2:{ apply Forall_forall. intros [k c] (v & _ & ->)%elem_of_plan_unwanted. done. }
  split; [|exact Hkept].
  destruct Hobj as (_ & -> & _). rewrite (settle_routes _ _ Hnil).
  unfold afterwards. by rewrite (sent_requests _ _ Hsent).
Qed.

Lemma CleanRulesOnNode_nil o t nl nl' :
  CleanRulesOnNode o t nl = (nl', None) →
  nl_rules nl'
  = afterwards rules_after (nl_rules nl)
      (plan_unwanted ReqRuleDel (range o (rules_on_node t nl)))
  ∧ nl_routes nl' = nl_routes nl ∧ nl_neighs nl' = nl_neighs nl.
Proof.
  unfold CleanRulesOnNode. rewrite ListRulesOnNode_spec.
  destruct (nl_fault nl (nl_log nl) (ReqRuleList FAMILY_V4 t)) as [e|].
  { cbn [errorlist.Append default]. rewrite range_empty. by cbn. }
  change (default ∅ (Some (rules_on_node t nl))) with (rules_on_node t nl).
  rewrite CleanRules_loop_run. cbn [app].
  set (nl0 := logged (mkEvent None (ReqRuleList FAMILY_V4 t) None) nl).
  set (cs := plan_unwanted ReqRuleDel (range o (rules_on_node t nl))).
  destruct (run_swept cs nl0) as (evs & Hsw & Herr). rewrite Herr.
  intros [= <- Hnil]. apply AsError_None, fmap_nil_inv, failures_nil in Hnil.
  pose proof Hsw as (_ & Hsent & _ & Hobj).
  apply (swept_others_kept OfRules) in Hsw as [_ Hkept].
  2:{ apply Forall_forall. intros [k c] (v & _ & ->)%elem_of_plan_unwanted. done. }
  split; [|exact Hkept].
  destruct Hobj as (-> & _). rewrite (settle_rules _ _ Hnil).
  unfold afterwards. by rewrite (sent_requests _ _ Hsent).
Qed.

(** X17. When [CleanRoutesOnNode] returns nil, the routes left in the
    kernel are those that the listing of the table did not show: the
    routes of the other tables, all of them and in their order, and the
    routes of the table that another route with the same key hid from
    the listing. When no two routes of the table share a key, no route
    of the table is left and listing the table again gives the empty
    map. The rules and the neighbour entries are as they were. *)
Theorem CleanRoutesOnNode_empties_table o routeTableID nl nl' :
  CleanRoutesOnNode o routeTableID nl = (nl', None) →
  (∀ x, x ∈ nl_routes nl'
        ↔ x ∈ nl_routes nl ∧ routes_on_node routeTableID nl !! RouteKey x ≠ Some x)
  ∧ (NoDup (RouteKey <$> table_routes routeTableID nl) →
     table_routes routeTableID nl' = [] ∧ routes_on_node routeTableID nl' = ∅)
  ∧ filter (λ r, ¬ Route_Table r = routeTableID) (nl_routes nl')
    = filter (λ r, ¬ Route_Table r = routeTableID) (nl_routes nl)
  ∧ nl_rules nl' = nl_rules nl ∧ nl_neighs nl' = nl_neighs nl.
Proof.
  intros (Hr & Hrules & Hneighs)%CleanRoutesOnNode_nil.
  destruct (cleaned RouteKey (λ r, Route_Table r = routeTableID) ReqRouteDel routes_after
              o (nl_routes nl) (λ _ _, eq_refl)) as (H1 & H2 & H3).
  cbv zeta in H1, H2, H3. rewrite routes_on_node_listing in Hr.
  rewrite <- Hr in H1, H2, H3. done.
Qed.

(** X18. When [CleanRulesOnNode] returns nil, the rules left in the
    kernel are those that the listing of the table did not show: the
    rules of the other tables and families, all of them and in their
    order, and the rules of the table that another rule with the same
    key hid from the listing. When no two IPv4 rules of the table share
    a key, no IPv4 rule of the table is left and listing the table again
    gives the empty map. The routes and the neighbour entries are as
    they were. *)
Theorem CleanRulesOnNode_empties_table o routeTableID nl nl' :
  CleanRulesOnNode o routeTableID nl = (nl', None) →
  (∀ x, x ∈ nl_rules nl'
        ↔ x ∈ nl_rules nl ∧ rules_on_node routeTableID nl !! RuleKey x ≠ Some x)
  ∧ (NoDup (RuleKey <$> table_rules routeTableID nl) →
     table_rules routeTableID nl' = [] ∧ rules_on_node routeTableID nl' = ∅)
  ∧ filter (λ r, ¬ (Rule_Family r = FAMILY_V4 ∧ Rule_Table r = routeTableID))
      (nl_rules nl')
    = filter (λ r, ¬ (Rule_Family r = FAMILY_V4 ∧ Rule_Table r = routeTableID))
        (nl_rules nl)
  ∧ nl_routes nl' = nl_routes nl ∧ nl_neighs nl' = nl_neighs nl.
Proof.
  intros (Hr & Hroutes & Hneighs)%CleanRulesOnNode_nil.
  destruct (cleaned RuleKey (λ r, Rule_Family r = FAMILY_V4 ∧ Rule_Table r = routeTableID)
              ReqRuleDel rules_after o (nl_rules nl) (λ _ _, eq_refl)) as (H1 & H2 & H3).
  cbv zeta in H1, H2, H3. rewrite rules_on_node_listing in Hr.
  rewrite <- Hr in H1, H2, H3. done.
Qed.

Lemma CleanRoutesOnNode_empties_table_witness :
  let other := mkRoute (Some net_10_0_0_0_24) [x09; x09; x09; x09] [] 3 200 in
  let nl := quiet [] [other; via_1_1_1_1] [] in
  NoDup (RouteKey <$> table_routes 100 nl)
  ∧ ∃ nl', CleanRoutesOnNode map_to_list_order 100 nl = (nl', None)
           ∧ table_routes 100 nl' = []
           ∧ filter (λ r, ¬ Route_Table r = 100) (nl_routes nl') = [other].
Proof.
  intros other nl.
  assert (NoDup (RouteKey <$> table_routes 100 nl)) as Hnd
    by (vm_compute; apply NoDup_singleton).
  split; [exact Hnd|].
  destruct (CleanRoutesOnNode map_to_list_order 100 nl) as [nl' err] eqn:Hret.
  assert (err = None) as ->.
  { pose proof (f_equal snd Hret) as Herr. vm_compute in Herr. by symmetry. }
  exists nl'. split; [reflexivity|].
  destruct (CleanRoutesOnNode_empties_table _ _ _ _ Hret) as (_ & H2 & H3 & _).
  split; [exact (proj1 (H2 Hnd))|]. rewrite H3. vm_compute. reflexivity.
Defined.

Lemma CleanRulesOnNode_empties_table_witness :
  let other := mkRule 5 200 FAMILY_V4 (Some net_10_1_0_0_16) in
  let nl := quiet [other; rule_prio_1] [] [] in
  NoDup (RuleKey <$> table_rules 100 nl)
  ∧ ∃ nl', CleanRulesOnNode map_to_list_order 100 nl = (nl', None)
           ∧ table_rules 100 nl' = []
           ∧ filter (λ r, ¬ (Rule_Family r = FAMILY_V4 ∧ Rule_Table r = 100)) (nl_rules nl')
             = [other].
Proof.
  intros other nl.
  assert (NoDup (RuleKey <$> table_rules 100 nl)) as Hnd
    by (vm_compute; apply NoDup_singleton).
  split; [exact Hnd|].
  destruct (CleanRulesOnNode map_to_list_order 100 nl) as [nl' err] eqn:Hret.
  assert (err = None) as ->.
  { pose proof (f_equal snd Hret) as Herr. vm_compute in Herr. by symmetry. }
  exists nl'. split; [reflexivity|].
  destruct (CleanRulesOnNode_empties_table _ _ _ _ Hret) as (_ & H2 & H3 & _).
  split; [exact (proj1 (H2 Hnd))|]. rewrite H3. vm_compute. reflexivity.
Defined.

(** ** Teardown as a converge call *)

(** X19. A teardown is the lister followed by the converge call with
    the listing as current and an empty desired map: [CleanRoutesOnNode]
    sends the requests that [ListRoutesOnNode] and then [ApplyRoutes]
    send and leaves the kernel and the request log as they do, and
    likewise [CleanRulesOnNode] with [ListRulesOnNode] and [ApplyRules].
    The converge call cannot panic here. The errors differ in their
    wrapping only: the teardown prefixes a listing failure with "error
    listing ..." and goes on, and prefixes every delete failure with
    "error deleting ...". *)
Theorem Clean_as_list_then_apply o routeTableID current desired :
  (∀ (h : heap Route) nl nl1 routes lerr,
     ListRoutesOnNode routeTableID nl = (nl1, routes, lerr) →
     h !!! current = default ∅ routes → h !!! desired = ∅ →
     ∃ h' errs,
       ApplyRoutes o current desired h nl1
       = Returned (h', (CleanRoutesOnNode o routeTableID nl).1, errorlist.AsError errs)
       ∧ (CleanRoutesOnNode o routeTableID nl).2
         = errorlist.AsError
             (match lerr with
              | Some e => [Errorf "error listing routes" e]
              | None => []
              end ++ (Errorf "error deleting routes" <$> errs))%list)
  ∧ (∀ (h : heap Rule) nl nl1 rules lerr,
       ListRulesOnNode routeTableID nl = (nl1, rules, lerr) →
       h !!! current = default ∅ rules → h !!! desired = ∅ →
       ∃ h' errs,
         ApplyRules o current desired h nl1
         = (h', (CleanRulesOnNode o routeTableID nl).1, errorlist.AsError errs)
         ∧ (CleanRulesOnNode o routeTableID nl).2
           = errorlist.AsError
               (match lerr with
                | Some e => [Errorf "error listing rules" e]
                | None => []
                end ++ (Errorf "error deleting rules" <$> errs))%list).
Proof.
  split.
  - intros h nl nl1 routes lerr Hlist Hcur Hdes.
    unfold CleanRoutesOnNode, ApplyRoutes. rewrite Hlist, Hdes, range_empty.
    cbn [ApplyRoutes_desired]. rewrite Hcur, ApplyRoutes_unwanted_run.
    rewrite CleanRoutes_loop_run.
    destruct (run (plan_unwanted ReqRouteDel (range o (default ∅ routes))) nl1 [])
      as [nl2 errs].
    exists h, errs. split; [done|]. by destruct lerr.
  - intros h nl nl1 rules lerr Hlist Hcur Hdes.
    unfold CleanRulesOnNode, ApplyRules. rewrite Hlist, Hdes, range_empty.
    cbn [ApplyRules_desired]. rewrite Hcur, ApplyRules_unwanted_run.
    rewrite CleanRules_loop_run.
    destruct (run (plan_unwanted ReqRuleDel (range o (default ∅ rules))) nl1 [])
      as [nl2 errs].
    exists h, errs. split; [done|]. by destruct lerr.
Qed.

Lemma Clean_as_list_then_apply_witness :
  let nl := quiet [] [via_1_1_1_1] [] in
  let h : heap Route := <[ 1%positive := routes_on_node 100 nl ]> {[ 2%positive := ∅ ]} in
  ∃ nl1 h' errs,
    ListRoutesOnNode 100 nl = (nl1, Some (routes_on_node 100 nl), None)
    ∧ ApplyRoutes map_to_list_order 1%positive 2%positive h nl1
      = Returned (h', (CleanRoutesOnNode map_to_list_order 100 nl).1,
                  errorlist.AsError errs)
    ∧ nl_routes (CleanRoutesOnNode map_to_list_order 100 nl).1 = [].
Proof.
  intros nl h.
  pose (nl1 := logged (mkEvent None (ReqRouteList FAMILY_V4 100) None) nl).
  assert (ListRoutesOnNode 100 nl = (nl1, Some (routes_on_node 100 nl), None)) as Hlist
    by (rewrite ListRoutesOnNode_spec; reflexivity).
  assert (h !!! 1%positive = default ∅ (Some (routes_on_node 100 nl))) as Hcur
    by apply lookup_total_insert_eq.
  assert (h !!! 2%positive = (∅ : gmap string Route)) as Hdes.
  { unfold h. rewrite lookup_total_insert_ne by done. apply lookup_total_singleton_eq. }
  destruct (proj1 (Clean_as_list_then_apply map_to_list_order 100 1%positive 2%positive)
              h nl nl1 _ _ Hlist Hcur Hdes) as (h' & errs & Hret & _).
  exists nl1, h', errs. split; [exact Hlist|]. split; [exact Hret|].
  vm_compute. reflexivity.
Defined.

(** ** The kernel after a call, whatever was rejected *)

Section Settled.
Context {V : Type} `{EqDecision V}.
Variables add del : V → Request.
Context `{!Inj (=) (=) add} `{!Inj (=) (=) del}.
Variable after : Request → list V → list V.
Hypothesis after_add : ∀ v R, after (add v) R = (R ++ [v])%list.
Hypothesis after_del : ∀ v R, after (del v) R = filter (λ x, x ≠ v) R.

(** The list after the accepted ones among the events. *)
Definition settled (evs : list Event) (R : list V) : list V :=
  foldl (λ R e, match ev_err e with
                | None => after (ev_req e) R
                | Some _ => R
                end) R evs.

(** The event is an accepted request [c]. *)
Definition accepted_in (evs : list Event) (c : Request) : Prop :=
  ∃ e, e ∈ evs ∧ ev_err e = None ∧ ev_req e = c.

Lemma accepted_in_cons e evs c :
  accepted_in (e :: evs) c ↔ (ev_err e = None ∧ ev_req e = c) ∨ accepted_in evs c.
Proof.
  unfold accepted_in. split.
  - intros (e' & [->|Hin]%elem_of_cons & He); [by left | right; eauto].
  - intros [He|(e' & Hin & He)].
    + exists e. split; [apply list_elem_of_here | done].
    + exists e'. split; [by apply list_elem_of_further | done].
Qed.

Lemma accepted_in_app evs1 evs2 c :
  accepted_in (evs1 ++ evs2) c ↔ accepted_in evs1 c ∨ accepted_in evs2 c.
Proof.
  unfold accepted_in. split.
  - intros (e & [Hin|Hin]%elem_of_app & He); [left | right]; eauto.
  - intros [(e & Hin & He)|(e & Hin & He)]; exists e;
      (split; [apply elem_of_app; auto | done]).
Qed.

Lemma settled_adds evs R x :
  Forall (λ e, ∃ v, ev_req e = add v) evs →
  x ∈ settled evs R ↔ x ∈ R ∨ accepted_in evs (add x).
Proof.
  revert R. induction evs as [|e evs IH]; intros R Hevs.
  { unfold accepted_in. split; [by left|]. intros [?|(? & ?%elem_of_nil & _)]; done. }
  apply Forall_cons in Hevs as [[v Hv] Hevs]. unfold settled in *. cbn [foldl].
  rewrite (IH _ Hevs), accepted_in_cons, Hv. destruct (ev_err e) as [err|].
  - split; [intros [?|?]; auto | intros [?|[[? _]|?]]; auto; done].
  - rewrite after_add, elem_of_app, list_elem_of_singleton. split.
    + intros [[?| ->]|?]; auto.
    + intros [?|[[_ Hx]|?]]; [auto | | auto].
      apply (inj add) in Hx. subst. auto.
Qed.

Lemma settled_dels evs R x :
  Forall (λ e, ∃ v, ev_req e = del v) evs →
  x ∈ settled evs R ↔ x ∈ R ∧ ¬ accepted_in evs (del x).
Proof.
  revert R. induction evs as [|e evs IH]; intros R Hevs.
  { unfold accepted_in. split; [|by intros [? _]].
    intros ?. split; [done|]. by intros (? & ?%elem_of_nil & _). }
  apply Forall_cons in Hevs as [[v Hv] Hevs]. unfold settled in *. cbn [foldl].
  rewrite (IH _ Hevs), accepted_in_cons, Hv. destruct (ev_err e) as [err|].
  - split; [intros [? Hn]; split; [done|]; intros [[? _]|?]; done|].
    intros [? Hn]. split; [done|]. intros ?. apply Hn. by right.
  - rewrite after_del, list_elem_of_filter. split.
    + intros [[Hne ?] Hn]. split; [done|]. intros [[_ Hx]|?]; [|done].
      apply (inj del) in Hx. done.
    + intros [? Hn]. split; [split; [|done]|].
      * intros ->. apply Hn. by left.
      * intros ?. apply Hn. by right.
Qed.

(** Adds first, deletes after them: an object is there at the end when
    it was there or its add was accepted, and its delete was not
    accepted. *)
Lemma settled_adds_dels evs1 evs2 R x :
  Forall (λ e, ∃ v, ev_req e = add v) evs1 →
  Forall (λ e, ∃ v, ev_req e = del v) evs2 →
  (∀ v w, add v ≠ del w) →
  x ∈ settled (evs1 ++ evs2) R
  ↔ (x ∈ R ∨ accepted_in (evs1 ++ evs2) (add x))
    ∧ ¬ accepted_in (evs1 ++ evs2) (del x).
Proof.
  intros H1 H2 Hne. unfold settled. rewrite foldl_app. fold (settled evs1 R).
  fold (settled evs2 (settled evs1 R)).
  rewrite (settled_dels _ _ _ H2), (settled_adds _ _ _ H1), !accepted_in_app.
  assert (¬ accepted_in evs2 (add x)) as Hno2.
  { intros (e & Hin & _ & He). apply (proj1 (Forall_forall _ _) H2) in Hin as [w Hw].
    apply (Hne x w). congruence. }
  assert (¬ accepted_in evs1 (del x)) as Hno1.
  { intros (e & Hin & _ & He). apply (proj1 (Forall_forall _ _) H1) in Hin as [v Hv].
    apply (Hne v x). congruence. }
  tauto.
Qed.
End Settled.

Lemma settle_rules_settled evs nl :
  nl_rules (settle evs nl) = settled rules_after evs (nl_rules nl).
Proof.
  revert nl. induction evs as [|e evs IH]; intros nl; [done|].
  unfold settled in *. cbn [settle foldl].
  fold (settle evs (match ev_err e with
                    | None => netlinkutil.accepted (ev_req e) nl
                    | Some _ => nl
                    end)).
  rewrite IH. destruct (ev_err e); [done|]. by rewrite accepted_rules.
Qed.

Lemma settle_neighs_settled evs nl :
  nl_neighs (settle evs nl) = settled neighs_after evs (nl_neighs nl).
Proof.
  revert nl. induction evs as [|e evs IH]; intros nl; [done|].
  unfold settled in *. cbn [settle foldl].
  fold (settle evs (match ev_err e with
                    | None => netlinkutil.accepted (ev_req e) nl
                    | Some _ => nl
                    end)).
  rewrite IH. destruct (ev_err e); [done|]. by rewrite accepted_neighs.
Qed.

#[local] Instance ReqRuleAdd_inj : Inj (=) (=) ReqRuleAdd.
Proof. by intros ? ? [= ->]. Qed.
#[local] Instance ReqRuleDel_inj : Inj (=) (=) ReqRuleDel.
Proof. by intros ? ? [= ->]. Qed.
#[local] Instance ReqNeighAppend_inj : Inj (=) (=) ReqNeighAppend.
Proof. by intros ? ? [= ->]. Qed.
#[local] Instance ReqNeighDel_inj : Inj (=) (=) ReqNeighDel.
Proof. by intros ? ? [= ->]. Qed.

(** X20. The kernel after [ApplyRules] and [ApplyFDBs], whatever was
    rejected: a rule is installed after the call exactly when it was
    installed before or the call had its add accepted, and the call did
    not have its delete accepted; the same for the neighbour entries
    with append and delete. A rejected request changes nothing, and the
    accepted requests take effect whatever happened to the others. *)
Theorem Apply_accepted_take_effect o current desired :
  (∀ h nl, let '(_, nl', _) := ApplyRules o current desired h nl in
     ∀ x, x ∈ nl_rules nl'
          ↔ (x ∈ nl_rules nl ∨ accepted_in (issued nl nl') (ReqRuleAdd x))
            ∧ ¬ accepted_in (issued nl nl') (ReqRuleDel x))
  ∧ (∀ h nl, let '(_, nl', _) := ApplyFDBs o current desired h nl in
     ∀ x, x ∈ nl_neighs nl'
          ↔ (x ∈ nl_neighs nl ∨ accepted_in (issued nl nl') (ReqNeighAppend x))
            ∧ ¬ accepted_in (issued nl nl') (ReqNeighDel x)).
Proof.
  split.
  - intros h nl. destruct (ApplyRules_sweep o current desired h nl)
      as (h' & nl' & evs & -> & _ & _ & Hsw).
    rewrite (swept_issued _ _ _ _ Hsw). pose proof Hsw as (_ & _ & _ & (Hr & _)).
    apply swept_split in Hsw as (evs1 & evs2 & -> & H1 & H2).
    apply (sent_desired_adds ReqRuleAdd o) in H1.
    apply (sent_unwanted ReqRuleDel o) in H2.
    intros x. rewrite Hr, settle_rules_settled.
    apply (settled_adds_dels ReqRuleAdd ReqRuleDel rules_after
             (λ _ _, eq_refl) (λ _ _, eq_refl)); [| |done].
    + eapply Forall_impl; [exact H1|]. intros e (k & v & _ & _ & _ & ?). eauto.
    + eapply Forall_impl; [exact H2|]. intros e (k & v & _ & _ & _ & ?). eauto.
  - intros h nl. destruct (ApplyFDBs_sweep o current desired h nl)
      as (h' & nl' & evs & -> & _ & _ & Hsw).
    rewrite (swept_issued _ _ _ _ Hsw). pose proof Hsw as (_ & _ & _ & (_ & _ & Hr)).
    apply swept_split in Hsw as (evs1 & evs2 & -> & H1 & H2).
    apply (sent_desired_adds ReqNeighAppend o) in H1.
    apply (sent_unwanted ReqNeighDel o) in H2.
    intros x. rewrite Hr, settle_neighs_settled.
    apply (settled_adds_dels ReqNeighAppend ReqNeighDel neighs_after
             (λ _ _, eq_refl) (λ _ _, eq_refl)); [| |done].
    + eapply Forall_impl; [exact H1|]. intros e (k & v & _ & _ & _ & ?). eauto.
    + eapply Forall_impl; [exact H2|]. intros e (k & v & _ & _ & _ & ?). eauto.
Qed.
